(** * PeerService: the peer-connection lifecycle manager of SKII-chat

    A shallow embedding of [src/service/peer.js].  The [PeerService] object
    is a record; the browser around it (timer table, clock, the trace of
    calls made on the platform) is a second record; an [async] method is a
    task in a resumption monad that either finishes or suspends on an awaited
    platform operation, so that other handlers can run in between. *)

From stdpp Require Import base gmap strings list.
From Stdlib Require Import ZArith Lia.

Local Open Scope string_scope.
Local Open Scope list_scope.
Local Open Scope Z_scope.

(** ** The WebRTC objects the service talks to *)

Inductive SignalingState :=
| stable | have_local_offer | have_remote_offer
| have_local_pranswer | have_remote_pranswer | signaling_closed.

Inductive IceConnectionState :=
| ice_new | ice_checking | ice_connected | ice_completed
| ice_failed | ice_disconnected | ice_closed.

Inductive ConnectionState :=
| conn_new | conn_connecting | conn_connected
| conn_disconnected | conn_failed | conn_closed.

Inductive TrackKind := audio | video.

(** Session descriptions that install a description ([rollback], which
    removes one, is never built by the service or its caller). *)
Inductive SdpType := sdp_offer | sdp_pranswer | sdp_answer.

Record SessionDescription := { sdp_type : SdpType; sdp : string }.

Definition Candidate := string.

Record IceServer := {
  urls : list string;
  username : string;
  credential : string
}.

Record RTCConfiguration := {
  iceServers : list IceServer;
  iceCandidatePoolSize : Z;
  bundlePolicy : string;
  rtcpMuxPolicy : string
}.

(** The values [lastUsedConfig] takes once it is assigned. *)
Inductive ConfigKind := cfg_turn | cfg_stun.

(** An [RTCPeerConnection].  A handler slot holds [true] while the service's
    closure is installed in it and [false] while it is [null]. *)
Record Peer := {
  peer_id : Z;
  peer_config : RTCConfiguration;
  signalingState : SignalingState;
  iceConnectionState : IceConnectionState;
  connectionState : ConnectionState;
  remoteDescription : option SessionDescription;
  onicecandidate : bool;
  ontrack : bool;
  oniceconnectionstatechange : bool;
  onconnectionstatechange : bool;
  onsignalingstatechange : bool
}.

(** The body of the credential endpoint's answer. *)
Record Credentials := {
  cred_urls : list string;
  cred_username : string;
  cred_credential : string
}.

(** One entry of [_streamTracking]. *)
Record TrackingInfo := {
  hasAudio : bool;
  hasVideo : bool;
  emitted : bool;
  timeoutId : option Z;
  stream : string
}.

(** ** Decidable equality *)

#[global] Instance SignalingState_eq_dec : EqDecision SignalingState.
Proof. solve_decision. Defined.
#[global] Instance IceConnectionState_eq_dec : EqDecision IceConnectionState.
Proof. solve_decision. Defined.
#[global] Instance ConnectionState_eq_dec : EqDecision ConnectionState.
Proof. solve_decision. Defined.
#[global] Instance TrackKind_eq_dec : EqDecision TrackKind.
Proof. solve_decision. Defined.
#[global] Instance SdpType_eq_dec : EqDecision SdpType.
Proof. solve_decision. Defined.
#[global] Instance ConfigKind_eq_dec : EqDecision ConfigKind.
Proof. solve_decision. Defined.

(** ** Events, timers and the trace *)

(** What the service emits to its consumer.  An ["error"] event carries the
    [type] and [message] of its payload and the text of the error object. *)
Inductive Event :=
| ev_error (type message error : string)
| ev_iceConnected
| ev_reconnectCall
| ev_remoteStream (stream : string)
| ev_media_source_switched.

(** The closures handed to [setTimeout], one constructor per call site. *)
Inductive TimerAction :=
| cb_iceTimeout                      (* peer.js:342, after 10000 ms *)
| cb_disconnected                    (* peer.js:357, after 3000 ms *)
| cb_streamReady (streamId : string) (* peer.js:425, after 1000 ms *)
| cb_reconnect                       (* peer.js:528, after the backoff delay *)
| cb_retry.                          (* peer.js:547, after 1000 ms *)

Record Timer := { timer_id : Z; timer_due : Z; timer_action : TimerAction }.

(** Operations whose promise the service awaits. *)
Inductive Awaited :=
| aw_fetch
| aw_json
| aw_createOffer (pid : Z)
| aw_createAnswer (pid : Z)
| aw_setLocalDescription (pid : Z) (d : SessionDescription)
| aw_setRemoteDescription (pid : Z) (d : SessionDescription)
| aw_addIceCandidate (pid : Z) (c : Candidate).

(** How an awaited promise settles. *)
Inductive Outcome :=
| Rejected (e : string)
| Resolved
| Response (ok : bool) (status : string)
| Json (c : Credentials)
| Sdp (d : SessionDescription).

(** Everything the service does to the world around it. *)
Inductive Effect :=
| Emit (e : Event)
| SocketEmit (candidate : Candidate) (to : string) (room : option string)
| SetTimeout (id : Z) (delay : Z) (a : TimerAction)
| ClearTimeout (id : Z)
| NewPeer (id : Z) (cfg : RTCConfiguration)
| ClosePeer (p : Peer)
| RemoveTrack (sender : Z)
| AddTrack (kind : TrackKind) (sender : Z)
| Call (op : Awaited).

#[global] Instance Event_eq_dec : EqDecision Event.
Proof. solve_decision. Defined.
#[global] Instance TimerAction_eq_dec : EqDecision TimerAction.
Proof. solve_decision. Defined.

(** ** The service object and the runtime around it *)

#[local] Set Primitive Projections.

Record PeerService := {
  peer : option Peer;
  roomId : option string;
  socket : bool;
  reconnectAttempts : Z;
  maxReconnectAttempts : Z;
  reconnectDelay : Z;
  isReconnecting : bool;
  isSettingRemoteDescription : bool;
  senders : gmap string Z;
  pendingCandidates : list Candidate;
  _streamTracking : gmap string TrackingInfo;
  remotePeerId : option string;
  lastUsedConfig : option ConfigKind;   (* undefined until first assigned *)
  iceTimeout : option Z                 (* undefined until first assigned *)
}.

Record Runtime := {
  timers : list Timer;       (* pending timers, in registration order *)
  nextTimerId : Z;
  nextPeerId : Z;
  nextSenderId : Z;
  orphans : list Peer;       (* connections overwritten without [close()] *)
  clock : Z;                 (* milliseconds *)
  ctorThrows : bool;         (* does [new RTCPeerConnection] throw? *)
  trace : list (Z * Effect)  (* time-stamped, oldest first *)
}.

Record State := { this : PeerService; rt : Runtime }.

#[local] Unset Primitive Projections.

(** The state the [constructor] builds (peer.js:4-21). *)
Definition constructor : PeerService := {|
  peer := None;
  roomId := None;
  socket := false;
  reconnectAttempts := 0;
  maxReconnectAttempts := 5;
  reconnectDelay := 1000;
  isReconnecting := false;
  isSettingRemoteDescription := false;
  senders := ∅;
  pendingCandidates := [];
  _streamTracking := ∅;
  remotePeerId := None;
  lastUsedConfig := None;
  iceTimeout := None
|}.

Definition boot : Runtime := {|
  timers := [];
  nextTimerId := 1;
  nextPeerId := 1;
  nextSenderId := 1;
  orphans := [];
  clock := 0;
  ctorThrows := false;
  trace := []
|}.

Definition initial : State := {| this := constructor; rt := boot |}.

(** ** Field assignment

    [set_f v p] is [p] after [this.f = v]. *)

Definition set_peer (v : option Peer) (p : PeerService) : PeerService := {|
  peer := v;
  roomId := roomId p;
  socket := socket p;
  reconnectAttempts := reconnectAttempts p;
  maxReconnectAttempts := maxReconnectAttempts p;
  reconnectDelay := reconnectDelay p;
  isReconnecting := isReconnecting p;
  isSettingRemoteDescription := isSettingRemoteDescription p;
  senders := senders p;
  pendingCandidates := pendingCandidates p;
  _streamTracking := _streamTracking p;
  remotePeerId := remotePeerId p;
  lastUsedConfig := lastUsedConfig p;
  iceTimeout := iceTimeout p
|}.

Definition set_roomId (v : option string) (p : PeerService) : PeerService := {|
  peer := peer p;
  roomId := v;
  socket := socket p;
  reconnectAttempts := reconnectAttempts p;
  maxReconnectAttempts := maxReconnectAttempts p;
  reconnectDelay := reconnectDelay p;
  isReconnecting := isReconnecting p;
  isSettingRemoteDescription := isSettingRemoteDescription p;
  senders := senders p;
  pendingCandidates := pendingCandidates p;
  _streamTracking := _streamTracking p;
  remotePeerId := remotePeerId p;
  lastUsedConfig := lastUsedConfig p;
  iceTimeout := iceTimeout p
|}.

Definition set_socket (v : bool) (p : PeerService) : PeerService := {|
  peer := peer p;
  roomId := roomId p;
  socket := v;
  reconnectAttempts := reconnectAttempts p;
  maxReconnectAttempts := maxReconnectAttempts p;
  reconnectDelay := reconnectDelay p;
  isReconnecting := isReconnecting p;
  isSettingRemoteDescription := isSettingRemoteDescription p;
  senders := senders p;
  pendingCandidates := pendingCandidates p;
  _streamTracking := _streamTracking p;
  remotePeerId := remotePeerId p;
  lastUsedConfig := lastUsedConfig p;
  iceTimeout := iceTimeout p
|}.

Definition set_reconnectAttempts (v : Z) (p : PeerService) : PeerService := {|
  peer := peer p;
  roomId := roomId p;
  socket := socket p;
  reconnectAttempts := v;
  maxReconnectAttempts := maxReconnectAttempts p;
  reconnectDelay := reconnectDelay p;
  isReconnecting := isReconnecting p;
  isSettingRemoteDescription := isSettingRemoteDescription p;
  senders := senders p;
  pendingCandidates := pendingCandidates p;
  _streamTracking := _streamTracking p;
  remotePeerId := remotePeerId p;
  lastUsedConfig := lastUsedConfig p;
  iceTimeout := iceTimeout p
|}.

Definition set_isReconnecting (v : bool) (p : PeerService) : PeerService := {|
  peer := peer p;
  roomId := roomId p;
  socket := socket p;
  reconnectAttempts := reconnectAttempts p;
  maxReconnectAttempts := maxReconnectAttempts p;
  reconnectDelay := reconnectDelay p;
  isReconnecting := v;
  isSettingRemoteDescription := isSettingRemoteDescription p;
  senders := senders p;
  pendingCandidates := pendingCandidates p;
  _streamTracking := _streamTracking p;
  remotePeerId := remotePeerId p;
  lastUsedConfig := lastUsedConfig p;
  iceTimeout := iceTimeout p
|}.

Definition set_isSettingRemoteDescription (v : bool) (p : PeerService) : PeerService := {|
  peer := peer p;
  roomId := roomId p;
  socket := socket p;
  reconnectAttempts := reconnectAttempts p;
  maxReconnectAttempts := maxReconnectAttempts p;
  reconnectDelay := reconnectDelay p;
  isReconnecting := isReconnecting p;
  isSettingRemoteDescription := v;
  senders := senders p;
  pendingCandidates := pendingCandidates p;
  _streamTracking := _streamTracking p;
  remotePeerId := remotePeerId p;
  lastUsedConfig := lastUsedConfig p;
  iceTimeout := iceTimeout p
|}.

Definition set_senders (v : gmap string Z) (p : PeerService) : PeerService := {|
  peer := peer p;
  roomId := roomId p;
  socket := socket p;
  reconnectAttempts := reconnectAttempts p;
  maxReconnectAttempts := maxReconnectAttempts p;
  reconnectDelay := reconnectDelay p;
  isReconnecting := isReconnecting p;
  isSettingRemoteDescription := isSettingRemoteDescription p;
  senders := v;
  pendingCandidates := pendingCandidates p;
  _streamTracking := _streamTracking p;
  remotePeerId := remotePeerId p;
  lastUsedConfig := lastUsedConfig p;
  iceTimeout := iceTimeout p
|}.

Definition set_pendingCandidates (v : list Candidate) (p : PeerService) : PeerService := {|
  peer := peer p;
  roomId := roomId p;
  socket := socket p;
  reconnectAttempts := reconnectAttempts p;
  maxReconnectAttempts := maxReconnectAttempts p;
  reconnectDelay := reconnectDelay p;
  isReconnecting := isReconnecting p;
  isSettingRemoteDescription := isSettingRemoteDescription p;
  senders := senders p;
  pendingCandidates := v;
  _streamTracking := _streamTracking p;
  remotePeerId := remotePeerId p;
  lastUsedConfig := lastUsedConfig p;
  iceTimeout := iceTimeout p
|}.

Definition set_streamTracking (v : gmap string TrackingInfo) (p : PeerService) : PeerService := {|
  peer := peer p;
  roomId := roomId p;
  socket := socket p;
  reconnectAttempts := reconnectAttempts p;
  maxReconnectAttempts := maxReconnectAttempts p;
  reconnectDelay := reconnectDelay p;
  isReconnecting := isReconnecting p;
  isSettingRemoteDescription := isSettingRemoteDescription p;
  senders := senders p;
  pendingCandidates := pendingCandidates p;
  _streamTracking := v;
  remotePeerId := remotePeerId p;
  lastUsedConfig := lastUsedConfig p;
  iceTimeout := iceTimeout p
|}.

Definition set_remotePeerId (v : option string) (p : PeerService) : PeerService := {|
  peer := peer p;
  roomId := roomId p;
  socket := socket p;
  reconnectAttempts := reconnectAttempts p;
  maxReconnectAttempts := maxReconnectAttempts p;
  reconnectDelay := reconnectDelay p;
  isReconnecting := isReconnecting p;
  isSettingRemoteDescription := isSettingRemoteDescription p;
  senders := senders p;
  pendingCandidates := pendingCandidates p;
  _streamTracking := _streamTracking p;
  remotePeerId := v;
  lastUsedConfig := lastUsedConfig p;
  iceTimeout := iceTimeout p
|}.

Definition set_lastUsedConfig (v : option ConfigKind) (p : PeerService) : PeerService := {|
  peer := peer p;
  roomId := roomId p;
  socket := socket p;
  reconnectAttempts := reconnectAttempts p;
  maxReconnectAttempts := maxReconnectAttempts p;
  reconnectDelay := reconnectDelay p;
  isReconnecting := isReconnecting p;
  isSettingRemoteDescription := isSettingRemoteDescription p;
  senders := senders p;
  pendingCandidates := pendingCandidates p;
  _streamTracking := _streamTracking p;
  remotePeerId := remotePeerId p;
  lastUsedConfig := v;
  iceTimeout := iceTimeout p
|}.

Definition set_iceTimeout (v : option Z) (p : PeerService) : PeerService := {|
  peer := peer p;
  roomId := roomId p;
  socket := socket p;
  reconnectAttempts := reconnectAttempts p;
  maxReconnectAttempts := maxReconnectAttempts p;
  reconnectDelay := reconnectDelay p;
  isReconnecting := isReconnecting p;
  isSettingRemoteDescription := isSettingRemoteDescription p;
  senders := senders p;
  pendingCandidates := pendingCandidates p;
  _streamTracking := _streamTracking p;
  remotePeerId := remotePeerId p;
  lastUsedConfig := lastUsedConfig p;
  iceTimeout := v
|}.

Definition set_timers (v : list Timer) (r : Runtime) : Runtime := {|
  timers := v;
  nextTimerId := nextTimerId r;
  nextPeerId := nextPeerId r;
  nextSenderId := nextSenderId r;
  orphans := orphans r;
  clock := clock r;
  ctorThrows := ctorThrows r;
  trace := trace r
|}.

Definition set_nextTimerId (v : Z) (r : Runtime) : Runtime := {|
  timers := timers r;
  nextTimerId := v;
  nextPeerId := nextPeerId r;
  nextSenderId := nextSenderId r;
  orphans := orphans r;
  clock := clock r;
  ctorThrows := ctorThrows r;
  trace := trace r
|}.

Definition set_nextPeerId (v : Z) (r : Runtime) : Runtime := {|
  timers := timers r;
  nextTimerId := nextTimerId r;
  nextPeerId := v;
  nextSenderId := nextSenderId r;
  orphans := orphans r;
  clock := clock r;
  ctorThrows := ctorThrows r;
  trace := trace r
|}.

Definition set_nextSenderId (v : Z) (r : Runtime) : Runtime := {|
  timers := timers r;
  nextTimerId := nextTimerId r;
  nextPeerId := nextPeerId r;
  nextSenderId := v;
  orphans := orphans r;
  clock := clock r;
  ctorThrows := ctorThrows r;
  trace := trace r
|}.

Definition set_orphans (v : list Peer) (r : Runtime) : Runtime := {|
  timers := timers r;
  nextTimerId := nextTimerId r;
  nextPeerId := nextPeerId r;
  nextSenderId := nextSenderId r;
  orphans := v;
  clock := clock r;
  ctorThrows := ctorThrows r;
  trace := trace r
|}.

Definition set_clock (v : Z) (r : Runtime) : Runtime := {|
  timers := timers r;
  nextTimerId := nextTimerId r;
  nextPeerId := nextPeerId r;
  nextSenderId := nextSenderId r;
  orphans := orphans r;
  clock := v;
  ctorThrows := ctorThrows r;
  trace := trace r
|}.

Definition set_ctorThrows (v : bool) (r : Runtime) : Runtime := {|
  timers := timers r;
  nextTimerId := nextTimerId r;
  nextPeerId := nextPeerId r;
  nextSenderId := nextSenderId r;
  orphans := orphans r;
  clock := clock r;
  ctorThrows := v;
  trace := trace r
|}.

Definition set_trace (v : list (Z * Effect)) (r : Runtime) : Runtime := {|
  timers := timers r;
  nextTimerId := nextTimerId r;
  nextPeerId := nextPeerId r;
  nextSenderId := nextSenderId r;
  orphans := orphans r;
  clock := clock r;
  ctorThrows := ctorThrows r;
  trace := v
|}.

Definition set_signalingState (v : SignalingState) (q : Peer) : Peer := {|
  peer_id := peer_id q;
  peer_config := peer_config q;
  signalingState := v;
  iceConnectionState := iceConnectionState q;
  connectionState := connectionState q;
  remoteDescription := remoteDescription q;
  onicecandidate := onicecandidate q;
  ontrack := ontrack q;
  oniceconnectionstatechange := oniceconnectionstatechange q;
  onconnectionstatechange := onconnectionstatechange q;
  onsignalingstatechange := onsignalingstatechange q
|}.

Definition set_iceConnectionState (v : IceConnectionState) (q : Peer) : Peer := {|
  peer_id := peer_id q;
  peer_config := peer_config q;
  signalingState := signalingState q;
  iceConnectionState := v;
  connectionState := connectionState q;
  remoteDescription := remoteDescription q;
  onicecandidate := onicecandidate q;
  ontrack := ontrack q;
  oniceconnectionstatechange := oniceconnectionstatechange q;
  onconnectionstatechange := onconnectionstatechange q;
  onsignalingstatechange := onsignalingstatechange q
|}.

Definition set_connectionState (v : ConnectionState) (q : Peer) : Peer := {|
  peer_id := peer_id q;
  peer_config := peer_config q;
  signalingState := signalingState q;
  iceConnectionState := iceConnectionState q;
  connectionState := v;
  remoteDescription := remoteDescription q;
  onicecandidate := onicecandidate q;
  ontrack := ontrack q;
  oniceconnectionstatechange := oniceconnectionstatechange q;
  onconnectionstatechange := onconnectionstatechange q;
  onsignalingstatechange := onsignalingstatechange q
|}.

Definition set_remoteDescription (v : option SessionDescription) (q : Peer) : Peer := {|
  peer_id := peer_id q;
  peer_config := peer_config q;
  signalingState := signalingState q;
  iceConnectionState := iceConnectionState q;
  connectionState := connectionState q;
  remoteDescription := v;
  onicecandidate := onicecandidate q;
  ontrack := ontrack q;
  oniceconnectionstatechange := oniceconnectionstatechange q;
  onconnectionstatechange := onconnectionstatechange q;
  onsignalingstatechange := onsignalingstatechange q
|}.

Definition set_onicecandidate (v : bool) (q : Peer) : Peer := {|
  peer_id := peer_id q;
  peer_config := peer_config q;
  signalingState := signalingState q;
  iceConnectionState := iceConnectionState q;
  connectionState := connectionState q;
  remoteDescription := remoteDescription q;
  onicecandidate := v;
  ontrack := ontrack q;
  oniceconnectionstatechange := oniceconnectionstatechange q;
  onconnectionstatechange := onconnectionstatechange q;
  onsignalingstatechange := onsignalingstatechange q
|}.

Definition set_ontrack (v : bool) (q : Peer) : Peer := {|
  peer_id := peer_id q;
  peer_config := peer_config q;
  signalingState := signalingState q;
  iceConnectionState := iceConnectionState q;
  connectionState := connectionState q;
  remoteDescription := remoteDescription q;
  onicecandidate := onicecandidate q;
  ontrack := v;
  oniceconnectionstatechange := oniceconnectionstatechange q;
  onconnectionstatechange := onconnectionstatechange q;
  onsignalingstatechange := onsignalingstatechange q
|}.

Definition set_oniceconnectionstatechange (v : bool) (q : Peer) : Peer := {|
  peer_id := peer_id q;
  peer_config := peer_config q;
  signalingState := signalingState q;
  iceConnectionState := iceConnectionState q;
  connectionState := connectionState q;
  remoteDescription := remoteDescription q;
  onicecandidate := onicecandidate q;
  ontrack := ontrack q;
  oniceconnectionstatechange := v;
  onconnectionstatechange := onconnectionstatechange q;
  onsignalingstatechange := onsignalingstatechange q
|}.

Definition set_onconnectionstatechange (v : bool) (q : Peer) : Peer := {|
  peer_id := peer_id q;
  peer_config := peer_config q;
  signalingState := signalingState q;
  iceConnectionState := iceConnectionState q;
  connectionState := connectionState q;
  remoteDescription := remoteDescription q;
  onicecandidate := onicecandidate q;
  ontrack := ontrack q;
  oniceconnectionstatechange := oniceconnectionstatechange q;
  onconnectionstatechange := v;
  onsignalingstatechange := onsignalingstatechange q
|}.

Definition set_onsignalingstatechange (v : bool) (q : Peer) : Peer := {|
  peer_id := peer_id q;
  peer_config := peer_config q;
  signalingState := signalingState q;
  iceConnectionState := iceConnectionState q;
  connectionState := connectionState q;
  remoteDescription := remoteDescription q;
  onicecandidate := onicecandidate q;
  ontrack := ontrack q;
  oniceconnectionstatechange := oniceconnectionstatechange q;
  onconnectionstatechange := onconnectionstatechange q;
  onsignalingstatechange := v
|}.

(** ** Asynchronous tasks

    A call of a method runs until it returns, throws, or reaches an [await]
    on a platform promise.  There it suspends: the state built so far is
    published, and the rest of the method is a continuation that is resumed
    later with the promise's outcome and with whatever the state has become
    in the meantime.  An [await] on a value that is already available (the
    result of a synchronous call such as [cleanup]) only gives way to
    microtasks and is not a suspension point.  [Diverged] is a loop that ran
    out of fuel. *)

Inductive Completion (A : Type) :=
| Returned (a : A)
| Thrown (e : string).
Arguments Returned {A} a.
Arguments Thrown {A} e.

Inductive Res (A : Type) :=
| Done (r : Completion A) (s : State)
| Suspend (s : State) (op : Awaited) (k : Outcome → State → Res A)
| Diverged.
Arguments Done {A} r s.
Arguments Suspend {A} s op k.
Arguments Diverged {A}.

Definition Task (A : Type) : Type := State → Res A.

Fixpoint res_bind {A B} (r : Res A) (f : A → Task B) : Res B :=
  match r with
  | Done (Returned a) s => f a s
  | Done (Thrown e) s => Done (Thrown e) s
  | Suspend s op k => Suspend s op (λ o s', res_bind (k o s') f)
  | Diverged => Diverged
  end.

Fixpoint res_catch {A} (r : Res A) (handler : string → Task A) : Res A :=
  match r with
  | Done (Returned a) s => Done (Returned a) s
  | Done (Thrown e) s => handler e s
  | Suspend s op k => Suspend s op (λ o s', res_catch (k o s') handler)
  | Diverged => Diverged
  end.

(** [try { ... } finally { fin }] with a [fin] block that assigns fields. *)
Fixpoint res_finally {A} (r : Res A) (fin : State → State) : Res A :=
  match r with
  | Done c s => Done c (fin s)
  | Suspend s op k => Suspend s op (λ o s', res_finally (k o s') fin)
  | Diverged => Diverged
  end.

Definition ret {A} (a : A) : Task A := λ s, Done (Returned a) s.
Definition throw {A} (e : string) : Task A := λ s, Done (Thrown e) s.
Definition bind {A B} (m : Task A) (f : A → Task B) : Task B :=
  λ s, res_bind (m s) f.
Definition try_catch {A} (m : Task A) (handler : string → Task A) : Task A :=
  λ s, res_catch (m s) handler.
Definition try_finally {A} (m : Task A) (fin : State → State) : Task A :=
  λ s, res_finally (m s) fin.
Definition diverge {A} : Task A := λ _, Diverged.

Notation "'let*' x ':=' m 'in' k" := (bind m (λ x, k))
  (at level 10, x name, m at level 100, k at level 200).
Notation "m '>>' k" := (bind m (λ _, k))
  (at level 100, k at level 200, right associativity).

Definition get : Task State := λ s, Done (Returned s) s.
Definition gets {A} (f : PeerService → A) : Task A :=
  λ s, Done (Returned (f (this s))) s.
Definition modify (f : State → State) : Task unit :=
  λ s, Done (Returned tt) (f s).

(** Assignment to fields of [this]. *)
Definition upd (f : PeerService → PeerService) (s : State) : State :=
  {| this := f (this s); rt := rt s |}.
Definition upd_rt (f : Runtime → Runtime) (s : State) : State :=
  {| this := this s; rt := f (rt s) |}.
Definition assign (f : PeerService → PeerService) : Task unit := modify (upd f).

(** ** Runtime primitives *)

Definition record (e : Effect) (s : State) : State :=
  upd_rt (λ r, set_trace (trace r ++ [(clock r, e)]) r) s.

Definition emit (e : Event) : Task unit := modify (record (Emit e)).

Definition setTimeout_st (a : TimerAction) (delay : Z) (s : State) : State :=
  let id := nextTimerId (rt s) in
  let t := {| timer_id := id; timer_due := clock (rt s) + delay;
              timer_action := a |} in
  record (SetTimeout id delay a)
    (upd_rt (λ r, set_nextTimerId (id + 1) (set_timers (timers r ++ [t]) r)) s).

Definition setTimeout (a : TimerAction) (delay : Z) : Task Z :=
  λ s, Done (Returned (nextTimerId (rt s))) (setTimeout_st a delay s).

Definition drop_timer (id : Z) (ts : list Timer) : list Timer :=
  filter (λ t, timer_id t ≠ id) ts.

Definition clearTimeout_st (id : Z) (s : State) : State :=
  record (ClearTimeout id) (upd_rt (λ r, set_timers (drop_timer id (timers r)) r) s).

Definition clearTimeout (id : Z) : Task unit := modify (clearTimeout_st id).

(** JavaScript truthiness of a string-or-null and of a timer handle. *)
Definition truthy_string (v : option string) : bool :=
  match v with
  | Some x => negb (String.eqb x "")
  | None => false
  end.

Definition truthy_handle (v : option Z) : bool :=
  match v with
  | Some n => negb (n =? 0)
  | None => false
  end.

(** What the platform has done to the connection object by the time the
    promise of [op] settles with [o].  A description that is set becomes the
    connection's [remoteDescription] and moves its signaling state; the
    object concerned is the one the call was made on, which need no longer be
    [this.peer]. *)
Definition signaling_after_remote (t : SdpType) : SignalingState :=
  match t with
  | sdp_offer => have_remote_offer
  | sdp_pranswer => have_remote_pranswer
  | sdp_answer => stable
  end.

Definition signaling_after_local (t : SdpType) : SignalingState :=
  match t with
  | sdp_offer => have_local_offer
  | sdp_pranswer => have_local_pranswer
  | sdp_answer => stable
  end.

Definition update_peer (pid : Z) (f : Peer → Peer) (q : Peer) : Peer :=
  if peer_id q =? pid then f q else q.

Definition on_peer (pid : Z) (f : Peer → Peer) (s : State) : State :=
  upd (λ p, set_peer (update_peer pid f <$> peer p) p) s.

Definition resolved (o : Outcome) : bool :=
  match o with Resolved => true | _ => false end.

Definition settle (op : Awaited) (o : Outcome) (s : State) : State :=
  match op with
  | aw_setRemoteDescription pid d =>
      on_peer pid
        (λ q, if resolved o
              then set_signalingState (signaling_after_remote (sdp_type d))
                     (set_remoteDescription (Some d) q)
              else q) s
  | aw_setLocalDescription pid d =>
      on_peer pid
        (λ q, if resolved o
              then set_signalingState (signaling_after_local (sdp_type d)) q
              else q) s
  | _ => s
  end.

(** [await op]: note the call, suspend, and on resumption either continue
    with the value or throw the rejection. *)
Definition rejection (o : Outcome) : option string :=
  match o with Rejected e => Some e | _ => None end.

Definition await (op : Awaited) : Task Outcome :=
  λ s, Suspend (record (Call op) s) op
         (λ o s', match rejection o with
                  | Some e => Done (Thrown e) (settle op o s')
                  | None => Done (Returned o) (settle op o s')
                  end).

(** ** The methods of [PeerService], in the order of the source *)

Definition push_candidate (c : Candidate) (p : PeerService) : PeerService :=
  set_pendingCandidates (pendingCandidates p ++ [c]) p.

(** [addIceCandidate] (peer.js:42-59).  A description's [type] is never an
    empty string, so the test is on [remoteDescription] alone. *)
Definition addIceCandidate (candidate : Candidate) : Task unit :=
  try_catch
    (let* s := get in
     match peer (this s) with
     | Some q =>
         match remoteDescription q with
         | Some _ => await (aw_addIceCandidate (peer_id q) candidate) >> ret tt
         | None => assign (push_candidate candidate)
         end
     | None => assign (push_candidate candidate)
     end)
    (λ error,
       emit (ev_error "ice-candidate" "Error adding ICE candidate" error)).

(** The handler registered by [setupSocketEvents] (peer.js:33-38). *)
Definition on_socket_ice_candidate
    (candidate : option Candidate) (room : option string) : Task unit :=
  let* s := get in
  match candidate, peer (this s) with
  | Some c, Some _ =>
      if bool_decide (room = roomId (this s)) then addIceCandidate c else ret tt
  | _, _ => ret tt
  end.

Definition setSocket (s : State) : State := upd (set_socket true) s.

(** [processPendingCandidates] (peer.js:154-165): the [while] loop, with one
    unit of fuel per iteration. *)
Fixpoint processPendingCandidates (fuel : nat) (s : State) {struct fuel} : Res unit :=
  match pendingCandidates (this s) with
  | [] => Done (Returned tt) s
  | candidate :: rest =>
      match fuel with
      | O => Diverged
      | S fuel' =>
          (assign (set_pendingCandidates rest) >>
           addIceCandidate candidate >>
           processPendingCandidates fuel') s
      end
  end.

(** [cleanup] (peer.js:588-615).  Synchronous. *)
Definition clear_tracking_timer (s : State) (info : TrackingInfo) : State :=
  match timeoutId info with
  | Some id => if truthy_handle (Some id) then clearTimeout_st id s else s
  | None => s
  end.

Definition detach (q : Peer) : Peer :=
  set_onsignalingstatechange false
    (set_onconnectionstatechange false
       (set_oniceconnectionstatechange false
          (set_onicecandidate false
             (set_ontrack false q)))).

Definition close_peer (s : State) : State :=
  match peer (this s) with
  | Some q =>
      let s := upd (set_peer (Some (detach q))) s in
      let s := upd (set_remotePeerId None) s in
      let s := record (ClosePeer (detach q)) s in
      upd (set_peer None) s
  | None => s
  end.

Definition cleanup (s : State) : State :=
  let s := foldl clear_tracking_timer s
             (map_to_list (_streamTracking (this s))).*2 in
  let s := upd (set_streamTracking ∅) s in
  let s := close_peer s in
  let s := upd (set_senders ∅) s in
  let s := upd (set_pendingCandidates []) s in
  let s := upd (set_roomId None) s in
  let s := upd (set_isReconnecting false) s in
  let s := upd (set_isSettingRemoteDescription false) s in
  upd (set_reconnectAttempts 0) s.

(** [createPeerConnection] and [setupPeerEvents] (peer.js:283-298, 305-384). *)
Definition fresh_peer (id : Z) (config : RTCConfiguration) : Peer := {|
  peer_id := id;
  peer_config := config;
  signalingState := stable;
  iceConnectionState := ice_new;
  connectionState := conn_new;
  remoteDescription := None;
  onicecandidate := false;
  ontrack := false;
  oniceconnectionstatechange := false;
  onconnectionstatechange := false;
  onsignalingstatechange := false
|}.

Definition attach (q : Peer) : Peer :=
  set_onsignalingstatechange true
    (set_onconnectionstatechange true
       (set_oniceconnectionstatechange true
          (set_ontrack true
             (set_onicecandidate true q)))).

Definition setupPeerEvents (s : State) : State :=
  upd (λ p, set_peer (attach <$> peer p) p) s.

Definition construct_peer (config : RTCConfiguration) (s : State) : State :=
  let id := nextPeerId (rt s) in
  let old := option_list (peer (this s)) in
  let s := upd_rt (λ r, set_nextPeerId (id + 1) (set_orphans (orphans r ++ old) r)) s in
  let s := record (NewPeer id config) s in
  upd (set_peer (Some (fresh_peer id config))) s.

Definition createPeerConnection (config : RTCConfiguration) : Task unit :=
  match iceServers config with
  | [] => throw "Invalid configuration: iceServers array is required"
  | _ :: _ =>
      let* s := get in
      if ctorThrows (rt s)
      then throw "Failed to construct RTCPeerConnection"
      else modify (construct_peer config) >> modify setupPeerEvents
  end.

Definition setRemotePeer (peerId : option string) (s : State) : State :=
  upd (set_remotePeerId peerId) s.

(** [initializeWithStun] (peer.js:194-229). *)
Definition stun_config : RTCConfiguration := {|
  iceServers :=
    [ {| urls := [ "stun:stun1.l.google.com:19302";
                   "stun:stun2.l.google.com:19302";
                   "stun:stun3.l.google.com:19302";
                   "stun:stun4.l.google.com:19302";
                   "stun:stun.cloudflare.com:3478" ];
         username := ""; credential := "" |};
      {| urls := [ "turn:openrelay.metered.ca:80" ];
         username := "openrelayproject"; credential := "openrelayproject" |};
      {| urls := [ "turn:openrelay.metered.ca:443" ];
         username := "openrelayproject"; credential := "openrelayproject" |} ];
  iceCandidatePoolSize := 10;
  bundlePolicy := "max-bundle";
  rtcpMuxPolicy := "require"
|}.

Definition initializeWithStun : Task unit :=
  try_catch (createPeerConnection stun_config) (λ error, throw error).

(** [initializeWithTurn] (peer.js:231-281). *)
Definition turn_config (c : Credentials) : RTCConfiguration := {|
  iceServers :=
    [ {| urls := cred_urls c;
         username := cred_username c;
         credential := cred_credential c |} ];
  iceCandidatePoolSize := 10;
  bundlePolicy := "max-bundle";
  rtcpMuxPolicy := "require"
|}.

Definition valid_credentials (c : Credentials) : bool :=
  negb (bool_decide (cred_urls c = []))
  && negb (String.eqb (cred_username c) "")
  && negb (String.eqb (cred_credential c) "").

Definition initializeWithTurn : Task unit :=
  try_catch
    (let* response := await aw_fetch in
     match response with
     | Response ok status =>
         if negb ok
         then throw (String.append "Failed to fetch TURN credentials: " status)
         else
           let* credentials := await aw_json in
           match credentials with
           | Json c =>
               if valid_credentials c
               then createPeerConnection (turn_config c)
               else throw "Invalid TURN credentials format"
           | _ => throw "TypeError"
           end
     | _ => throw "TypeError"
     end)
    (λ error,
       emit (ev_error "turn" "Failed to initialize TURN connection" error) >>
       throw error).

(** [initializeConnection] and [initializePeer] (peer.js:168-192). *)
Definition initializeConnection : Task unit :=
  try_catch initializeWithStun
    (λ error, try_catch initializeWithTurn (λ stunError, throw stunError)).

Definition initializePeer (room : string) : Task unit :=
  modify cleanup >>
  assign (set_roomId (Some room)) >>
  assign (set_reconnectAttempts 0) >>
  assign (set_isReconnecting false) >>
  initializeConnection.

(** [handleConnectionFailure] (peer.js:482-550). *)
Definition when (b : bool) (m : Task unit) : Task unit :=
  if b then m else ret tt.

Definition increment_attempts (p : PeerService) : PeerService :=
  set_reconnectAttempts (reconnectAttempts p + 1) p.

Definition emit_reconnectCall : Task unit :=
  let* p := gets id in
  when (truthy_string (remotePeerId p) && truthy_string (roomId p))
       (emit ev_reconnectCall).

(** The first block (peer.js:487-512).  The result is [true] when the method
    returns from inside the block and [false] when control falls through to
    the backoff part. *)
Definition turn_fallback : Task bool :=
  let* p := gets id in
  if (reconnectAttempts p =? 0)
     && negb (bool_decide (lastUsedConfig p = Some cfg_turn))
  then
    assign (set_isReconnecting true) >>
    assign increment_attempts >>
    try_catch
      (let* currentRemotePeer := gets remotePeerId in
       let* currentRoom := gets roomId in
       modify cleanup >>
       initializeWithTurn >>
       assign (set_lastUsedConfig (Some cfg_turn)) >>
       assign (set_remotePeerId currentRemotePeer) >>
       assign (set_roomId currentRoom) >>
       emit_reconnectCall >>
       assign (set_isReconnecting false) >>
       ret true)
      (λ error, assign (set_isReconnecting false) >> ret false)
  else ret false.

Definition backoff_delay (attempts : Z) : Z :=
  Z.min (1000 * 2 ^ (attempts - 1)) 10000.

Definition reconnect_error : Event :=
  ev_error "reconnect" "Connection failed. Please refresh and try again." "".

Definition handleConnectionFailure : Task unit :=
  let* p := gets id in
  if isReconnecting p then ret tt
  else
    let* returned := turn_fallback in
    if returned : bool then ret tt
    else
      let* p := gets id in
      if reconnectAttempts p >=? maxReconnectAttempts p
      then emit reconnect_error
      else
        assign (set_isReconnecting true) >>
        assign increment_attempts >>
        let* p := gets id in
        let delay := backoff_delay (reconnectAttempts p) in
        setTimeout cb_reconnect delay >>
        ret tt.

(** The closure scheduled at peer.js:528. *)
Definition reconnect_callback : Task unit :=
  try_catch
    (modify cleanup >>
     let* p := gets id in
     (if Z.rem (reconnectAttempts p) 2 =? 0
      then initializeWithTurn >> assign (set_lastUsedConfig (Some cfg_turn))
      else initializeWithStun >> assign (set_lastUsedConfig (Some cfg_stun))) >>
     emit_reconnectCall >>
     assign (set_isReconnecting false))
    (λ error,
       assign (set_isReconnecting false) >>
       setTimeout cb_retry 1000 >>
       ret tt).

(** [createOffer] and [createAnswer] (peer.js:62-113).  [this.peer] is read
    again after each [await]; reading a method of [null] throws. *)
Definition current_peer_id : Task Z :=
  let* p := gets id in
  match peer p with
  | Some q => ret (peer_id q)
  | None => throw "TypeError: this.peer is null"
  end.

Definition expect_sdp (o : Outcome) : Task SessionDescription :=
  match o with
  | Sdp d => ret d
  | _ => throw "TypeError"
  end.

Definition createOffer : Task SessionDescription :=
  let* p := gets id in
  match peer p with
  | None => throw "No peer connection available"
  | Some q =>
      try_catch
        (let* o := await (aw_createOffer (peer_id q)) in
         let* offer := expect_sdp o in
         let* pid := current_peer_id in
         await (aw_setLocalDescription pid offer) >>
         ret offer)
        (λ error,
           emit (ev_error "offer" "Error creating offer" error) >>
           handleConnectionFailure >>
           throw error)
  end.

Definition createAnswer (offer : SessionDescription) : Task SessionDescription :=
  let* p := gets id in
  match peer p with
  | None => throw "No peer connection available"
  | Some q =>
      try_catch
        (await (aw_setRemoteDescription (peer_id q) offer) >>
         let* pid := current_peer_id in
         let* o := await (aw_createAnswer pid) in
         let* answer := expect_sdp o in
         let* pid := current_peer_id in
         await (aw_setLocalDescription pid answer) >>
         ret answer)
        (λ error,
           emit (ev_error "answer" "Error creating answer" error) >>
           handleConnectionFailure >>
           throw error)
  end.

(** [setRemoteDescription] (peer.js:115-152). *)
Definition signaling_name (st : SignalingState) : string :=
  match st with
  | stable => "stable"
  | have_local_offer => "have-local-offer"
  | have_remote_offer => "have-remote-offer"
  | have_local_pranswer => "have-local-pranswer"
  | have_remote_pranswer => "have-remote-pranswer"
  | signaling_closed => "closed"
  end.

Definition invalid_state_message (st : SignalingState) : string :=
  String.append "Invalid signaling state for remote description: "
                (signaling_name st).

Definition remote_description_error (error : string) : Event :=
  ev_error "remote-description" "Connection failed. Please try again." error.

Definition setRemoteDescription (fuel : nat) (answer : SessionDescription) : Task unit :=
  let* p := gets id in
  match peer p with
  | None => ret tt
  | Some q =>
      if isSettingRemoteDescription p then ret tt
      else
        try_finally
          (try_catch
             (assign (set_isSettingRemoteDescription true) >>
              let currentState := signalingState q in
              if bool_decide (currentState ∈ [stable; have_local_offer])
              then
                await (aw_setRemoteDescription (peer_id q) answer) >>
                processPendingCandidates fuel
              else throw (invalid_state_message currentState))
             (λ error,
                emit (remote_description_error error) >>
                handleConnectionFailure))
          (upd (set_isSettingRemoteDescription false))
  end.

(** [handleIncomingTrack] (peer.js:387-434).  A stream object is identified
    with its [id]. *)
Record TrackEvent := { event_stream : option string; event_kind : TrackKind }.

Definition set_hasAudio (v : bool) (i : TrackingInfo) : TrackingInfo :=
  {| hasAudio := v; hasVideo := hasVideo i; emitted := emitted i;
     timeoutId := timeoutId i; stream := stream i |}.
Definition set_hasVideo (v : bool) (i : TrackingInfo) : TrackingInfo :=
  {| hasAudio := hasAudio i; hasVideo := v; emitted := emitted i;
     timeoutId := timeoutId i; stream := stream i |}.
Definition set_emitted (v : bool) (i : TrackingInfo) : TrackingInfo :=
  {| hasAudio := hasAudio i; hasVideo := hasVideo i; emitted := v;
     timeoutId := timeoutId i; stream := stream i |}.
Definition set_timeoutId (v : option Z) (i : TrackingInfo) : TrackingInfo :=
  {| hasAudio := hasAudio i; hasVideo := hasVideo i; emitted := emitted i;
     timeoutId := v; stream := stream i |}.

Definition new_tracking (streamId : string) : TrackingInfo :=
  {| hasAudio := false; hasVideo := false; emitted := false;
     timeoutId := None; stream := streamId |}.

Definition handleIncomingTrack (event : TrackEvent) (s : State) : State :=
  match event_stream event with
  | None => s
  | Some streamId =>
      let trackingInfo :=
        default (new_tracking streamId) (_streamTracking (this s) !! streamId) in
      let trackingInfo :=
        match event_kind event with
        | audio => set_hasAudio true trackingInfo
        | video => set_hasVideo true trackingInfo
        end in
      let s := clear_tracking_timer s trackingInfo in
      let id := nextTimerId (rt s) in
      let s := setTimeout_st (cb_streamReady streamId) 1000 s in
      upd (λ p, set_streamTracking
                  (<[streamId := set_timeoutId (Some id) trackingInfo]>
                     (_streamTracking p)) p) s
  end.

(** The closure scheduled at peer.js:425.  It holds the tracking record of
    its stream; while its timer is pending that record is the map's entry
    for the stream. *)
Definition stream_ready (streamId : string) (s : State) : State :=
  match _streamTracking (this s) !! streamId with
  | Some trackingInfo =>
      if emitted trackingInfo then s
      else
        let s := upd (λ p, set_streamTracking
                             (<[streamId := set_emitted true trackingInfo]>
                                (_streamTracking p)) p) s in
        record (Emit (ev_remoteStream (stream trackingInfo))) s
  | None => s
  end.

(** The handlers installed by [setupPeerEvents] (peer.js:309-383). *)
Definition handle_icecandidate (candidate : option Candidate) (s : State) : State :=
  match candidate, socket (this s), remotePeerId (this s) with
  | Some c, true, Some to =>
      if truthy_string (Some to)
      then record (SocketEmit c to (roomId (this s))) s
      else s
  | _, _, _ => s
  end.

Definition clear_iceTimeout : Task unit :=
  let* p := gets id in
  match iceTimeout p with
  | Some t => when (truthy_handle (Some t)) (clearTimeout t)
  | None => ret tt
  end.

Definition handle_iceconnectionstatechange : Task unit :=
  let* p := gets id in
  match iceConnectionState <$> peer p with
  | Some ice_connected | Some ice_completed =>
      assign (set_reconnectAttempts 0) >>
      assign (set_isReconnecting false) >>
      emit ev_iceConnected
  | Some ice_checking =>
      clear_iceTimeout >>
      let* t := setTimeout cb_iceTimeout 10000 in
      assign (set_iceTimeout (Some t))
  | Some ice_failed =>
      clear_iceTimeout >>
      handleConnectionFailure
  | Some ice_disconnected =>
      clear_iceTimeout >>
      setTimeout cb_disconnected 3000 >>
      ret tt
  | _ => ret tt
  end.

Definition handle_connectionstatechange : Task unit :=
  let* p := gets id in
  match connectionState <$> peer p with
  | Some conn_failed | Some conn_disconnected => handleConnectionFailure
  | _ => ret tt
  end.

(** What a timer runs when it fires. *)
Definition run_callback (a : TimerAction) : Task unit :=
  match a with
  | cb_iceTimeout =>
      let* p := gets id in
      when (bool_decide (iceConnectionState <$> peer p = Some ice_checking))
           handleConnectionFailure
  | cb_disconnected =>
      let* p := gets id in
      when (bool_decide (iceConnectionState <$> peer p = Some ice_disconnected))
           handleConnectionFailure
  | cb_streamReady streamId => modify (stream_ready streamId)
  | cb_reconnect => reconnect_callback
  | cb_retry => handleConnectionFailure
  end.

(** [addTracks] and [switchMediaSource] (peer.js:437-479, 553-562).  A track
    is its kind and whether the connection accepts it. *)
Record Track := { track_kind : TrackKind; track_accepted : bool }.

Definition kind_name (k : TrackKind) : string :=
  match k with audio => "audio" | video => "video" end.

Definition add_track (s : State) (track : Track) : State :=
  if track_accepted track then
    let sender := nextSenderId (rt s) in
    let s := upd_rt (set_nextSenderId (sender + 1)) s in
    let s := record (AddTrack (track_kind track) sender) s in
    upd (λ p, set_senders (<[kind_name (track_kind track) := sender]> (senders p)) p) s
  else s.

Definition addTracks (stream : option (list Track)) (s : State) : State :=
  match peer (this s), stream with
  | Some _, Some tracks =>
      let s := foldl (λ s sender, record (RemoveTrack sender) s) s
                 (map_to_list (senders (this s))).*2 in
      let s := upd (set_senders ∅) s in
      foldl add_track s tracks
  | _, _ => s
  end.

Definition switchMediaSource (newStream : option (list Track)) (s : State) : State :=
  match peer (this s) with
  | None => s
  | Some _ => record (Emit ev_media_source_switched) (addTracks newStream s)
  end.

(** ** Running tasks

    [run env n r] drives a task to its end without letting anything else in:
    the promise of its [n]-th, [n+1]-th, ... [await] settles with [env n],
    [env (n+1)], ... as soon as it is awaited. *)
Fixpoint run {A} (env : nat → Outcome) (n : nat) (r : Res A)
  : option (Completion A * State) :=
  match r with
  | Done c s => Some (c, s)
  | Suspend s op k => run env (S n) (k (env n) s)
  | Diverged => None
  end.


(** ** The event loop

    The world is the state together with the continuations of the calls that
    are suspended.  One step of the world is one job of the event loop: a
    call by the page, an event of the connection or of the socket, a timer
    that fires, a promise that settles, time that passes. *)
Record InFlight := {
  awaited : Awaited;
  resume : Outcome → State → Res unit
}.

Record World := { state : State; inflight : list InFlight }.

Definition boot_world : World := {| state := initial; inflight := [] |}.

Definition forget {A} (r : Res A) : Res unit := res_bind r (λ _, ret tt).

(** Publish what a job has done; a job that suspends joins the calls in
    flight.  A job that never ends leaves no next world. *)
Definition land {A} (pending : list InFlight) (r : Res A) : option World :=
  match r with
  | Done _ s => Some {| state := s; inflight := pending |}
  | Suspend s op k =>
      Some {| state := s;
              inflight := pending ++ [ {| awaited := op;
                                          resume := λ o s', forget (k o s') |} ] |}
  | Diverged => None
  end.

Definition outcome_fits (op : Awaited) (o : Outcome) : bool :=
  match o, op with
  | Rejected _, _ => true
  | Response _ _, aw_fetch => true
  | Json _, aw_json => true
  | Sdp _, aw_createOffer _ => true
  | Sdp _, aw_createAnswer _ => true
  | Resolved, aw_setLocalDescription _ _ => true
  | Resolved, aw_setRemoteDescription _ _ => true
  | Resolved, aw_addIceCandidate _ _ => true
  | _, _ => false
  end.

Inductive Handler :=
| h_icecandidate (candidate : option Candidate)
| h_track (event : TrackEvent)
| h_iceconnectionstatechange
| h_connectionstatechange
| h_signalingstatechange.

Definition installed (h : Handler) (q : Peer) : bool :=
  match h with
  | h_icecandidate _ => onicecandidate q
  | h_track _ => ontrack q
  | h_iceconnectionstatechange => oniceconnectionstatechange q
  | h_connectionstatechange => onconnectionstatechange q
  | h_signalingstatechange => onsignalingstatechange q
  end.

Definition run_handler (h : Handler) : Task unit :=
  match h with
  | h_icecandidate candidate => modify (handle_icecandidate candidate)
  | h_track event => modify (handleIncomingTrack event)
  | h_iceconnectionstatechange => handle_iceconnectionstatechange
  | h_connectionstatechange => handle_connectionstatechange
  | h_signalingstatechange => ret tt
  end.

Inductive Action :=
(* calls by the page *)
| call_setSocket
| call_initializePeer (room : string)
| call_setRemotePeer (peerId : option string)
| call_addTracks (stream : option (list Track))
| call_switchMediaSource (stream : option (list Track))
| call_createOffer
| call_createAnswer (offer : SessionDescription)
| call_setRemoteDescription (fuel : nat) (answer : SessionDescription)
| call_cleanup
(* the signaling socket delivers a candidate *)
| socket_ice_candidate (candidate : option Candidate) (room : option string)
(* the current connection changes state, or delivers a track or candidate *)
| peer_ice (st : IceConnectionState)
| peer_connection (st : ConnectionState)
| peer_signaling (st : SignalingState)
| peer_event (h : Handler)
(* a connection that was overwritten without being closed fires a handler *)
| orphan_event (h : Handler)
(* the platform *)
| constructor_throws (b : bool)
| elapse (ms : Z)
| fire (id : Z)
| settle_promise (i : nat) (o : Outcome).

Definition find_timer (id : Z) (ts : list Timer) : option Timer :=
  head (filter (λ t, timer_id t = id) ts).

Definition take_timer (id : Z) (s : State) : State :=
  upd_rt (λ r, set_timers (drop_timer id (timers r)) r) s.

Definition notify (h : Handler) (q : Peer) : Task unit :=
  if installed h q then run_handler h else ret tt.

(** The job an action starts, if the action is possible in state [s]. *)
Definition start (a : Action) (s : State) : option (Res unit) :=
  match a with
  | call_setSocket => Some (modify setSocket s)
  | call_initializePeer room => Some (initializePeer room s)
  | call_setRemotePeer peerId => Some (modify (setRemotePeer peerId) s)
  | call_addTracks stream => Some (modify (addTracks stream) s)
  | call_switchMediaSource stream => Some (modify (switchMediaSource stream) s)
  | call_createOffer => Some (forget (createOffer s))
  | call_createAnswer offer => Some (forget (createAnswer offer s))
  | call_setRemoteDescription fuel answer => Some (setRemoteDescription fuel answer s)
  | call_cleanup => Some (modify cleanup s)
  | socket_ice_candidate candidate room =>
      if socket (this s) then Some (on_socket_ice_candidate candidate room s)
      else None
  | peer_ice st =>
      q ← peer (this s);
      let q := set_iceConnectionState st q in
      Some ((modify (upd (set_peer (Some q))) >>
             notify h_iceconnectionstatechange q) s)
  | peer_connection st =>
      q ← peer (this s);
      let q := set_connectionState st q in
      Some ((modify (upd (set_peer (Some q))) >>
             notify h_connectionstatechange q) s)
  | peer_signaling st =>
      q ← peer (this s);
      let q := set_signalingState st q in
      Some ((modify (upd (set_peer (Some q))) >>
             notify h_signalingstatechange q) s)
  | peer_event h =>
      q ← peer (this s);
      if installed h q then Some (run_handler h s) else None
  | orphan_event h =>
      if existsb (installed h) (orphans (rt s)) then Some (run_handler h s)
      else None
  | constructor_throws b => Some (modify (upd_rt (set_ctorThrows b)) s)
  | elapse ms =>
      if 0 <=? ms
      then Some (modify (upd_rt (λ r, set_clock (clock r + ms) r)) s)
      else None
  | fire id =>
      t ← find_timer id (timers (rt s));
      if timer_due t <=? clock (rt s)
      then Some ((modify (take_timer id) >> run_callback (timer_action t)) s)
      else None
  | settle_promise _ _ => None
  end.

Definition step (a : Action) (w : World) : option World :=
  match a with
  | settle_promise i o =>
      f ← inflight w !! i;
      if outcome_fits (awaited f) o
      then land (delete i (inflight w)) (resume f o (state w))
      else None
  | _ => r ← start a (state w); land (inflight w) r
  end.

Fixpoint exec (acts : list Action) (w : World) : option World :=
  match acts with
  | [] => Some w
  | a :: acts => w' ← step a w; exec acts w'
  end.

Definition reachable (w : World) : Prop :=
  ∃ acts, exec acts boot_world = Some w.

(** ** Specification vocabulary *)

(** The fields of [this] after [cleanup]. *)
Definition cleaned (p : PeerService) : PeerService := {|
  peer := None;
  roomId := None;
  socket := socket p;
  reconnectAttempts := 0;
  maxReconnectAttempts := maxReconnectAttempts p;
  reconnectDelay := reconnectDelay p;
  isReconnecting := false;
  isSettingRemoteDescription := false;
  senders := ∅;
  pendingCandidates := [];
  _streamTracking := ∅;
  remotePeerId := match peer p with Some _ => None | None => remotePeerId p end;
  lastUsedConfig := lastUsedConfig p;
  iceTimeout := iceTimeout p
|}.

(** A logic for tasks.

    [res_ok I Q r]: however the promises of [r] settle, and whatever happens
    to the state while [r] is suspended as long as [I] holds again when it is
    resumed, [r] publishes only states in [I] and ends only in [Q]. *)
Inductive res_ok {A} (I : State → Prop) (Q : Completion A → State → Prop)
  : Res A → Prop :=
| ok_done c s : Q c s → res_ok I Q (Done c s)
| ok_suspend s op k :
    I s → (∀ o s', I s' → res_ok I Q (k o s')) → res_ok I Q (Suspend s op k)
| ok_diverged : res_ok I Q Diverged.

Definition task_ok {A} (I : State → Prop) (P : State → Prop)
    (m : Task A) (Q : Completion A → State → Prop) : Prop :=
  ∀ s, P s → res_ok I Q (m s).

(** Reading the trace: the platform calls that were awaited, and the events
    that were emitted, oldest first. *)
Definition call_of (e : Z * Effect) : option Awaited :=
  match e.2 with Call op => Some op | _ => None end.

Definition event_of (e : Z * Effect) : option Event :=
  match e.2 with Emit ev => Some ev | _ => None end.

Definition calls (s : State) : list Awaited := omap call_of (trace (rt s)).
Definition events (s : State) : list Event := omap event_of (trace (rt s)).

Definition is_remote_set (op : Awaited) : bool :=
  match op with aw_setRemoteDescription _ _ => true | _ => false end.

(** The underlying [setRemoteDescription] calls made so far. *)
Definition remote_sets (s : State) : list Awaited :=
  filter (λ op, is_remote_set op = true) (calls s).



(** The effects [cleanup] has on the world. *)
Definition clear_effect (info : TrackingInfo) : list Effect :=
  match timeoutId info with
  | Some id => if truthy_handle (Some id) then [ClearTimeout id] else []
  | None => []
  end.

(** [res_total r]: [r] never runs out of fuel, however its promises settle
    and whatever the state is when it is resumed. *)
Inductive res_total {A} : Res A → Prop :=
| total_done c s : res_total (Done c s)
| total_suspend s op k :
    (∀ o s', res_total (k o s')) → res_total (Suspend s op k).

(** What [cleanup] does to the runtime: the timers of the tracking records
    are cleared one by one, then the connection, if any, is closed. *)
Definition clear_tracking_rt (r : Runtime) (info : TrackingInfo) : Runtime :=
  match timeoutId info with
  | Some id =>
      if truthy_handle (Some id)
      then set_trace (trace r ++ [(clock r, ClearTimeout id)])
             (set_timers (drop_timer id (timers r)) r)
      else r
  | None => r
  end.

Definition close_rt (q : option Peer) (r : Runtime) : Runtime :=
  match q with
  | Some q => set_trace (trace r ++ [(clock r, ClosePeer (detach q))]) r
  | None => r
  end.

(** The attempt counter is within its bound. *)
Definition bounded (s : State) : Prop :=
  0 ≤ reconnectAttempts (this s) ≤ maxReconnectAttempts (this s)
  ∧ maxReconnectAttempts (this s) = 5.

(** The underlying description sets are [l], and [evs] have been emitted. *)
Definition stable_trace (l : list Awaited) (evs : list Event) (s : State) : Prop :=
  remote_sets s = l ∧ evs ⊆ events s.

(** A session in the middle of a negotiation: the connection of room
    ["lobby"] has received an offer. *)
Definition negotiating : State :=
  upd (set_roomId (Some "lobby"))
    (upd (set_peer (Some (set_signalingState have_remote_offer
                            (attach (fresh_peer 1 stun_config)))))
       initial).

(** A session whose connection exists and is [stable]. *)
Definition connected_session : State :=
  upd (set_roomId (Some "lobby"))
    (upd (set_peer (Some (attach (fresh_peer 1 stun_config)))) initial).


(** The timer handles stored in the tracking records. *)
Definition handle_of (info : TrackingInfo) : list Z :=
  match timeoutId info with
  | Some id => if truthy_handle (Some id) then [id] else []
  | None => []
  end.

Definition tracking_handles (s : State) : list Z :=
  (map_to_list (_streamTracking (this s))).*2 ≫= handle_of.

(** How often an event has been emitted. *)
Definition count_event (ev : Event) (s : State) : nat :=
  length (filter (λ e, e = ev) (events s)).

(** The connections made and closed so far: [(id, true)] for a
    [new RTCPeerConnection], [(id, false)] for a [close()] on a connection
    none of whose handlers is installed any more. *)
Definition lifecycle_of (e : Z * Effect) : option (Z * bool) :=
  match e.2 with
  | NewPeer id _ => Some (id, true)
  | ClosePeer q =>
      if onicecandidate q || ontrack q || oniceconnectionstatechange q
         || onconnectionstatechange q || onsignalingstatechange q
      then None
      else Some (peer_id q, false)
  | _ => None
  end.

Definition lifecycle (s : State) : list (Z * bool) :=
  omap lifecycle_of (trace (rt s)).

(** ** Scenarios *)

(** What the credential endpoint answers when it works. *)
Definition relay : Credentials :=
  {| cred_urls := ["turn:relay.example:3478"];
     cred_username := "user"; cred_credential := "secret" |}.

Definition identity (w : World) : option string * option string :=
  (roomId (this (state w)), remotePeerId (this (state w))).

(** A call is set up, the connection fails, and the immediate TURN fallback
    succeeds. *)
Definition first_recovery : list Action :=
  [ call_initializePeer "lobby"; call_setRemotePeer (Some "bob");
    peer_ice ice_failed;
    settle_promise 0 (Response true "200 OK"); settle_promise 0 (Json relay) ].

(** The new connection fails as well: a backoff attempt is scheduled, and
    its delay passes. *)
Definition second_failure : list Action :=
  [ peer_ice ice_failed; elapse 1000 ].

(** The backoff attempt runs and succeeds. *)
Definition backoff_attempt : list Action :=
  [ fire 1; settle_promise 0 (Response true "200 OK"); settle_promise 0 (Json relay) ].

(** An offer is being created when the connection fails; then the pending
    [createOffer] rejects. *)
Definition overlapping_failures : list Action :=
  [ call_initializePeer "lobby"; call_createOffer; peer_ice ice_failed;
    settle_promise 0 (Rejected "OperationError") ].

(** ** Invariants of the event loop *)

(** The attempt counter and its bound. *)
Definition attempts (s : State) : Z * Z :=
  (reconnectAttempts (this s), maxReconnectAttempts (this s)).

(** A suspended call keeps [I]: resumed in a state in [I], it publishes and
    ends in states in [I]. *)
Definition inflight_ok (I : State → Prop) (f : InFlight) : Prop :=
  ∀ o s, I s → res_ok I (λ _, I) (resume f o s).

Definition world_ok (I : State → Prop) (w : World) : Prop :=
  I (state w) ∧ Forall (inflight_ok I) (inflight w).



(** ** Track aggregation *)


(** When the stream has been announced, and how often. *)
Definition emission_at (streamId : string) (e : Z * Effect) : option Z :=
  match e.2 with
  | Emit (ev_remoteStream x) => if decide (x = streamId) then Some e.1 else None
  | _ => None
  end.

Definition emission_times (streamId : string) (s : State) : list Z :=
  omap (emission_at streamId) (trace (rt s)).

Definition emissions (streamId : string) (s : State) : nat :=
  length (emission_times streamId s).

(** A session in which only track aggregation is going on. *)
Record tracking_inv (s : State) : Prop := {
  ti_stream : ∀ sid info,
    _streamTracking (this s) !! sid = Some info → stream info = sid;
  ti_handle : ∀ sid info id,
    _streamTracking (this s) !! sid = Some info → timeoutId info = Some id →
    0 < id < nextTimerId (rt s);
  ti_handle_inj : ∀ sid1 sid2 info1 info2 id,
    _streamTracking (this s) !! sid1 = Some info1 →
    _streamTracking (this s) !! sid2 = Some info2 →
    timeoutId info1 = Some id → timeoutId info2 = Some id → sid1 = sid2;
  ti_waiting : ∀ sid info,
    _streamTracking (this s) !! sid = Some info → emitted info = false →
    emissions sid s = 0%nat
    ∧ ∃ t, t ∈ timers (rt s) ∧ timeoutId info = Some (timer_id t);
  ti_emitted : ∀ sid info,
    _streamTracking (this s) !! sid = Some info → emitted info = true →
    emissions sid s = 1%nat;
  ti_untracked : ∀ sid,
    _streamTracking (this s) !! sid = None → emissions sid s = 0%nat;
  ti_timer : ∀ t, t ∈ timers (rt s) →
    ∃ sid info, timer_action t = cb_streamReady sid
                ∧ _streamTracking (this s) !! sid = Some info
                ∧ timeoutId info = Some (timer_id t)
                ∧ timer_due t ≤ clock (rt s) + 1000;
  ti_nodup : NoDup (timer_id <$> timers (rt s));
  ti_next : 0 < nextTimerId (rt s)
}.

Definition mark (kind : TrackKind) (info : TrackingInfo) : TrackingInfo :=
  match kind with
  | audio => set_hasAudio true info
  | video => set_hasVideo true info
  end.

(** The scheduler: timers fire when they are due, the earliest first. *)
Definition earlier (a b : Timer) : Timer :=
  if timer_due b <? timer_due a then b else a.

Definition next_timer (ts : list Timer) : option Timer :=
  match ts with
  | [] => None
  | t :: ts => Some (foldl earlier t ts)
  end.

Definition due_by (deadline : Z) (ts : list Timer) : list Timer :=
  filter (λ t, timer_due t ≤ deadline) ts.

(** Let time pass until [deadline], firing every timer that comes due. *)
Fixpoint run_until (fuel : nat) (deadline : Z) (w : World) : option World :=
  let now := clock (rt (state w)) in
  match next_timer (due_by deadline (timers (rt (state w)))) with
  | None => step (elapse (Z.max 0 (deadline - now))) w
  | Some t =>
      match fuel with
      | O => None
      | S fuel =>
          w ← step (elapse (Z.max 0 (timer_due t - now))) w;
          w ← step (fire (timer_id t)) w;
          run_until fuel deadline w
      end
  end.

Definition settle_timers (deadline : Z) (w : World) : option World :=
  run_until (length (timers (rt (state w)))) deadline w.

(** A track arrives [delay] milliseconds from now. *)
Definition arrive (delay : Z) (event : TrackEvent) (w : World) : option World :=
  w ← settle_timers (clock (rt (state w)) + delay) w;
  step (peer_event (h_track event)) w.

Fixpoint play (arrivals : list (Z * TrackEvent)) (w : World) : option World :=
  match arrivals with
  | [] => Some w
  | (delay, event) :: arrivals => w ← arrive delay event w; play arrivals w
  end.

Definition with_state (s : State) (w : World) : World :=
  {| state := s; inflight := inflight w |}.

(** Timers are never overdue: the scheduler fires each one when it is due. *)
Definition punctual (s : State) : Prop :=
  ∀ t, t ∈ timers (rt s) → clock (rt s) ≤ timer_due t.

Definition track_of (streamId : string) (a : Z * TrackKind) : Z * TrackEvent :=
  (a.1, {| event_stream := Some streamId; event_kind := a.2 |}).

(** The tracks of one stream: the first one now, each later one some time
    after the one before. *)
Definition burst (streamId : string) (first : TrackKind) (rest : list (Z * TrackKind))
  : list (Z * TrackEvent) :=
  track_of streamId (0, first) :: (track_of streamId <$> rest).

Definition span (rest : list (Z * TrackKind)) : Z := foldr Z.add 0 (fst <$> rest).

(** Every timer of the stream is due at [due], and the stream has not been
    announced. *)
Definition armed (streamId : string) (due : Z) (s : State) : Prop :=
  emission_times streamId s = []
  ∧ ∀ t, t ∈ timers (rt s) → timer_action t = cb_streamReady streamId →
         timer_due t = due.

(** A call that is set up and waits for the tracks of the other side. *)
Definition listening : World := {| state := connected_session; inflight := [] |}.

(** ** Reconnection that keeps failing *)

(** The delays of the backoff attempts scheduled so far, and the connections
    made so far. *)
Definition backoff_delay_of (e : Z * Effect) : option Z :=
  match e.2 with
  | SetTimeout _ delay cb_reconnect => Some delay
  | _ => None
  end.

Definition backoff_delays (s : State) : list Z :=
  omap backoff_delay_of (trace (rt s)).

Definition connection_of (e : Z * Effect) : option Z :=
  match e.2 with NewPeer id _ => Some id | _ => None end.

Definition connections (s : State) : list Z := omap connection_of (trace (rt s)).

(** The connection fails; the backoff attempt that [handleConnectionFailure]
    schedules as timer [timer] runs after 1000 ms, gets its credentials and
    makes the next connection. *)
Definition failing_round (timer : Z) : list Action :=
  [ peer_ice ice_failed; elapse 1000; fire timer;
    settle_promise 0 (Response true "200 OK"); settle_promise 0 (Json relay) ].

Fixpoint failing_rounds (n : nat) : list Action :=
  match n with
  | O => []
  | S m => failing_rounds m ++ failing_round (Z.of_nat n)
  end.

(** A call is set up, its connection fails and the TURN fallback replaces it;
    then every connection fails as soon as it is made, [n] times. *)
Definition keeps_failing (n : nat) : list Action :=
  first_recovery ++ failing_rounds n.

(** The world between two rounds: a TURN connection with its handlers on, the
    counter at 0, nothing scheduled and nothing in flight. *)
Definition retrying (room remote : option string) (timer connection now : Z)
    (past : list (Z * Effect)) : World :=
  {| state :=
       {| this :=
            {| peer := Some (attach (fresh_peer connection (turn_config relay)));
               roomId := room; socket := false;
               reconnectAttempts := 0; maxReconnectAttempts := 5;
               reconnectDelay := 1000;
               isReconnecting := false; isSettingRemoteDescription := false;
               senders := ∅; pendingCandidates := []; _streamTracking := ∅;
               remotePeerId := remote;
               lastUsedConfig := Some cfg_turn; iceTimeout := None |};
          rt :=
            {| timers := []; nextTimerId := timer; nextPeerId := connection + 1;
               nextSenderId := 1; orphans := []; clock := now;
               ctorThrows := false; trace := past |} |};
     inflight := [] |}.

(** What one round does. *)
Definition failing_round_trace (timer connection now : Z) : list (Z * Effect) :=
  [ (now, SetTimeout timer 1000 cb_reconnect);
    (now + 1000,
     ClosePeer (detach (set_iceConnectionState ice_failed
                          (attach (fresh_peer connection (turn_config relay))))));
    (now + 1000, Call aw_fetch);
    (now + 1000, Call aw_json);
    (now + 1000, NewPeer (connection + 1) (turn_config relay)) ].

(** The credential endpoint is down: the fallback and every attempt after it
    fail before a connection is made.  Timer [2k-1] is a backoff attempt,
    timer [2k] the retry that it schedules when it fails. *)
Definition offline_round (timer : Z) : list Action :=
  [ elapse 1000; fire timer; settle_promise 0 (Rejected "offline") ].

Fixpoint offline_rounds (n : nat) : list Action :=
  match n with
  | O => []
  | S m => offline_rounds m ++ offline_round (Z.of_nat n)
  end.

Definition endpoint_down (n : nat) : list Action :=
  [ call_initializePeer "lobby"; call_setRemotePeer (Some "bob");
    peer_ice ice_failed; settle_promise 0 (Rejected "offline") ]
  ++ offline_rounds n.

(** ** Further vocabulary *)


(** No condition on the states in between. *)
Definition anything (s : State) : Prop := True.






(** [cleanup] touches the timer table and the trace of the runtime, and
    nothing else of it. *)
Definition same_platform (r r' : Runtime) : Prop :=
  nextTimerId r' = nextTimerId r ∧ nextPeerId r' = nextPeerId r
  ∧ nextSenderId r' = nextSenderId r ∧ orphans r' = orphans r
  ∧ clock r' = clock r ∧ ctorThrows r' = ctorThrows r.

(** A call that neither sets nor clears a timer, and takes no time. *)
Definition same_timers (r r' : Runtime) : Prop :=
  timers r' = timers r ∧ nextTimerId r' = nextTimerId r ∧ clock r' = clock r.

Definition turn_error (error : string) : Event :=
  ev_error "turn" "Failed to initialize TURN connection" error.


(** The senders taken off the connection, and the tracks put on it. *)
Definition removed_of (e : Z * Effect) : option Z :=
  match e.2 with RemoveTrack sender => Some sender | _ => None end.

Definition added_of (e : Z * Effect) : option (TrackKind * Z) :=
  match e.2 with AddTrack kind sender => Some (kind, sender) | _ => None end.

Definition removed (s : State) : list Z := omap removed_of (trace (rt s)).
Definition added (s : State) : list (TrackKind * Z) := omap added_of (trace (rt s)).

(** The kinds of the tracks of a stream that the connection accepts. *)
Definition accepted_kinds (tracks : list Track) : list string :=
  (kind_name ∘ track_kind) <$> filter (λ t, track_accepted t = true) tracks.

Definition retry_timer (s : State) : Timer :=
  {| timer_id := nextTimerId (rt s); timer_due := clock (rt s) + 1000;
     timer_action := cb_retry |}.


(** The connection the service holds has all five handlers installed. *)
Definition all_handlers (q : Peer) : bool :=
  onicecandidate q && ontrack q && oniceconnectionstatechange q
  && onconnectionstatechange q && onsignalingstatechange q.

Definition wired (s : State) : Prop :=
  ∀ q, peer (this s) = Some q → all_handlers q = true.


(** The handles that the tracking records of [m] hold. *)
Definition handles (m : gmap string TrackingInfo) : list Z :=
  (map_to_list m).*2 ≫= handle_of.

(** Who owns which timer: a pending track-aggregation timer is the one whose
    handle the record of its stream holds, a pending ICE-checking timeout is
    the one whose handle [iceTimeout] holds, and no handle names a timer of
    another kind.  Handles are never reused. *)
Record timers_owned (ts : list Timer) (n : Z)
    (m : gmap string TrackingInfo) (i : option Z) : Prop := {
  to_next : 0 < n;
  to_ids : ∀ t, t ∈ ts → 0 < timer_id t < n;
  to_nodup : NoDup (timer_id <$> ts);
  to_stream : ∀ sid info, m !! sid = Some info → stream info = sid;
  to_handle : ∀ sid info id,
    m !! sid = Some info → timeoutId info = Some id → 0 < id < n;
  to_handle_timer : ∀ sid info t,
    m !! sid = Some info → timeoutId info = Some (timer_id t) → t ∈ ts →
    timer_action t = cb_streamReady sid;
  to_owned : ∀ t sid, t ∈ ts → timer_action t = cb_streamReady sid →
    ∃ info, m !! sid = Some info ∧ timeoutId info = Some (timer_id t);
  to_ice_handle : ∀ id, i = Some id → 0 < id < n;
  to_ice_timer : ∀ t, i = Some (timer_id t) → t ∈ ts → timer_action t = cb_iceTimeout;
  to_ice_owned : ∀ t, t ∈ ts → timer_action t = cb_iceTimeout → i = Some (timer_id t)
}.

Definition disciplined (s : State) : Prop :=
  timers_owned (timers (rt s)) (nextTimerId (rt s))
    (_streamTracking (this s)) (iceTimeout (this s)).

Definition other_timer (a : TimerAction) : bool :=
  match a with
  | cb_streamReady _ | cb_iceTimeout => false
  | _ => true
  end.

(** What a method leaves of the timers and of their owners. *)
Definition timer_view (s : State) :
    list Timer * Z * gmap string TrackingInfo * option Z :=
  (timers (rt s), nextTimerId (rt s), _streamTracking (this s), iceTimeout (this s)).

Definition stream_timer (t : Timer) : Prop :=
  ∃ sid, timer_action t = cb_streamReady sid.

#[global] Instance stream_timer_dec t : Decision (stream_timer t).
Proof.
  unfold stream_timer. destruct (timer_action t) as [| |sid| |];
    first [ left; by eexists | right; by intros [? ?] ].
Defined.

(** A call whose connection is checking, with a track of stream ["cam"]
    waiting for its debounce window. *)
Definition checking_call : World :=
  default boot_world
    (exec [ call_initializePeer "lobby";
            peer_event (h_track {| event_stream := Some "cam"; event_kind := video |});
            peer_ice ice_checking; peer_ice ice_checking ] boot_world).

(** ** The backoff delays that are used *)

(** The attempt counter is within its bound, and every backoff attempt
    scheduled so far was given one of the five delays of the formula. *)
Definition paced (s : State) : Prop :=
  bounded s
  ∧ Forall (λ d, d ∈ [1000; 2000; 4000; 8000; 10000]) (backoff_delays s).

(** Two fallbacks are under way at once (the second one started by the
    rejection of a pending [createOffer]) and the credential endpoint fails
    both: each of them goes on to schedule a backoff attempt. *)
Definition overlapping_backoffs : World :=
  default boot_world
    (exec (overlapping_failures
             ++ [ settle_promise 0 (Rejected "offline");
                  settle_promise 0 (Rejected "offline") ]) boot_world).

(** ** [waitForStableState] (peer.js:564-585)

    The call makes one promise and two kinds of timers.  What else happens
    to the service while the call waits is given by [service]: the fields of
    the service object at each instant. *)

(** The closures handed to [setTimeout]; [checkState] holds the handle of
    the timeout. *)
Inductive WaitClosure :=
| wc_timeout                      (* peer.js:570 *)
| wc_checkState (timeoutId : Z).  (* peer.js:579 *)

Record WaitTimer := { wt_id : Z; wt_due : Z; wt_closure : WaitClosure }.

Inductive PromiseState :=
| promise_pending
| promise_fulfilled
| promise_rejected (reason : string).

Record Waiting := {
  wait_clock : Z;
  wait_nextId : Z;
  wait_timers : list WaitTimer;     (* in the order of the [setTimeout] calls *)
  wait_promise : PromiseState
}.

(** [!this.peer || this.peer.signalingState === "stable"] *)
Definition stable_or_gone (p : PeerService) : bool :=
  match peer p with
  | None => true
  | Some q => bool_decide (signalingState q = stable)
  end.

(** [resolve] and [reject] do nothing to a promise that is settled. *)
Definition wait_settle (o : PromiseState) (w : Waiting) : Waiting :=
  match wait_promise w with
  | promise_pending =>
      {| wait_clock := wait_clock w; wait_nextId := wait_nextId w;
         wait_timers := wait_timers w; wait_promise := o |}
  | _ => w
  end.

(** A negative delay counts as 0. *)
Definition wait_setTimeout (c : WaitClosure) (delay : Z) (w : Waiting) : Waiting :=
  let t := {| wt_id := wait_nextId w; wt_due := wait_clock w + Z.max 0 delay;
              wt_closure := c |} in
  {| wait_clock := wait_clock w; wait_nextId := wait_nextId w + 1;
     wait_timers := wait_timers w ++ [t]; wait_promise := wait_promise w |}.

Definition wait_clearTimeout (id : Z) (w : Waiting) : Waiting :=
  {| wait_clock := wait_clock w; wait_nextId := wait_nextId w;
     wait_timers := filter (λ t, wt_id t ≠ id) (wait_timers w);
     wait_promise := wait_promise w |}.

Definition timeout_error : string := "Timeout waiting for stable signaling state".

Definition checkState (service : Z → PeerService) (timeoutId : Z) (w : Waiting)
  : Waiting :=
  if stable_or_gone (service (wait_clock w))
  then wait_settle promise_fulfilled (wait_clearTimeout timeoutId w)
  else wait_setTimeout (wc_checkState timeoutId) 100 w.

Definition waitForStableState (service : Z → PeerService) (timeout : option Z)
    (w : Waiting) : Waiting :=
  let timeout := default 5000 timeout in
  if stable_or_gone (service (wait_clock w))
  then wait_settle promise_fulfilled w
  else
    let timeoutId := wait_nextId w in
    let w := wait_setTimeout wc_timeout timeout w in
    checkState service timeoutId w.

(** The timer that fires next: the one that is due first and, of those due
    at the same time, the one that was set first. *)
Definition wait_sooner (acc : option WaitTimer) (t : WaitTimer) : option WaitTimer :=
  match acc with
  | None => Some t
  | Some a => if wt_due t <? wt_due a then Some t else Some a
  end.

Definition wait_next (ts : list WaitTimer) : option WaitTimer :=
  foldl wait_sooner None ts.

Definition wait_fire (service : Z → PeerService) (w : Waiting) : option Waiting :=
  t ← wait_next (wait_timers w);
  let w := {| wait_clock := Z.max (wait_clock w) (wt_due t);
              wait_nextId := wait_nextId w;
              wait_timers := filter (λ t', wt_id t' ≠ wt_id t) (wait_timers w);
              wait_promise := wait_promise w |} in
  Some match wt_closure t with
       | wc_timeout => wait_settle (promise_rejected timeout_error) w
       | wc_checkState timeoutId => checkState service timeoutId w
       end.

Fixpoint wait_fires (service : Z → PeerService) (n : nat) (w : Waiting)
  : option Waiting :=
  match n with
  | O => Some w
  | S n => w' ← wait_fire service w; wait_fires service n w'
  end.

(** A call made at time [now], when the next timer handle is [h]. *)
Definition wait_call (service : Z → PeerService) (timeout : option Z) (now h : Z)
  : Waiting :=
  waitForStableState service timeout
    {| wait_clock := now; wait_nextId := h; wait_timers := [];
       wait_promise := promise_pending |}.

(** The polls that find the connection unsettled: [checkState] runs at
    [now], [now + 100], [now + 200], ... *)
Definition unsettled_until (service : Z → PeerService) (now : Z) (n : nat) : Prop :=
  ∀ j : nat, (j < n)%nat → stable_or_gone (service (now + 100 * Z.of_nat j)) = false.

(** A service whose connection is negotiating until [t0] and stable from
    then on. *)
Definition stable_from (t0 : Z) (t : Z) : PeerService :=
  if t <? t0 then this negotiating else this connected_session.

(** ** A queue that is never drained *)

(** The connection was replaced while [setRemoteDescription] was waiting for
    the old one, and a candidate for the new connection has been queued. *)
Definition stale_answer : World :=
  default boot_world
    (exec [ call_setSocket; call_initializePeer "lobby";
            call_setRemoteDescription 8 {| sdp_type := sdp_answer; sdp := "v=0" |};
            call_initializePeer "lobby";
            socket_ice_candidate (Some "candidate:1") (Some "lobby") ] boot_world).

(** * Properties *)

(** ** What the primitives leave alone *)

Lemma this_record e s : this (record e s) = this s.
Proof. reflexivity. Qed.

Lemma trace_record e s :
  trace (rt (record e s)) = trace (rt s) ++ [(clock (rt s), e)].
Proof. reflexivity. Qed.

Lemma this_setTimeout a d s : this (setTimeout_st a d s) = this s.
Proof. reflexivity. Qed.

Lemma this_clearTimeout id s : this (clearTimeout_st id s) = this s.
Proof. reflexivity. Qed.

Lemma this_clear_tracking_timer s info : this (clear_tracking_timer s info) = this s.
Proof. unfold clear_tracking_timer. destruct (timeoutId info); [|done]. by case_match. Qed.

Lemma this_clear_all infos s : this (foldl clear_tracking_timer s infos) = this s.
Proof.
  revert s. induction infos as [|i infos IH]; intros s; simpl; [done|].
  by rewrite IH, this_clear_tracking_timer.
Qed.

Ltac unfold_setters :=
  cbv [set_peer set_roomId set_socket set_reconnectAttempts set_isReconnecting
       set_isSettingRemoteDescription set_senders set_pendingCandidates
       set_streamTracking set_remotePeerId set_lastUsedConfig set_iceTimeout
       peer roomId socket reconnectAttempts maxReconnectAttempts reconnectDelay
       isReconnecting isSettingRemoteDescription senders pendingCandidates
       _streamTracking remotePeerId lastUsedConfig iceTimeout].


Lemma this_cleanup s : this (cleanup s) = cleaned (this s).
Proof.
  unfold cleanup, close_peer, cleaned. cbn -[foldl].
  rewrite !this_clear_all.
  destruct (peer (this s)) eqn:E; cbn -[foldl]; rewrite ?this_clear_all;
    rewrite <- ?E; destruct (this s); reflexivity.
Qed.


Lemma res_ok_weaken {A} I (Q Q' : Completion A → State → Prop) r :
  res_ok I Q r → (∀ c s, Q c s → Q' c s) → res_ok I Q' r.
Proof. induction 1; intros HQ; constructor; auto. Qed.

Lemma res_ok_bind {A B} I (Q : Completion A → State → Prop)
    (Q' : Completion B → State → Prop) r (f : A → Task B) :
  res_ok I Q r →
  (∀ a s, Q (Returned a) s → res_ok I Q' (f a s)) →
  (∀ e s, Q (Thrown e) s → Q' (Thrown e) s) →
  res_ok I Q' (res_bind r f).
Proof.
  induction 1 as [[a|e] s HQ | s op k HI Hk IH | ]; intros Hf He; simpl.
  - by apply Hf.
  - constructor. by apply He.
  - constructor; [done|]. intros o s' Hs'. by apply IH.
  - constructor.
Qed.

Lemma res_ok_catch {A} I (Q Q' : Completion A → State → Prop) r h :
  res_ok I Q r →
  (∀ a s, Q (Returned a) s → Q' (Returned a) s) →
  (∀ e s, Q (Thrown e) s → res_ok I Q' (h e s)) →
  res_ok I Q' (res_catch r h).
Proof.
  induction 1 as [[a|e] s HQ | s op k HI Hk IH | ]; intros Ha Hh; simpl.
  - constructor. by apply Ha.
  - by apply Hh.
  - constructor; [done|]. intros o s' Hs'. by apply IH.
  - constructor.
Qed.

Lemma res_ok_finally {A} I (Q Q' : Completion A → State → Prop) r fin :
  res_ok I Q r →
  (∀ c s, Q c s → Q' c (fin s)) →
  res_ok I Q' (res_finally r fin).
Proof.
  induction 1 as [c s HQ | s op k HI Hk IH | ]; intros Hfin; simpl.
  - constructor. by apply Hfin.
  - constructor; [done|]. intros o s' Hs'. by apply IH.
  - constructor.
Qed.

(** A run that lets nothing else in ends in [Q]. *)
Lemma res_ok_run {A} I (Q : Completion A → State → Prop) r env n c s :
  res_ok I Q r → run env n r = Some (c, s) → Q c s.
Proof.
  intros Hok. revert n. induction Hok as [c' s' HQ | s' op k HI Hk IH | ];
    intros n Hrun; simpl in Hrun.
  - by simplify_eq.
  - by eapply IH.
  - done.
Qed.

Arguments cleanup : simpl never.
Arguments backoff_delay : simpl never.
Arguments processPendingCandidates : simpl never.
Arguments handleConnectionFailure : simpl never.
Arguments addTracks : simpl never.
Arguments switchMediaSource : simpl never.
Arguments handleIncomingTrack : simpl never.
Arguments stream_ready : simpl never.
Arguments handle_icecandidate : simpl never.

(** ** Symbolic execution of tasks *)

Ltac destruct_stuck r :=
  match r with
  | context [match ?d with _ => _ end] =>
      lazymatch d with
      | context [match _ with _ => _ end] => fail
      | _ => destruct d eqn:?
      end
  end.

(** The methods that are executed in place where they are called. *)
Ltac unfold_methods :=
  unfold turn_fallback, reconnect_callback,
    initializeConnection, initializeWithStun, initializeWithTurn,
    createPeerConnection, emit_reconnectCall, addIceCandidate,
    clear_iceTimeout, current_peer_id, expect_sdp.

Ltac unfold_leaves :=
  unfold ret, throw, get, gets, modify, assign, emit, setTimeout,
    clearTimeout, await, diverge, when.

(** A call of [handleConnectionFailure] or [processPendingCandidates] in
    evaluation position of an invariant goal: [call] brings in the lemma
    about it, and execution goes on behind the call. *)
Ltac peel call tac :=
  lazymatch goal with
  | |- res_ok _ _ (handleConnectionFailure _) => call
  | |- res_ok _ _ (processPendingCandidates _ _) => call
  | |- res_ok ?I _ (res_bind _ _) =>
      eapply (res_ok_bind I (λ _, I));
      [peel call tac | intros ? ? ?; cbv beta in * | intros; cbv beta in *; tac]
  | |- res_ok ?I _ (res_catch _ _) =>
      eapply (res_ok_catch I (λ _, I));
      [peel call tac | intros; cbv beta in *; tac | intros ? ? ?; cbv beta in *]
  | |- res_ok ?I _ (res_finally _ _) =>
      eapply (res_ok_finally I (λ _, I));
      [peel call tac | intros ? ? ?; cbv beta in *; tac]
  end.

(** One step: evaluate the task up to its next completion, suspension,
    call or undecided test; [tac] proves the side conditions on states. *)
Ltac exec_step call tac :=
  cbn;
  lazymatch goal with
  | |- res_ok _ _ (Done _ _) => apply ok_done; tac
  | |- res_ok _ _ (Suspend _ _ _) =>
      apply ok_suspend; [tac | let o := fresh "o" in
                               let s' := fresh "s'" in
                               let HI := fresh "HI" in
                               intros o s' HI]
  | |- res_ok _ _ Diverged => apply ok_diverged
  | |- res_ok _ _ ?r =>
      first [ peel call tac
            | progress unfold bind, try_catch, try_finally
            | progress unfold_leaves
            | destruct_stuck r ]
  end.

Ltac exec_calls call tac := unfold_methods; repeat exec_step call tac.
Ltac exec_task tac := unfold handleConnectionFailure; exec_calls fail tac.

Ltac exec_total_step :=
  cbn;
  lazymatch goal with
  | |- res_total (Done _ _) => apply total_done
  | |- res_total (Suspend _ _ _) => apply total_suspend; intros ? ?
  | |- res_total ?r => first [ progress unfold_leaves | destruct_stuck r ]
  end.

Ltac exec_total := unfold handleConnectionFailure; unfold_methods; repeat exec_total_step.

Ltac bool_facts :=
  repeat match goal with
  | H : (_ && _) = true |- _ => apply andb_true_iff in H; destruct H
  | H : (_ || _) = false |- _ => apply orb_false_iff in H; destruct H
  | H : negb _ = true |- _ => apply negb_true_iff in H
  | H : negb _ = false |- _ => apply negb_false_iff in H
  | H : (_ =? _) = true |- _ => apply Z.eqb_eq in H
  | H : (_ =? _) = false |- _ => apply Z.eqb_neq in H
  | H : (_ <=? _) = true |- _ => apply Z.leb_le in H
  | H : (_ <=? _) = false |- _ => apply Z.leb_gt in H
  | H : (_ >=? _) = true |- _ => rewrite Z.geb_leb in H; apply Z.leb_le in H
  | H : (_ >=? _) = false |- _ => rewrite Z.geb_leb in H; apply Z.leb_gt in H
  | H : bool_decide _ = true |- _ => apply bool_decide_eq_true in H
  | H : bool_decide _ = false |- _ => apply bool_decide_eq_false in H
  end.

Lemma run_total {A} (r : Res A) env n : res_total r → is_Some (run env n r).
Proof.
  intros Ht. revert n. induction Ht as [c s | s op k Hk IH]; intros n; simpl.
  - by eexists.
  - apply IH.
Qed.

(** ** What [cleanup] does to the runtime *)

Lemma rt_clear_tracking_timer s info :
  rt (clear_tracking_timer s info) = clear_tracking_rt (rt s) info.
Proof.
  unfold clear_tracking_timer, clear_tracking_rt.
  destruct (timeoutId info); [|done]. by case_match.
Qed.

Lemma rt_clear_all infos s :
  rt (foldl clear_tracking_timer s infos) = foldl clear_tracking_rt (rt s) infos.
Proof.
  revert s. induction infos as [|i infos IH]; intros s; simpl; [done|].
  by rewrite IH, rt_clear_tracking_timer.
Qed.

Lemma rt_cleanup s :
  rt (cleanup s) =
  close_rt (peer (this s))
    (foldl clear_tracking_rt (rt s) (map_to_list (_streamTracking (this s))).*2).
Proof.
  unfold cleanup, close_peer. cbn -[foldl]. rewrite this_clear_all.
  destruct (peer (this s)); cbn -[foldl]; by rewrite rt_clear_all.
Qed.

Lemma clock_clear_all infos r : clock (foldl clear_tracking_rt r infos) = clock r.
Proof.
  revert r. induction infos as [|i infos IH]; intros r; simpl; [done|].
  rewrite IH. unfold clear_tracking_rt. by repeat case_match.
Qed.

Lemma trace_clear_all infos r :
  trace (foldl clear_tracking_rt r infos) =
  trace r ++ map (pair (clock r)) (infos ≫= clear_effect).
Proof.
  revert r. induction infos as [|i infos IH]; intros r; simpl.
  { by rewrite app_nil_r. }
  rewrite IH. unfold clear_tracking_rt, clear_effect.
  destruct (timeoutId i) as [n|]; [|done].
  destruct (truthy_handle (Some n)); [|done].
  cbn. by rewrite <- app_assoc.
Qed.

Lemma clock_cleanup s : clock (rt (cleanup s)) = clock (rt s).
Proof.
  rewrite rt_cleanup. destruct (peer (this s)); cbn; apply clock_clear_all.
Qed.

(** [cleanup] neither awaits nor emits anything. *)
Lemma omap_none {A B} (f : A → option B) l :
  Forall (λ x, f x = None) l → omap f l = [].
Proof. induction 1 as [|x l Hx _ IH]; cbn; [done|]. by rewrite Hx. Qed.

Lemma clear_effect_silent t info :
  Forall ((λ e, call_of e = None ∧ event_of e = None) ∘ pair t) (clear_effect info).
Proof.
  unfold clear_effect. destruct (timeoutId info) as [n|]; [|by constructor].
  destruct (truthy_handle (Some n)); by repeat constructor.
Qed.

Lemma trace_cleanup s :
  ∃ l, trace (rt (cleanup s)) = trace (rt s) ++ l
       ∧ Forall (λ e, call_of e = None ∧ event_of e = None) l.
Proof.
  rewrite rt_cleanup.
  set (infos := (map_to_list (_streamTracking (this s))).*2).
  assert (Forall (λ e, call_of e = None ∧ event_of e = None)
            (map (pair (clock (rt s))) (infos ≫= clear_effect))) as Hclear.
  { apply Forall_fmap, Forall_bind, Forall_true. intros info.
    apply clear_effect_silent. }
  destruct (peer (this s)) as [q|]; cbn.
  - eexists. rewrite trace_clear_all, <- app_assoc. split; [done|].
    apply Forall_app. split; [done|]. repeat constructor.
  - eexists. rewrite trace_clear_all. done.
Qed.

Lemma calls_cleanup s : calls (cleanup s) = calls s.
Proof.
  unfold calls. destruct (trace_cleanup s) as (l & -> & Hl).
  rewrite omap_app, (omap_none call_of l), app_nil_r; [done|].
  eapply Forall_impl; [done|]. by intros ? [? ?].
Qed.

Lemma events_cleanup s : events (cleanup s) = events s.
Proof.
  unfold events. destruct (trace_cleanup s) as (l & -> & Hl).
  rewrite omap_app, (omap_none event_of l), app_nil_r; [done|].
  eapply Forall_impl; [done|]. by intros ? [? ?].
Qed.

(** ** Reading the trace through the primitives *)

Arguments calls : simpl never.
Arguments events : simpl never.

Lemma calls_record e s :
  calls (record e s) = calls s ++ match e with Call op => [op] | _ => [] end.
Proof. unfold calls. cbn. rewrite omap_app. by destruct e. Qed.

Lemma events_record e s :
  events (record e s) = events s ++ match e with Emit ev => [ev] | _ => [] end.
Proof. unfold events. cbn. rewrite omap_app. by destruct e. Qed.

Lemma calls_upd f s : calls (upd f s) = calls s.
Proof. done. Qed.

Lemma events_upd f s : events (upd f s) = events s.
Proof. done. Qed.

Lemma calls_setTimeout a d s : calls (setTimeout_st a d s) = calls s.
Proof. unfold setTimeout_st. by rewrite calls_record, app_nil_r. Qed.

Lemma events_setTimeout a d s : events (setTimeout_st a d s) = events s.
Proof. unfold setTimeout_st. by rewrite events_record, app_nil_r. Qed.

Lemma calls_clearTimeout id s : calls (clearTimeout_st id s) = calls s.
Proof. unfold clearTimeout_st. by rewrite calls_record, app_nil_r. Qed.

Lemma events_clearTimeout id s : events (clearTimeout_st id s) = events s.
Proof. unfold clearTimeout_st. by rewrite events_record, app_nil_r. Qed.

Lemma calls_construct_peer c s : calls (construct_peer c s) = calls s.
Proof. unfold construct_peer. cbn zeta. by rewrite calls_upd, calls_record, app_nil_r. Qed.

Lemma events_construct_peer c s : events (construct_peer c s) = events s.
Proof. unfold construct_peer. cbn zeta. by rewrite events_upd, events_record, app_nil_r. Qed.

Lemma calls_setupPeerEvents s : calls (setupPeerEvents s) = calls s.
Proof. done. Qed.

Lemma events_setupPeerEvents s : events (setupPeerEvents s) = events s.
Proof. done. Qed.

Lemma calls_settle op o s : calls (settle op o s) = calls s.
Proof. by destruct op. Qed.

Lemma events_settle op o s : events (settle op o s) = events s.
Proof. by destruct op. Qed.

Lemma calls_take_timer id s : calls (take_timer id s) = calls s.
Proof. done. Qed.

Lemma events_take_timer id s : events (take_timer id s) = events s.
Proof. done. Qed.

Create Rewrite HintDb trace_db.
#[global] Hint Rewrite calls_record events_record calls_upd events_upd
  calls_setTimeout events_setTimeout calls_clearTimeout events_clearTimeout
  calls_construct_peer events_construct_peer
  calls_setupPeerEvents events_setupPeerEvents
  calls_settle events_settle calls_cleanup events_cleanup
  calls_take_timer events_take_timer : trace_db.

Ltac trace_simpl :=
  autorewrite with trace_db in *;
  rewrite ?app_nil_r, <- ?app_assoc in *.

(** ** [handleConnectionFailure] by itself *)

Ltac stable_tac :=
  unfold stable_trace, remote_sets in *; trace_simpl; cbn;
  rewrite ?filter_app, ?app_nil_r; cbn;
  repeat match goal with H : _ ∧ _ |- _ => destruct H end;
  repeat split; try done; try set_solver.


(** The handler always returns normally, sets no description and keeps what
    was emitted. *)
Lemma handleConnectionFailure_stable_trace l evs s :
  stable_trace l evs s →
  res_ok (stable_trace l evs) (λ c s', c = Returned tt ∧ stable_trace l evs s')
    (handleConnectionFailure s).
Proof. intros HI. exec_task stable_tac. Qed.

(** ** Claims about [setRemoteDescription] *)

(** C10. Without a connection object [setRemoteDescription] returns at once
    and normally, and the state, trace included, is exactly what it was: no
    event is emitted, the failure handler is not entered, no field changes. *)
Theorem setRemoteDescription_without_peer fuel answer s :
  peer (this s) = None →
  setRemoteDescription fuel answer s = Done (Returned tt) s.
Proof. intros H. unfold setRemoteDescription. cbn. by rewrite H. Qed.

Lemma setRemoteDescription_without_peer_witness :
  peer (this initial) = None
  ∧ setRemoteDescription 1 {| sdp_type := sdp_answer; sdp := "v=0" |} initial
    = Done (Returned tt) initial.
Proof.
  split; [reflexivity|].
  apply (setRemoteDescription_without_peer 1 _ initial). reflexivity.
Defined.



(** ** The pending-candidate queue *)

Lemma processPendingCandidates_unfold fuel s :
  processPendingCandidates fuel s =
  match pendingCandidates (this s) with
  | [] => Done (Returned tt) s
  | candidate :: rest =>
      match fuel with
      | O => Diverged
      | S fuel' =>
          (assign (set_pendingCandidates rest) >>
           addIceCandidate candidate >>
           processPendingCandidates fuel') s
      end
  end.
Proof. by destruct fuel. Qed.

Section queue_invariant.
Variable I : State → Prop.
Hypothesis I_pending :
  ∀ f s, I s → I (upd (λ p, set_pendingCandidates (f p) p) s).
Hypothesis I_call : ∀ pid c s, I s → I (record (Call (aw_addIceCandidate pid c)) s).
Hypothesis I_emit : ∀ ev s, I s → I (record (Emit ev) s).

Lemma addIceCandidate_ok candidate s :
  I s → res_ok I (λ c s', c = Returned tt ∧ I s') (addIceCandidate candidate s).
Proof using All.
  intros HI. exec_task ltac:(try split; try done; unfold push_candidate; auto).
Qed.

Lemma processPendingCandidates_ok fuel s :
  I s → res_ok I (λ c s', c = Returned tt ∧ I s') (processPendingCandidates fuel s).
Proof using All.
  revert s. induction fuel as [|fuel IH]; intros s HI;
    rewrite processPendingCandidates_unfold;
    destruct (pendingCandidates (this s)) as [|c rest]; try by constructor.
  change (res_ok I (λ c s', c = Returned tt ∧ I s')
            (res_bind (addIceCandidate c (upd (set_pendingCandidates rest) s))
               (λ _, processPendingCandidates fuel))).
  eapply res_ok_bind.
  - apply addIceCandidate_ok. by apply (I_pending (λ _, rest)).
  - intros [] s' [_ Hs']. by apply IH.
  - by intros e s' [? _].
Qed.
End queue_invariant.

(** While the connection has no remote description a candidate is buffered
    at the end of the queue, and nothing else happens. *)







Lemma res_finally_post {A} (r : Res A) fin :
  res_ok (λ _, True) (λ _ s', ∃ s0, s' = fin s0) (res_finally r fin).
Proof.
  induction r as [c s | s op k IH | ]; simpl; constructor; eauto.
Qed.

Lemma processPendingCandidates_stable_trace l evs fuel s :
  stable_trace l evs s →
  res_ok (stable_trace l evs) (λ c s', c = Returned tt ∧ stable_trace l evs s')
    (processPendingCandidates fuel s).
Proof.
  apply processPendingCandidates_ok; intros; stable_tac.
Qed.

(** C4. A call of [setRemoteDescription] on a connection in a legal state
    suspends on the underlying set with the in-flight flag raised.  A second
    call made while the flag is raised returns at once and normally and
    leaves the state, trace included, as it was: no error, no second
    underlying set.  However the first call is resumed and wherever it ends,
    it ends with the flag lowered; and when it is resumed on the state it
    published, exactly the one underlying set has been made at its end. *)
Theorem setRemoteDescription_not_reentrant fuel fuel' answer answer' s q :
  peer (this s) = Some q →
  isSettingRemoteDescription (this s) = false →
  signalingState q ∈ [stable; have_local_offer] →
  let set := aw_setRemoteDescription (peer_id q) answer in
  ∃ s1 k,
    setRemoteDescription fuel answer s = Suspend s1 set k
    ∧ isSettingRemoteDescription (this s1) = true
    ∧ remote_sets s1 = remote_sets s ++ [set]
    ∧ setRemoteDescription fuel' answer' s1 = Done (Returned tt) s1
    ∧ (∀ o s'', res_ok (λ _, True)
                  (λ _ s', isSettingRemoteDescription (this s') = false) (k o s''))
    ∧ (∀ env o c s2, run env 0 (k o s1) = Some (c, s2) →
         remote_sets s2 = remote_sets s ++ [set]).
Proof.
  intros Hq Hflag Hst set.
  eexists _, _. split.
  { unfold setRemoteDescription. cbn. rewrite Hq, Hflag. cbn.
    rewrite bool_decide_eq_true_2 by done. cbn. reflexivity. }
  split; [done|].
  split; [stable_tac|].
  split.
  { unfold setRemoteDescription. cbn. rewrite Hq. done. }
  split.
  { intros o s''. eapply res_ok_weaken; [apply res_finally_post|].
    by intros _ s' [s0 ->]. }
  intros env o c s2 Hrun.
  set (l := remote_sets s ++ [set]).
  assert (∀ s', stable_trace l [] s' → stable_trace l [] (settle set o s')) as Hsettle.
  { intros s' ?. stable_tac. }
  assert (stable_trace l []
            (record (Call set) (upd (set_isSettingRemoteDescription true) s))) as HI.
  { stable_tac. }
  eapply (res_ok_run (stable_trace l []) (λ _, stable_trace l [])) in Hrun;
    [by destruct Hrun|].
  eapply res_ok_finally; [|intros c' s' Hs'; revert Hs'; instantiate (1 := λ _, stable_trace l []); intros; stable_tac].
  eapply res_ok_catch with (Q := λ _, stable_trace l []).
  - destruct o; cbn;
      try (eapply res_ok_weaken;
           [apply processPendingCandidates_stable_trace, Hsettle, HI|by intros ? ? [_ ?]]).
    constructor. apply (Hsettle _ HI).
  - done.
  - intros e s' Hs'. cbn. eapply res_ok_weaken.
    + apply (handleConnectionFailure_stable_trace l []
               (record (Emit (remote_description_error e)) s')).
      revert Hs'. stable_tac.
    + by intros ? ? [_ ?].
Qed.

Lemma setRemoteDescription_not_reentrant_witness :
  let answer := {| sdp_type := sdp_answer; sdp := "v=0" |} in
  let set := aw_setRemoteDescription 1 answer in
  ∃ s1 k,
    setRemoteDescription 1 answer connected_session = Suspend s1 set k
    ∧ isSettingRemoteDescription (this s1) = true
    ∧ remote_sets s1 = remote_sets connected_session ++ [set]
    ∧ setRemoteDescription 1 answer s1 = Done (Returned tt) s1
    ∧ (∀ o s'', res_ok (λ _, True)
                  (λ _ s', isSettingRemoteDescription (this s') = false) (k o s''))
    ∧ (∀ env o c s2, run env 0 (k o s1) = Some (c, s2) →
         remote_sets s2 = remote_sets connected_session ++ [set]).
Proof.
  apply (setRemoteDescription_not_reentrant 1 1
           {| sdp_type := sdp_answer; sdp := "v=0" |}
           {| sdp_type := sdp_answer; sdp := "v=0" |}
           connected_session (attach (fresh_peer 1 stun_config))).
  - reflexivity.
  - reflexivity.
  - apply (bool_decide_unpack _). vm_compute. exact I.
Defined.

(** ** Teardown *)

Lemma filter_all {A} (P : A → Prop) `{!∀ x, Decision (P x)} (l : list A) :
  (∀ x, P x) → filter P l = l.
Proof.
  intros HP. induction l as [|x l IH]; [done|].
  by rewrite filter_cons_True, IH.
Qed.

Lemma timers_clear_tracking r info :
  timers (clear_tracking_rt r info)
  = filter (λ t, timer_id t ∉ handle_of info) (timers r).
Proof.
  unfold clear_tracking_rt, handle_of.
  destruct (timeoutId info) as [n|]; cbn.
  - destruct (n =? 0); cbn.
    + symmetry. apply filter_all. intros t. apply not_elem_of_nil.
    + apply list_filter_iff. intros t. rewrite list_elem_of_singleton. done.
  - symmetry. apply filter_all. intros t. apply not_elem_of_nil.
Qed.

Lemma timers_clear_all infos r :
  timers (foldl clear_tracking_rt r infos)
  = filter (λ t, timer_id t ∉ infos ≫= handle_of) (timers r).
Proof.
  revert r. induction infos as [|i infos IH]; intros r; simpl.
  { symmetry. apply filter_all. intros t. apply not_elem_of_nil. }
  rewrite IH, timers_clear_tracking, list_filter_filter.
  apply list_filter_iff. intros t. rewrite not_elem_of_app. tauto.
Qed.

Lemma timers_cleanup s :
  timers (rt (cleanup s))
  = filter (λ t, timer_id t ∉ tracking_handles s) (timers (rt s)).
Proof.
  rewrite rt_cleanup. unfold tracking_handles.
  destruct (peer (this s)); cbn; apply timers_clear_all.
Qed.




(** ** Reconnection attempts and the session's identity *)

(** C8 at a failing input.  After a first recovery the session still knows
    its room and its remote peer.  The backoff attempt that follows the next
    failure closes connection 2 with its handlers off before it makes
    connection 3, but when it is over the room and the remote peer are gone,
    and no second [reconnectCall] was emitted. *)
Lemma backoff_attempt_loses_identity :
  ∃ w1 w2,
    exec (first_recovery ++ second_failure) boot_world = Some w1
    ∧ identity w1 = (Some "lobby", Some "bob")
    ∧ exec backoff_attempt w1 = Some w2
    ∧ lifecycle (state w2)
      = [(1, true); (1, false); (2, true); (2, false); (3, true)]
    ∧ identity w2 = (None, None)
    ∧ count_event ev_reconnectCall (state w1) = 1%nat
    ∧ count_event ev_reconnectCall (state w2) = 1%nat.
Proof.
  eexists _, _. split; [vm_compute; reflexivity|].
  split; [reflexivity|].
  split; [vm_compute; reflexivity|].
  repeat split; vm_compute; reflexivity.
Qed.

(** ** One reconnection sequence at a time *)

(** C9 at a failing input.  The first failure starts the TURN fallback, which
    is waiting for the credentials; [isReconnecting] is already [false]
    again.  The rejection of the pending [createOffer] then enters
    [handleConnectionFailure] a second time, and that invocation starts a
    second fallback: two credential fetches are in flight. *)
Lemma second_sequence_starts :
  (λ w, (awaited <$> inflight w, isReconnecting (this (state w)), calls (state w)))
    <$> exec (take 3 overlapping_failures) boot_world
  = Some ([aw_createOffer 1; aw_fetch], false, [aw_createOffer 1; aw_fetch])
  ∧ (λ w, (awaited <$> inflight w, calls (state w)))
      <$> exec overlapping_failures boot_world
    = Some ([aw_fetch; aw_fetch], [aw_createOffer 1; aw_fetch; aw_fetch]).
Proof. split; vm_compute; reflexivity. Qed.

(** ** Invariants of every reachable world *)

Section world_invariant.
Variable I : State → Prop.
Hypothesis I_initial : I initial.
Hypothesis start_ok :
  ∀ a s r, I s → start a s = Some r → res_ok I (λ _, I) r.

Lemma land_ok {A} pending (r : Res A) w :
  res_ok I (λ _, I) r →
  Forall (inflight_ok I) pending →
  land pending r = Some w →
  world_ok I w.
Proof using Type.
  intros Hr Hp Hland. destruct Hr as [c s HI | s op k HI Hk | ];
    simpl in Hland; simplify_eq.
  - by split.
  - split; [done|]. apply Forall_app. split; [done|].
    constructor; [|constructor]. intros o s' Hs'. cbn.
    eapply res_ok_bind; [by apply Hk| |done].
    intros a s'' Hs''. by constructor.
Qed.

Lemma step_ok a w w' : world_ok I w → step a w = Some w' → world_ok I w'.
Proof using start_ok.
  intros [Hs Hfl] Hstep.
  destruct (start a (state w)) as [r|] eqn:Hstart.
  - assert (land (inflight w) r = Some w') as Hland
      by (destruct a; try (cbn in Hstart; discriminate);
          unfold step in Hstep; cbv beta iota in Hstep;
          rewrite Hstart in Hstep; done).
    eapply land_ok; [eapply start_ok; [exact Hs|exact Hstart]|done..].
  - destruct a as [| | | | | | | | | | | | | | | | | |i o];
      try (by unfold step in Hstep; cbv beta iota in Hstep;
              rewrite Hstart in Hstep).
    cbn in Hstep.
    destruct (inflight w !! i) as [f|] eqn:Hf; [|done]. cbn in Hstep.
    destruct (outcome_fits (awaited f) o); [|done].
    eapply land_ok; [| |exact Hstep].
    + eapply Forall_lookup_1 in Hfl; [|exact Hf]. by apply Hfl.
    + clear -Hfl. revert i. induction Hfl as [|x l Hx Hl IH]; intros [|i]; cbn;
        try done. constructor; [done|apply IH].
Qed.

Lemma exec_ok acts : ∀ w w', world_ok I w → exec acts w = Some w' → world_ok I w'.
Proof using start_ok.
  induction acts as [|a acts IH]; intros w w' Hw Hexec; cbn in Hexec.
  - by simplify_eq.
  - destruct (step a w) as [w1|] eqn:Hstep; [|done]. cbn in Hexec.
    eapply IH; [|done]. by eapply step_ok.
Qed.

Theorem reachable_ok w : reachable w → world_ok I w.
Proof using All.
  intros [acts Hexec]. eapply exec_ok; [|done]. split; [done|constructor].
Qed.
End world_invariant.

(** ** The attempt counter *)

(** The synchronous handlers leave the attempt counter alone. *)
Lemma attempts_record e s : attempts (record e s) = attempts s.
Proof. done. Qed.

Lemma attempts_foldl {A} (f : State → A → State) l :
  (∀ s x, attempts (f s x) = attempts s) →
  ∀ s, attempts (foldl f s l) = attempts s.
Proof.
  intros Hf. induction l as [|x l IH]; intros s; cbn; [done|].
  by rewrite IH, Hf.
Qed.

Lemma attempts_clear_tracking_timer s info :
  attempts (clear_tracking_timer s info) = attempts s.
Proof. unfold attempts. by rewrite this_clear_tracking_timer. Qed.

Lemma attempts_addTracks stream s : attempts (addTracks stream s) = attempts s.
Proof.
  unfold addTracks. destruct (peer (this s)); [|done]. destruct stream; [|done].
  rewrite attempts_foldl.
  - change (attempts (foldl (λ s sender, record (RemoveTrack sender) s) s
                        (map_to_list (senders (this s))).*2) = attempts s).
    by apply attempts_foldl.
  - intros s' t. unfold add_track. by destruct (track_accepted t).
Qed.

Lemma attempts_switchMediaSource stream s :
  attempts (switchMediaSource stream s) = attempts s.
Proof.
  unfold switchMediaSource. destruct (peer (this s)); [|done].
  by rewrite attempts_record, attempts_addTracks.
Qed.

Lemma attempts_handleIncomingTrack event s :
  attempts (handleIncomingTrack event s) = attempts s.
Proof.
  unfold handleIncomingTrack. destruct (event_stream event); [|done].
  cbn zeta. unfold attempts. cbn. by rewrite this_clear_tracking_timer.
Qed.

Lemma attempts_stream_ready streamId s :
  attempts (stream_ready streamId s) = attempts s.
Proof. unfold stream_ready. by repeat case_match. Qed.

Lemma attempts_handle_icecandidate candidate s :
  attempts (handle_icecandidate candidate s) = attempts s.
Proof. unfold handle_icecandidate. by repeat case_match. Qed.

Lemma bounded_attempts s s' : attempts s' = attempts s → bounded s → bounded s'.
Proof. unfold attempts, bounded. intros [= -> ->]. done. Qed.

Ltac attempts_frame :=
  first [ apply attempts_addTracks | apply attempts_switchMediaSource
        | apply attempts_handleIncomingTrack | apply attempts_stream_ready
        | apply attempts_handle_icecandidate ].

Ltac bounded_arith :=
  unfold bounded in *; cbn in *; rewrite ?this_cleanup in *; cbn in *;
  bool_facts; lia.

Ltac bounded_tac :=
  first [ assumption
        | solve [bounded_arith]
        | solve [eapply bounded_attempts; [attempts_frame|bounded_arith]] ].





Lemma bounded_initial : bounded initial.
Proof. unfold bounded. cbn. lia. Qed.




(** ** Track aggregation: one event for each stream *)

Lemma handleIncomingTrack_spec sid kind s :
  let info := mark kind (default (new_tracking sid) (_streamTracking (this s) !! sid)) in
  let n := nextTimerId (rt s) in
  let s' := handleIncomingTrack {| event_stream := Some sid; event_kind := kind |} s in
  _streamTracking (this s') = <[sid := set_timeoutId (Some n) info]> (_streamTracking (this s))
  ∧ timers (rt s')
    = filter (λ t, timer_id t ∉ handle_of info) (timers (rt s))
      ++ [ {| timer_id := n; timer_due := clock (rt s) + 1000;
              timer_action := cb_streamReady sid |} ]
  ∧ nextTimerId (rt s') = n + 1
  ∧ clock (rt s') = clock (rt s)
  ∧ (∀ sid', emission_times sid' s' = emission_times sid' s)
  ∧ trace (rt s')
    = trace (rt s) ++ map (pair (clock (rt s))) (clear_effect info)
      ++ [(clock (rt s), SetTimeout n 1000 (cb_streamReady sid))].
Proof.
  intros info n s'. subst s'. unfold handleIncomingTrack. cbn.
  fold info.
  assert (rt (clear_tracking_timer s info) = clear_tracking_rt (rt s) info) as Hrt
    by apply rt_clear_tracking_timer.
  assert (this (clear_tracking_timer s info) = this s) as Hthis
    by apply this_clear_tracking_timer.
  assert (nextTimerId (clear_tracking_rt (rt s) info) = n
          ∧ clock (clear_tracking_rt (rt s) info) = clock (rt s)) as [Hn Hc].
  { unfold clear_tracking_rt. by repeat case_match. }
  assert (match kind with
          | audio => set_hasAudio true (default (new_tracking sid) (_streamTracking (this s) !! sid))
          | video => set_hasVideo true (default (new_tracking sid) (_streamTracking (this s) !! sid))
          end = info) as -> by (by destruct kind).
  rewrite Hthis. rewrite Hrt. rewrite Hn. rewrite Hc. rewrite timers_clear_tracking.
  assert (trace (clear_tracking_rt (rt s) info)
          = trace (rt s) ++ map (pair (clock (rt s))) (clear_effect info)) as Htr.
  { unfold clear_tracking_rt, clear_effect.
    destruct (timeoutId info) as [id|]; [|by rewrite app_nil_r].
    destruct (truthy_handle (Some id)); [done|by rewrite app_nil_r]. }
  rewrite Htr, <- app_assoc.
  repeat split; try done.
  intros sid'. unfold emission_times. cbn. rewrite ?Hrt, ?Hn, ?Hc, ?Htr.
  rewrite <- ?app_assoc, !omap_app. cbn.
  rewrite (omap_none (emission_at sid') (map _ (clear_effect info))), app_nil_r;
    [done|].
  apply Forall_fmap. unfold clear_effect.
  destruct (timeoutId info) as [id|]; [|constructor].
  destruct (truthy_handle (Some id)); by repeat constructor.
Qed.

Lemma NoDup_fmap_filter {A B} (f : A → B) (P : A → Prop)
    `{!∀ x, Decision (P x)} (l : list A) :
  NoDup (f <$> l) → NoDup (f <$> filter P l).
Proof.
  induction l as [|x l IH]; [done|]. rewrite fmap_cons.
  intros [Hx Hl]%NoDup_cons.
  rewrite filter_cons. destruct (decide (P x)); [|by apply IH].
  rewrite fmap_cons. apply NoDup_cons. split; [|by apply IH].
  intros (y & Hy & [_ ?]%list_elem_of_filter)%list_elem_of_fmap.
  apply Hx, list_elem_of_fmap. eauto.
Qed.

Lemma handle_of_mark kind info : handle_of (mark kind info) = handle_of info.
Proof. by destruct kind. Qed.

Lemma handle_of_Some info id :
  timeoutId info = Some id → 0 < id → handle_of info = [id].
Proof.
  intros H ?. unfold handle_of. rewrite H. cbn.
  destruct (id =? 0) eqn:E; [apply Z.eqb_eq in E; lia|done].
Qed.

Lemma handle_of_elem info id : id ∈ handle_of info → timeoutId info = Some id.
Proof.
  unfold handle_of. destruct (timeoutId info) as [n|]; [|by intros ?%elem_of_nil].
  destruct (truthy_handle (Some n)); [|by intros ?%elem_of_nil].
  by intros ->%list_elem_of_singleton.
Qed.

Lemma timer_id_lt s t :
  tracking_inv s → t ∈ timers (rt s) → 0 < timer_id t < nextTimerId (rt s).
Proof.
  intros Hs Ht. destruct (ti_timer s Hs t Ht) as (sid & info & _ & Hl & Hid & _).
  by eapply ti_handle.
Qed.

Lemma tracking_inv_track event s :
  tracking_inv s → tracking_inv (handleIncomingTrack event s).
Proof.
  intros Hs. destruct event as [[sid|] kind]; [|done].
  destruct (handleIncomingTrack_spec sid kind s)
    as (Hmap & Htimers & Hnext & Hclock & Hem & _).
  set (s' := handleIncomingTrack _ s) in *.
  set (info0 := default (new_tracking sid) (_streamTracking (this s) !! sid)) in *.
  rewrite handle_of_mark in Htimers.
  assert (∀ sid', emissions sid' s' = emissions sid' s) as Hem'
    by (intros; unfold emissions; by rewrite Hem).
  clear Hem. rename Hem' into Hem.
  assert (stream info0 = sid) as Hstream0.
  { unfold info0. destruct (_streamTracking (this s) !! sid) eqn:E; [|done].
    by eapply ti_stream. }
  assert (∀ id, id ∈ handle_of info0 →
            _streamTracking (this s) !! sid = Some info0 ∧ timeoutId info0 = Some id)
    as Hold.
  { intros id Hid%handle_of_elem. unfold info0 in *.
    by destruct (_streamTracking (this s) !! sid). }
  assert (∀ t sid' info', sid' ≠ sid → t ∈ timers (rt s) →
            _streamTracking (this s) !! sid' = Some info' →
            timeoutId info' = Some (timer_id t) → t ∈ timers (rt s')) as Hkeep.
  { intros t sid' info' Hne Ht Hl Hid. rewrite Htimers.
    apply elem_of_app. left. apply list_elem_of_filter. split; [|done].
    intros [Hl0 Hid0]%Hold. by eapply Hne, (ti_handle_inj s Hs). }
  split.
  - intros sid' info. rewrite Hmap. intros [[<- <-]|[? Hl]]%lookup_insert_Some.
    + by destruct kind.
    + by eapply ti_stream.
  - intros sid' info id. rewrite Hmap, Hnext.
    intros [[<- <-]|[? Hl]]%lookup_insert_Some Hid.
    + cbn in Hid. simplify_eq. pose proof (ti_next s Hs). lia.
    + pose proof (ti_handle s Hs _ _ _ Hl Hid). lia.
  - intros sid1 sid2 info1 info2 id. rewrite Hmap.
    intros [[<- <-]|[? Hl1]]%lookup_insert_Some [[<- <-]|[? Hl2]]%lookup_insert_Some
      Hid1 Hid2; try done.
    + cbn in Hid1. simplify_eq. pose proof (ti_handle s Hs _ _ _ Hl2 Hid2). lia.
    + cbn in Hid2. simplify_eq. pose proof (ti_handle s Hs _ _ _ Hl1 Hid1). lia.
    + by eapply (ti_handle_inj s Hs).
  - intros sid' info. rewrite Hmap, Hem.
    intros [[<- <-]|[? Hl]]%lookup_insert_Some Hemit.
    + split.
      * unfold info0 in *. destruct (_streamTracking (this s) !! sid) eqn:E.
        -- eapply ti_waiting; [done..|]. by destruct kind.
        -- by apply ti_untracked.
      * eexists. split; [rewrite Htimers; apply elem_of_app; right; by left|done].
    + destruct (ti_waiting s Hs _ _ Hl Hemit) as [? (t & Ht & Hid)].
      split; [done|]. exists t. split; [|done]. by eapply Hkeep.
  - intros sid' info. rewrite Hmap, Hem.
    intros [[<- <-]|[? Hl]]%lookup_insert_Some Hemit.
    + unfold info0 in *. destruct (_streamTracking (this s) !! sid) eqn:E.
      * eapply ti_emitted; [done..|]. by destruct kind.
      * by destruct kind.
    + by eapply ti_emitted.
  - intros sid'. rewrite Hmap, Hem. intros [? ?]%lookup_insert_None.
    by apply ti_untracked.
  - intros t. rewrite Htimers, Hmap, Hclock.
    intros [[Hnot Ht]%list_elem_of_filter| ->%list_elem_of_singleton]%elem_of_app.
    + destruct (ti_timer s Hs t Ht) as (sid' & info & Hact & Hl & Hid & Hdue).
      exists sid', info. split; [done|]. split; [|done].
      rewrite lookup_insert_ne; [done|]. intros <-. apply Hnot.
      assert (info = info0) as -> by (unfold info0; by rewrite Hl).
      rewrite (handle_of_Some _ _ Hid); [by left|].
      by eapply (ti_handle s Hs).
    + eexists sid, _. split; [done|]. split; [apply lookup_insert_eq|].
      split; [done|]. cbn. lia.
  - rewrite Htimers, fmap_app. cbn. apply NoDup_app. split; [|split].
    + apply NoDup_fmap_filter, (ti_nodup s Hs).
    + intros id (t & -> & [_ Ht]%list_elem_of_filter)%list_elem_of_fmap
        Hid%list_elem_of_singleton.
      pose proof (timer_id_lt s t Hs Ht). lia.
    + apply NoDup_singleton.
  - rewrite Hnext. pose proof (ti_next s Hs). lia.
Qed.

Lemma emissions_record_emit sid sid' s :
  emissions sid (record (Emit (ev_remoteStream sid')) s)
  = (emissions sid s + if decide (sid' = sid) then 1 else 0)%nat.
Proof.
  unfold emissions, emission_times. cbn. rewrite omap_app, length_app. f_equal.
  cbn. unfold emission_at. cbn. by destruct (decide (sid' = sid)).
Qed.

Lemma tracking_inv_fire t sid s :
  tracking_inv s →
  t ∈ timers (rt s) →
  timer_action t = cb_streamReady sid →
  let s' := stream_ready sid (take_timer (timer_id t) s) in
  tracking_inv s'
  ∧ timers (rt s') = filter (λ t', timer_id t' ≠ timer_id t) (timers (rt s))
  ∧ clock (rt s') = clock (rt s)
  ∧ dom (_streamTracking (this s')) = dom (_streamTracking (this s)).
Proof.
  intros Hs Ht Hact s'.
  destruct (ti_timer s Hs t Ht) as (sid0 & info & Hact0 & Hl & Hid & Hdue).
  assert (sid0 = sid) as -> by congruence.
  assert (∀ t' sid' info', sid' ≠ sid ∨ emitted info = true → t' ∈ timers (rt s) →
            _streamTracking (this s) !! sid' = Some info' →
            emitted info' = false →
            timeoutId info' = Some (timer_id t') →
            t' ∈ filter (λ t', timer_id t' ≠ timer_id t) (timers (rt s))) as Hkeep.
  { intros t' sid' info' Hne Ht' Hl' Hemit' Hid'. apply list_elem_of_filter.
    split; [|done]. intros Heq. rewrite Heq in Hid'.
    pose proof (ti_handle_inj s Hs _ _ _ _ _ Hl' Hl Hid' Hid) as ->.
    destruct Hne as [?|?]; [done|]. congruence. }
  assert (NoDup (timer_id <$> filter (λ t', timer_id t' ≠ timer_id t) (timers (rt s))))
    as Hnodup by apply NoDup_fmap_filter, (ti_nodup s Hs).
  subst s'. unfold stream_ready. cbn. rewrite Hl.
  destruct (emitted info) eqn:Hemit; cbn.
  - split; [|done]. split; cbn; try by destruct Hs.
    + intros sid' info' Hl' Hemit'.
      destruct (ti_waiting s Hs _ _ Hl' Hemit') as [? (t' & Ht' & Hid')].
      split; [done|]. exists t'. split; [|done]. eapply Hkeep; eauto.
    + intros t' [? Ht']%list_elem_of_filter. by apply (ti_timer s Hs).
  - split; [|split; [done|split; [done|]]].
    2:{ rewrite dom_insert_L. apply elem_of_dom_2 in Hl. set_solver. }
    pose proof (ti_stream s Hs _ _ Hl) as Hstream. rewrite Hstream.
    split; cbn.
    + intros sid' info'. intros [[<- <-]|[? Hl']]%lookup_insert_Some; [done|].
      by eapply ti_stream.
    + intros sid' info' id. intros [[<- <-]|[? Hl']]%lookup_insert_Some Hid';
        cbn in Hid'; by eapply (ti_handle s Hs).
    + intros sid1 sid2 info1 info2 id.
      intros [[<- <-]|[? Hl1]]%lookup_insert_Some [[<- <-]|[? Hl2]]%lookup_insert_Some
        Hid1 Hid2; try done; cbn in Hid1, Hid2; by eapply (ti_handle_inj s Hs).
    + intros sid' info'. intros [[<- <-]|[Hne Hl']]%lookup_insert_Some Hemit';
        [done|].
      destruct (ti_waiting s Hs _ _ Hl' Hemit') as [Hem (t' & Ht' & Hid')].
      split.
      * change (emissions sid' (record (Emit (ev_remoteStream sid))
                  (upd (λ p, set_streamTracking
                               (<[sid:=set_emitted true info]> (_streamTracking p)) p)
                     (take_timer (timer_id t) s))) = 0%nat).
        rewrite emissions_record_emit, decide_False by done.
        by rewrite Nat.add_0_r.
      * exists t'. split; [|done]. eapply Hkeep; eauto.
    + intros sid' info'. intros [[<- <-]|[Hne Hl']]%lookup_insert_Some Hemit'.
      * change (emissions sid (record (Emit (ev_remoteStream sid))
                  (upd (λ p, set_streamTracking
                               (<[sid:=set_emitted true info]> (_streamTracking p)) p)
                     (take_timer (timer_id t) s))) = 1%nat).
        rewrite emissions_record_emit, decide_True by done.
        change (emissions sid s + 1 = 1)%nat.
        by rewrite (proj1 (ti_waiting s Hs _ _ Hl Hemit)).
      * change (emissions sid' (record (Emit (ev_remoteStream sid))
                  (upd (λ p, set_streamTracking
                               (<[sid:=set_emitted true info]> (_streamTracking p)) p)
                     (take_timer (timer_id t) s))) = 1%nat).
        rewrite emissions_record_emit, decide_False by done.
        rewrite Nat.add_0_r. by eapply (ti_emitted s Hs).
    + intros sid' [Hne Hl']%lookup_insert_None.
      change (emissions sid' (record (Emit (ev_remoteStream sid))
                (upd (λ p, set_streamTracking
                             (<[sid:=set_emitted true info]> (_streamTracking p)) p)
                   (take_timer (timer_id t) s))) = 0%nat).
      rewrite emissions_record_emit, decide_False by done.
      rewrite Nat.add_0_r. by apply (ti_untracked s Hs).
    + intros t' [Hne Ht']%list_elem_of_filter.
      destruct (ti_timer s Hs t' Ht') as (sid' & info' & ? & Hl' & Hid' & ?).
      destruct (decide (sid' = sid)) as [->|Hsid].
      * simplify_eq. 
      * exists sid', info'. by rewrite lookup_insert_ne.
    + done.
    + by destruct Hs.
Qed.

Lemma tracking_inv_elapse ms s :
  tracking_inv s → 0 ≤ ms →
  tracking_inv (upd_rt (λ r, set_clock (clock r + ms) r) s).
Proof.
  intros Hs Hms. split; cbn; try by destruct Hs.
  intros t Ht. destruct (ti_timer s Hs t Ht) as (sid & info & ? & ? & ? & ?).
  exists sid, info. repeat split; try done. lia.
Qed.

Lemma foldl_earlier_elem ts : ∀ t, foldl earlier t ts ∈ t :: ts.
Proof.
  induction ts as [|t' ts IH]; intros t; cbn; [by left|].
  specialize (IH (earlier t t')). apply elem_of_cons in IH as [->|IH].
  - unfold earlier. destruct (_ <? _); [right; by left|by left].
  - by do 2 right.
Qed.

Lemma next_timer_elem ts t : next_timer ts = Some t → t ∈ ts.
Proof. destruct ts; [done|]. intros [= <-]. apply foldl_earlier_elem. Qed.

Lemma next_timer_None ts : next_timer ts = None → ts = [].
Proof. by destruct ts. Qed.

Lemma find_timer_nodup ts t :
  NoDup (timer_id <$> ts) → t ∈ ts → find_timer (timer_id t) ts = Some t.
Proof.
  unfold find_timer. induction ts as [|t' ts IH]; [by intros _ ?%elem_of_nil|].
  rewrite fmap_cons. intros [Hnot Hnd]%NoDup_cons [->|Ht]%elem_of_cons.
  - by rewrite filter_cons_True.
  - rewrite filter_cons_False; [by apply IH|].
    intros Heq. apply Hnot. rewrite Heq. apply list_elem_of_fmap. eauto.
Qed.

Lemma step_elapse ms w :
  0 ≤ ms →
  step (elapse ms) w
  = Some (with_state (upd_rt (λ r, set_clock (clock r + ms) r) (state w)) w).
Proof.
  intros Hms. cbn. by rewrite (proj2 (Z.leb_le 0 ms) Hms).
Qed.

Lemma step_fire_stream t sid w :
  find_timer (timer_id t) (timers (rt (state w))) = Some t →
  timer_action t = cb_streamReady sid →
  timer_due t ≤ clock (rt (state w)) →
  step (fire (timer_id t)) w
  = Some (with_state (stream_ready sid (take_timer (timer_id t) (state w))) w).
Proof.
  intros Hfind Hact Hdue. cbn. rewrite Hfind. cbn.
  by rewrite (proj2 (Z.leb_le _ _) Hdue), Hact.
Qed.

Lemma step_track event q w :
  peer (this (state w)) = Some q → ontrack q = true →
  step (peer_event (h_track event)) w
  = Some (with_state (handleIncomingTrack event (state w)) w).
Proof. intros Hq Hon. cbn. rewrite Hq. cbn. by rewrite Hon. Qed.

Lemma this_stream_ready_peer sid s : peer (this (stream_ready sid s)) = peer (this s).
Proof. unfold stream_ready. by repeat case_match. Qed.

Lemma this_handleIncomingTrack_peer event s :
  peer (this (handleIncomingTrack event s)) = peer (this s).
Proof.
  unfold handleIncomingTrack. destruct (event_stream event); [|done].
  cbn. by rewrite this_clear_tracking_timer.
Qed.

Arguments step : simpl never.

(** In a session where only track aggregation is going on, the scheduler
    gets to [deadline], nothing due is left, and no stream is forgotten. *)
Lemma run_until_tracking fuel : ∀ deadline w,
  tracking_inv (state w) →
  (length (timers (rt (state w))) ≤ fuel)%nat →
  clock (rt (state w)) ≤ deadline →
  ∃ w', run_until fuel deadline w = Some w'
        ∧ tracking_inv (state w')
        ∧ clock (rt (state w')) = deadline
        ∧ due_by deadline (timers (rt (state w'))) = []
        ∧ dom (_streamTracking (this (state w'))) = dom (_streamTracking (this (state w)))
        ∧ peer (this (state w')) = peer (this (state w))
        ∧ timers (rt (state w')) ⊆ timers (rt (state w)).
Proof.
  induction fuel as [|fuel IH]; intros deadline w Hw Hfuel Hclock.
  - destruct (timers (rt (state w))) as [|] eqn:Hts; [|cbn in Hfuel; lia].
    cbn. rewrite Hts. cbn. rewrite step_elapse by lia.
    eexists. split; [done|]. cbn. rewrite Hts.
    split; [|repeat split; [lia|done..]].
    apply tracking_inv_elapse; [done|lia].
  - cbn. destruct (next_timer (due_by deadline (timers (rt (state w))))) as [t|] eqn:Hnext.
    + apply next_timer_elem, list_elem_of_filter in Hnext as [Hdue Ht].
      rewrite step_elapse by lia. cbn.
      set (s1 := upd_rt _ (state w)).
      assert (tracking_inv s1) as Hs1 by (apply tracking_inv_elapse; [done|lia]).
      destruct (ti_timer _ Hw t Ht) as (sid & info & Hact & _).
      erewrite (step_fire_stream t sid (with_state s1 w)); cbn;
        [|apply find_timer_nodup; [apply (ti_nodup _ Hw)|done]|done|lia].
      destruct (tracking_inv_fire t sid s1 Hs1 Ht Hact) as (Hs2 & Hts2 & Hc2 & Hdom2).
      set (s2 := stream_ready sid (take_timer (timer_id t) s1)) in *.
      destruct (IH deadline (with_state s2 (with_state s1 w)))
        as (w' & Hrun & ? & ? & ? & Hdom & Hpeer & Hsub).
      * done.
      * cbn. rewrite Hts2.
        assert (length (filter (λ t', timer_id t' ≠ timer_id t) (timers (rt s1)))
                < length (timers (rt s1)))%nat; [|cbn in *; lia].
        eapply length_filter_lt; [exact Ht|]. by intros ?.
      * cbn. rewrite Hc2. cbn. lia.
      * exists w'. do 4 (split; [done|]). split; [|split].
        -- rewrite Hdom. cbn. by rewrite Hdom2.
        -- rewrite Hpeer. cbn. unfold s2. by rewrite this_stream_ready_peer.
        -- etrans; [exact Hsub|]. cbn. rewrite Hts2. cbn.
           apply list_subseteq_filter.
    + apply next_timer_None in Hnext. rewrite step_elapse by lia.
      eexists. split; [done|]. cbn.
      split; [|repeat split; [lia|done..]].
      apply tracking_inv_elapse; [done|lia].
Qed.

Lemma settle_timers_tracking deadline w :
  tracking_inv (state w) →
  clock (rt (state w)) ≤ deadline →
  ∃ w', settle_timers deadline w = Some w'
        ∧ tracking_inv (state w')
        ∧ clock (rt (state w')) = deadline
        ∧ due_by deadline (timers (rt (state w'))) = []
        ∧ dom (_streamTracking (this (state w'))) = dom (_streamTracking (this (state w)))
        ∧ peer (this (state w')) = peer (this (state w))
        ∧ timers (rt (state w')) ⊆ timers (rt (state w)).
Proof. intros. by apply run_until_tracking. Qed.

(** Once a full debounce window has passed, no timer is left. *)
Lemma settle_timers_quiet wait w :
  tracking_inv (state w) →
  1000 ≤ wait →
  ∃ w', settle_timers (clock (rt (state w)) + wait) w = Some w'
        ∧ tracking_inv (state w')
        ∧ timers (rt (state w')) = []
        ∧ dom (_streamTracking (this (state w'))) = dom (_streamTracking (this (state w))).
Proof.
  intros Hw Hwait.
  destruct (settle_timers_tracking (clock (rt (state w)) + wait) w)
    as (w' & Hrun & Hw' & _ & Hdue & Hdom & _ & Hsub); [done|lia|].
  exists w'. do 2 (split; [done|]). split; [|done].
  destruct (timers (rt (state w'))) as [|t ts] eqn:Hts; [done|].
  assert (t ∈ due_by (clock (rt (state w)) + wait) (t :: ts)) as Ht.
  { apply list_elem_of_filter. split; [|by left].
    destruct (ti_timer _ Hw t) as (? & ? & ? & ? & ? & ?); [|lia].
    apply Hsub. by left. }
  rewrite Hdue in Ht. by apply elem_of_nil in Ht.
Qed.

Lemma tracking_quiet_emissions s sid :
  tracking_inv s →
  timers (rt s) = [] →
  emissions sid s
  = if decide (sid ∈ dom (_streamTracking (this s))) then 1%nat else 0%nat.
Proof.
  intros Hs Hts. destruct (decide _) as [Hin|Hnot].
  - apply elem_of_dom in Hin as [info Hl].
    destruct (emitted info) eqn:Hemit; [by eapply ti_emitted|].
    destruct (ti_waiting s Hs _ _ Hl Hemit) as [_ (t & Ht & _)].
    rewrite Hts in Ht. by apply elem_of_nil in Ht.
  - apply not_elem_of_dom in Hnot. by apply ti_untracked.
Qed.

Lemma arrive_tracking delay event q w :
  tracking_inv (state w) →
  peer (this (state w)) = Some q → ontrack q = true →
  0 ≤ delay →
  ∃ w', arrive delay event w = Some w'
        ∧ tracking_inv (state w')
        ∧ peer (this (state w')) = Some q
        ∧ dom (_streamTracking (this (state w))) ⊆ dom (_streamTracking (this (state w')))
        ∧ ∀ sid, event_stream event = Some sid →
                 sid ∈ dom (_streamTracking (this (state w'))).
Proof.
  intros Hw Hq Hon Hdelay. unfold arrive.
  destruct (settle_timers_tracking (clock (rt (state w)) + delay) w)
    as (w1 & -> & Hw1 & _ & _ & Hdom & Hpeer & _); [done|lia|].
  cbn. rewrite (step_track event q) by congruence.
  eexists. split; [done|]. cbn.
  split; [by apply tracking_inv_track|].
  split; [rewrite this_handleIncomingTrack_peer; congruence|].
  destruct event as [[sid|] kind].
  - destruct (handleIncomingTrack_spec sid kind (state w1)) as (-> & _).
    rewrite dom_insert_L, Hdom. split; [set_solver|].
    intros ? [= <-]. set_solver.
  - split; [by rewrite <- Hdom|]. by intros ? [=].
Qed.

Lemma play_tracking arrivals q : ∀ w,
  tracking_inv (state w) →
  peer (this (state w)) = Some q → ontrack q = true →
  Forall (λ a, 0 ≤ a.1) arrivals →
  ∃ w', play arrivals w = Some w'
        ∧ tracking_inv (state w')
        ∧ dom (_streamTracking (this (state w))) ⊆ dom (_streamTracking (this (state w')))
        ∧ ∀ a sid, a ∈ arrivals → event_stream a.2 = Some sid →
                   sid ∈ dom (_streamTracking (this (state w'))).
Proof.
  induction arrivals as [|[delay event] arrivals IH]; intros w Hw Hq Hon Hdelays.
  { exists w. do 3 (split; [done|]). by intros ? ? ?%elem_of_nil. }
  apply Forall_cons in Hdelays as [Hdelay Hdelays]. cbn in Hdelay.
  destruct (arrive_tracking delay event q w) as (w1 & Harr & Hw1 & Hq1 & Hsub1 & Hin1);
    [done..|].
  destruct (IH w1) as (w' & Hplay & Hw' & Hsub & Hin); [done..|].
  exists w'. cbn. rewrite Harr. cbn. split; [done|]. split; [done|].
  split; [set_solver|].
  intros a sid [->|Ha]%elem_of_cons Hsid.
  - apply Hsub, Hin1. done.
  - by eapply Hin.
Qed.

Lemma foldl_earlier_le ts : ∀ t t',
  t' ∈ t :: ts → timer_due (foldl earlier t ts) ≤ timer_due t'.
Proof.
  induction ts as [|t0 ts IH]; intros t t' Ht'; cbn.
  { apply list_elem_of_singleton in Ht' as ->. lia. }
  assert (timer_due (earlier t t0) ≤ timer_due t
          ∧ timer_due (earlier t t0) ≤ timer_due t0) as [? ?].
  { unfold earlier. destruct (Z.ltb_spec (timer_due t0) (timer_due t)); lia. }
  apply elem_of_cons in Ht' as [->|[->|Ht']%elem_of_cons].
  - etrans; [apply IH; by left|done].
  - etrans; [apply IH; by left|done].
  - apply IH. by right.
Qed.

Lemma next_timer_le ts t t' :
  next_timer ts = Some t → t' ∈ ts → timer_due t ≤ timer_due t'.
Proof. destruct ts; [done|]. intros [= <-]. apply foldl_earlier_le. Qed.

Lemma emission_times_stream_ready sid sid' s T :
  T ∈ emission_times sid' (stream_ready sid s) →
  T ∈ emission_times sid' s
  ∨ T = clock (rt s)
    ∧ ∃ info, _streamTracking (this s) !! sid = Some info ∧ stream info = sid'.
Proof.
  unfold stream_ready. destruct (_streamTracking (this s) !! sid) as [info|]; [|by left].
  destruct (emitted info); [by left|].
  unfold emission_times. cbn. rewrite omap_app. cbn. unfold emission_at at 2. cbn.
  destruct (decide (stream info = sid')) as [<-|?]; cbn.
  - intros [?| ->%list_elem_of_singleton]%elem_of_app; [by left|right; eauto].
  - rewrite app_nil_r. by left.
Qed.

(** Whatever the scheduler announces, it announces when a timer of that
    stream was due. *)
Lemma run_until_emissions fuel : ∀ deadline w w',
  tracking_inv (state w) → punctual (state w) →
  clock (rt (state w)) ≤ deadline →
  run_until fuel deadline w = Some w' →
  punctual (state w')
  ∧ ∀ sid T, T ∈ emission_times sid (state w') →
      T ∈ emission_times sid (state w)
      ∨ ∃ t, t ∈ timers (rt (state w)) ∧ timer_action t = cb_streamReady sid
             ∧ timer_due t = T ∧ T ≤ deadline.
Proof.
  assert (∀ deadline w w',
            punctual (state w) → clock (rt (state w)) ≤ deadline →
            due_by deadline (timers (rt (state w))) = [] →
            step (elapse (Z.max 0 (deadline - clock (rt (state w))))) w = Some w' →
            punctual (state w')
            ∧ ∀ sid T, T ∈ emission_times sid (state w') →
                T ∈ emission_times sid (state w)
                ∨ ∃ t, t ∈ timers (rt (state w)) ∧ timer_action t = cb_streamReady sid
                       ∧ timer_due t = T ∧ T ≤ deadline) as Hidle.
  { intros deadline w w' Hp Hclock Hdue. rewrite step_elapse by lia. intros [= <-].
    split; [|intros; by left].
    intros t Ht. cbn in *.
    destruct (decide (timer_due t ≤ deadline)) as [Hle|?]; [|lia].
    assert (t ∈ due_by deadline (timers (rt (state w)))) as Hin
      by by apply list_elem_of_filter.
    rewrite Hdue in Hin. by apply elem_of_nil in Hin. }
  induction fuel as [|fuel IH]; intros deadline w w' Hw Hp Hclock; cbn.
  - destruct (next_timer _) eqn:Hnext; [done|].
    apply next_timer_None in Hnext. by apply Hidle.
  - destruct (next_timer (due_by deadline (timers (rt (state w))))) as [t|] eqn:Hnext;
      [|apply next_timer_None in Hnext; by apply Hidle].
    pose proof (λ t', next_timer_le _ _ t' Hnext) as Hmin.
    apply next_timer_elem, list_elem_of_filter in Hnext as [Hdue Ht].
    pose proof (Hp t Ht) as Hnow.
    rewrite step_elapse by lia. cbn.
    set (s1 := upd_rt _ (state w)).
    assert (tracking_inv s1) as Hs1 by (apply tracking_inv_elapse; [done|lia]).
    destruct (ti_timer _ Hw t Ht) as (sid & info & Hact & _).
    erewrite (step_fire_stream t sid (with_state s1 w)); cbn;
      [|apply find_timer_nodup; [apply (ti_nodup _ Hw)|done]|done|lia].
    destruct (tracking_inv_fire t sid s1 Hs1 Ht Hact) as (Hs2 & Hts2 & Hc2 & Hdom2).
    set (s2 := stream_ready sid (take_timer (timer_id t) s1)) in *.
    intros Hrun.
    destruct (IH deadline (with_state s2 (with_state s1 w)) w') as [Hp' Hem];
      [done| |cbn; rewrite Hc2; cbn; lia|done|].
    { intros t'. cbn. rewrite Hts2, Hc2. cbn.
      intros [_ Ht']%list_elem_of_filter.
      destruct (decide (timer_due t' ≤ deadline)).
      - assert (timer_due t ≤ timer_due t'); [|lia].
        apply Hmin. by apply list_elem_of_filter.
      - lia. }
    split; [done|]. intros sid' T HT.
    destruct (Hem sid' T HT) as [Hold|(t' & Ht' & ? & ? & ?)].
    + cbn in Hold. apply emission_times_stream_ready in Hold
        as [Hold|[-> (info' & Hl' & Hsid')]]; [by left|].
      right. exists t. cbn in Hl'.
      pose proof (ti_stream _ Hw _ _ Hl'). cbn. split; [done|].
      split; [congruence|]. split; lia.
    + right. exists t'. split; [|done]. cbn in Ht'. rewrite Hts2 in Ht'.
      by apply list_elem_of_filter in Ht' as [_ ?].
Qed.

Lemma punctual_track event s :
  punctual s → punctual (handleIncomingTrack event s).
Proof.
  intros Hp. destruct event as [[sid|] kind]; [|done].
  destruct (handleIncomingTrack_spec sid kind s) as (_ & Hts & _ & Hclock & _).
  intros t. rewrite Hts, Hclock.
  intros [[_ Ht]%list_elem_of_filter| ->%list_elem_of_singleton]%elem_of_app.
  - by apply Hp.
  - cbn. lia.
Qed.

(** A track clears the timer of its stream and arms a new one. *)
Lemma armed_track sid kind s :
  tracking_inv s →
  emission_times sid s = [] →
  armed sid (clock (rt s) + 1000)
    (handleIncomingTrack {| event_stream := Some sid; event_kind := kind |} s).
Proof.
  intros Hs Hem.
  destruct (handleIncomingTrack_spec sid kind s) as (_ & Hts & _ & _ & Hems & _).
  split; [by rewrite Hems|].
  intros t. rewrite Hts, handle_of_mark.
  intros [[Hnot Ht]%list_elem_of_filter| ->%list_elem_of_singleton]%elem_of_app Hact;
    [|done].
  destruct (ti_timer s Hs t Ht) as (sid' & info & Hact' & Hl & Hid & _).
  assert (sid' = sid) as -> by congruence.
  destruct Hnot. rewrite Hl. cbn.
  rewrite (handle_of_Some _ _ Hid); [by left|].
  by eapply (ti_handle s Hs).
Qed.

(** While the timer of the stream is not due, nothing is announced. *)
Lemma settle_timers_armed sid due deadline w :
  tracking_inv (state w) → punctual (state w) →
  armed sid due (state w) →
  clock (rt (state w)) ≤ deadline < due →
  ∃ w', settle_timers deadline w = Some w'
        ∧ tracking_inv (state w') ∧ punctual (state w')
        ∧ armed sid due (state w')
        ∧ clock (rt (state w')) = deadline
        ∧ peer (this (state w')) = peer (this (state w)).
Proof.
  intros Hw Hp [Hem Hdue] Hclock.
  destruct (settle_timers_tracking deadline w)
    as (w' & Hrun & Hw' & Hc' & _ & _ & Hpeer & Hsub); [done|lia|].
  destruct (run_until_emissions (length (timers (rt (state w)))) deadline w w' Hw Hp)
    as [Hp' Hfrom]; [lia|exact Hrun|].
  exists w'. do 3 (split; [done|]). split; [|done].
  split.
  - destruct (emission_times sid (state w')) as [|T l] eqn:E; [done|].
    destruct (Hfrom sid T) as [Hold|(t & Ht & Hact & ? & ?)]; [rewrite E; by left| |].
    + rewrite Hem in Hold. by apply elem_of_nil in Hold.
    + pose proof (Hdue t Ht Hact). lia.
  - intros t Ht. apply Hdue, Hsub, Ht.
Qed.

Lemma arrive_armed sid kind due delay q w :
  tracking_inv (state w) → punctual (state w) →
  armed sid due (state w) →
  peer (this (state w)) = Some q → ontrack q = true →
  0 ≤ delay → clock (rt (state w)) + delay < due →
  let now := clock (rt (state w)) + delay in
  ∃ w', arrive delay {| event_stream := Some sid; event_kind := kind |} w = Some w'
        ∧ tracking_inv (state w') ∧ punctual (state w')
        ∧ armed sid (now + 1000) (state w')
        ∧ clock (rt (state w')) = now
        ∧ peer (this (state w')) = Some q
        ∧ sid ∈ dom (_streamTracking (this (state w'))).
Proof.
  intros Hw Hp Harmed Hq Hon Hdelay Hdue now. subst now. unfold arrive.
  destruct (settle_timers_armed sid due (clock (rt (state w)) + delay) w)
    as (w1 & -> & Hw1 & Hp1 & [Hem1 _] & Hc1 & Hpeer); [done..|lia|].
  cbn. rewrite (step_track _ q) by congruence.
  eexists. split; [done|]. cbn.
  split; [by apply tracking_inv_track|].
  split; [by apply punctual_track|].
  split; [rewrite <- Hc1; by apply armed_track|].
  destruct (handleIncomingTrack_spec sid kind (state w1)) as (Hmap & _ & _ & -> & _).
  split; [done|].
  split; [rewrite this_handleIncomingTrack_peer; congruence|].
  rewrite Hmap, dom_insert_L. set_solver.
Qed.

Lemma play_armed sid q rest : ∀ w,
  tracking_inv (state w) → punctual (state w) →
  armed sid (clock (rt (state w)) + 1000) (state w) →
  peer (this (state w)) = Some q → ontrack q = true →
  sid ∈ dom (_streamTracking (this (state w))) →
  Forall (λ a, 0 ≤ a.1 < 1000) rest →
  ∃ w', play (track_of sid <$> rest) w = Some w'
        ∧ tracking_inv (state w') ∧ punctual (state w')
        ∧ armed sid (clock (rt (state w')) + 1000) (state w')
        ∧ clock (rt (state w')) = clock (rt (state w)) + span rest
        ∧ sid ∈ dom (_streamTracking (this (state w'))).
Proof.
  induction rest as [|[gap kind] rest IH]; intros w Hw Hp Harmed Hq Hon Hin Hgaps.
  { exists w. do 3 (split; [done|]). split; [done|]. split; [|done].
    unfold span. cbn. lia. }
  apply Forall_cons in Hgaps as [Hgap Hgaps]. cbn in Hgap.
  destruct (arrive_armed sid kind (clock (rt (state w)) + 1000) gap q w)
    as (w1 & Harr & Hw1 & Hp1 & Harmed1 & Hc1 & Hq1 & Hin1); [done..|lia|lia|].
  destruct (IH w1) as (w' & Hplay & ? & ? & ? & Hc' & ?); [done|done|by rewrite Hc1|done|done|done|done|].
  exists w'. cbn. unfold track_of at 1. cbn. rewrite Harr. cbn.
  do 4 (split; [done|]). split; [|done].
  rewrite Hc', Hc1. unfold span. cbn. lia.
Qed.

(** A session that has seen no track yet. *)
Lemma tracking_inv_fresh s :
  _streamTracking (this s) = ∅ → timers (rt s) = [] → trace (rt s) = [] →
  0 < nextTimerId (rt s) →
  tracking_inv s.
Proof.
  intros Hmap Hts Htrace Hnext.
  split; rewrite ?Hmap, ?Hts; try (intros *; by rewrite lookup_empty).
  - intros sid _. unfold emissions, emission_times. by rewrite Htrace.
  - by intros t ?%elem_of_nil.
  - constructor.
  - done.
Qed.

(** C6. Each stream is announced exactly once. Whatever tracks arrive, of
    whatever streams and however spaced, once a debounce window has passed
    after the last of them no timer is left and every stream that delivered a
    track has produced exactly one [remoteStream] event. And when the tracks
    of a new stream arrive each less than a window after the one before (a
    single track of one kind; audio, then video), the one event comes 1000 ms
    after the last of them: each track clears the timer and arms it again. *)
Theorem remote_stream_emitted_once
    (w : World) (q : Peer) (wait : Z) (arrivals : list (Z * TrackEvent))
    (streamId : string) (first : TrackKind) (rest : list (Z * TrackKind)) :
  tracking_inv (state w) → punctual (state w) →
  peer (this (state w)) = Some q → ontrack q = true →
  1000 ≤ wait →
  Forall (λ a, 0 ≤ a.1) arrivals →
  _streamTracking (this (state w)) !! streamId = None →
  Forall (λ a, 0 ≤ a.1 < 1000) rest →
  (∃ w1 w2,
      play arrivals w = Some w1
      ∧ settle_timers (clock (rt (state w1)) + wait) w1 = Some w2
      ∧ timers (rt (state w2)) = []
      ∧ ∀ a sid, a ∈ arrivals → event_stream a.2 = Some sid →
                 emissions sid (state w2) = 1%nat)
  ∧ (∃ w1 w2,
      play (burst streamId first rest) w = Some w1
      ∧ settle_timers (clock (rt (state w1)) + wait) w1 = Some w2
      ∧ emission_times streamId (state w2)
        = [clock (rt (state w)) + span rest + 1000]).
Proof.
  intros Hw Hp Hq Hon Hwait Hdelays Hnew Hgaps. split.
  - destruct (play_tracking arrivals q w) as (w1 & Hplay & Hw1 & _ & Hin); [done..|].
    destruct (settle_timers_quiet wait w1) as (w2 & Hrun & Hw2 & Hts & Hdom); [done..|].
    exists w1, w2. do 3 (split; [done|]).
    intros a sid Ha Hsid.
    rewrite tracking_quiet_emissions, decide_True; [done| |done..].
    rewrite Hdom. by eapply Hin.
  - assert (armed streamId (clock (rt (state w)) + 1) (state w)) as Harmed.
    { split.
      - apply length_zero_iff_nil. by apply (ti_untracked _ Hw).
      - intros t Ht Hact.
        destruct (ti_timer _ Hw t Ht) as (sid & info & ? & ? & _). congruence. }
    destruct (arrive_armed streamId first _ 0 q w Hw Hp Harmed)
      as (w0 & Harr & Hw0 & Hp0 & Harmed0 & Hc0 & Hq0 & Hin0); [done..|lia|lia|].
    destruct (play_armed streamId q rest w0)
      as (w1 & Hplay & Hw1 & Hp1 & [Hem1 Hdue1] & Hc1 & Hin1);
      [done|done|by rewrite Hc0|done|done|done|done|].
    destruct (settle_timers_quiet wait w1) as (w2 & Hrun & Hw2 & Hts & Hdom); [done..|].
    exists w1, w2. split; [|split; [done|]].
    { unfold burst. cbn. unfold track_of at 1. cbn. rewrite Harr. done. }
    pose proof (tracking_quiet_emissions _ streamId Hw2 Hts) as Hone.
    rewrite decide_True in Hone by by rewrite Hdom.
    unfold emissions in Hone.
    destruct (emission_times streamId (state w2)) as [|T [|]] eqn:E; try done.
    f_equal.
    destruct (run_until_emissions (length (timers (rt (state w1))))
                (clock (rt (state w1)) + wait) w1 w2 Hw1 Hp1) as [_ Hfrom];
      [lia|exact Hrun|].
    destruct (Hfrom streamId T) as [Hold|(t & Ht & Hact & <- & _)]; [rewrite E; by left| |].
    + rewrite Hem1 in Hold. by apply elem_of_nil in Hold.
    + rewrite (Hdue1 t Ht Hact), Hc1, Hc0. lia.
Qed.

Lemma remote_stream_emitted_once_witness :
  (∃ w1 w2,
      play [(0, {| event_stream := Some "cam"; event_kind := video |});
            (300, {| event_stream := Some "mic"; event_kind := audio |});
            (2000, {| event_stream := Some "cam"; event_kind := audio |})] listening
      = Some w1
      ∧ settle_timers (clock (rt (state w1)) + 1000) w1 = Some w2
      ∧ timers (rt (state w2)) = []
      ∧ ∀ a sid,
          a ∈ [(0, {| event_stream := Some "cam"; event_kind := video |});
               (300, {| event_stream := Some "mic"; event_kind := audio |});
               (2000, {| event_stream := Some "cam"; event_kind := audio |})] →
          event_stream a.2 = Some sid → emissions sid (state w2) = 1%nat)
  ∧ (∃ w1 w2,
      play (burst "cam" audio [(400, video)]) listening = Some w1
      ∧ settle_timers (clock (rt (state w1)) + 1000) w1 = Some w2
      ∧ emission_times "cam" (state w2) = [0 + span [(400, video)] + 1000]).
Proof.
  apply (remote_stream_emitted_once listening (attach (fresh_peer 1 stun_config)) 1000).
  - by apply tracking_inv_fresh.
  - by intros t ?%elem_of_nil.
  - reflexivity.
  - reflexivity.
  - lia.
  - repeat constructor; cbn; lia.
  - reflexivity.
  - repeat constructor; cbn; lia.
Defined.


(** ** Reconnection that keeps failing *)

Lemma first_recovery_retrying :
  ∃ past, exec first_recovery boot_world
          = Some (retrying (Some "lobby") (Some "bob") 1 2 0 past).
Proof. eexists. vm_compute. reflexivity. Qed.

Lemma step_fire_only id t w r :
  timers (rt (state w)) = [t] →
  timer_id t = id →
  timer_due t ≤ clock (rt (state w)) →
  r = run_callback (timer_action t) (upd_rt (set_timers []) (state w)) →
  step (fire id) w = land (inflight w) r.
Proof.
  intros Hts <- Hdue ->.
  assert (find_timer (timer_id t) (timers (rt (state w))) = Some t) as Hfind.
  { unfold find_timer. by rewrite Hts, filter_cons_True, filter_nil. }
  assert (take_timer (timer_id t) (state w) = upd_rt (set_timers []) (state w)) as Htake.
  { unfold take_timer, upd_rt, drop_timer. cbn.
    rewrite Hts, filter_cons_False, filter_nil; [done|]. by intros ?. }
  unfold step. cbn. rewrite Hfind. cbn.
  rewrite (proj2 (Z.leb_le _ _) Hdue). cbn. f_equal.
  change (run_callback (timer_action t) (take_timer (timer_id t) (state w)) = 
          run_callback (timer_action t) (upd_rt (set_timers []) (state w))).
  by rewrite Htake.
Qed.

Lemma foldl_snoc {A} (l l' : list A) : foldl (λ l x, l ++ [x]) l l' = l ++ l'.
Proof.
  revert l. induction l' as [|x l' IH]; intros l; cbn; [by rewrite app_nil_r|].
  by rewrite IH, <- app_assoc.
Qed.

Lemma failing_round_retrying room remote timer connection now past :
  exec (failing_round timer) (retrying room remote timer connection now past)
  = Some (retrying None None (timer + 1) (connection + 1) (now + 1000)
            (past ++ failing_round_trace timer connection now)).
Proof.
  rewrite <- foldl_snoc.
  unfold failing_round. cbn [exec].
  eassert (step (peer_ice ice_failed) (retrying room remote timer connection now past)
          = Some _) as -> by reflexivity.
  cbn [mbind option_bind].
  eassert (step (elapse 1000) _ = Some _) as -> by reflexivity.
  cbn [mbind option_bind].
  erewrite step_fire_only; [|reflexivity|reflexivity|apply Z.le_refl|reflexivity].
  eassert (land _ _ = Some _) as -> by reflexivity.
  cbn [mbind option_bind].
  eassert (step (settle_promise 0 _) _ = Some _) as -> by reflexivity.
  cbn [mbind option_bind].
  eassert (step (settle_promise 0 _) _ = Some _) as -> by reflexivity.
  cbn [mbind option_bind].
  reflexivity.
Qed.

Lemma exec_app acts1 acts2 w :
  exec (acts1 ++ acts2) w = exec acts1 w ≫= exec acts2.
Proof.
  revert w. induction acts1 as [|a acts1 IH]; intros w; cbn; [done|].
  destruct (step a w); cbn; [apply IH|done].
Qed.

Lemma keeps_failing_S n :
  keeps_failing (S n) = keeps_failing n ++ failing_round (Z.of_nat n + 1).
Proof.
  unfold keeps_failing. cbn [failing_rounds]. rewrite app_assoc.
  do 2 f_equal. lia.
Qed.

Lemma keeps_failing_retrying n :
  ∃ room remote past,
    exec (keeps_failing n) boot_world
    = Some (retrying room remote (Z.of_nat n + 1) (Z.of_nat n + 2) (1000 * Z.of_nat n) past)
    ∧ omap event_of past = [ev_reconnectCall]
    ∧ omap backoff_delay_of past = replicate n 1000
    ∧ omap connection_of past = Z.of_nat <$> seq 1 (n + 2).
Proof.
  induction n as [|n (room & remote & past & Hexec & Hev & Hdelays & Hconn)].
  { eexists _, _, _. split; [vm_compute; reflexivity|]. by vm_compute. }
  exists None, None, (past ++ failing_round_trace (Z.of_nat n + 1) (Z.of_nat n + 2)
                                  (1000 * Z.of_nat n)).
  split; [|split; [|split]].
  - rewrite keeps_failing_S, exec_app, Hexec. cbn [mbind option_bind].
    rewrite failing_round_retrying. do 2 f_equal; lia.
  - rewrite omap_app, Hev. reflexivity.
  - rewrite omap_app, Hdelays. change (replicate n 1000 ++ [1000] = replicate (S n) 1000).
    by rewrite <- replicate_cons_app.
  - rewrite omap_app, Hconn.
    change (S n + 2)%nat with (S (n + 2)). rewrite seq_S, fmap_app. cbn.
    do 2 f_equal. lia.
Qed.

(** With the credential endpoint down it is the same: twelve timers later
    thirteen fetches have been made, every backoff delay was 1000 ms, and the
    only events are the errors of [initializeWithTurn]. *)
Lemma endpoint_down_keeps_retrying :
  (λ w, (backoff_delays (state w), length (calls (state w)),
         count_event reconnect_error (state w),
         count_event (ev_error "turn" "Failed to initialize TURN connection" "offline")
           (state w),
         length (events (state w))))
    <$> exec (endpoint_down 12) boot_world
  = Some (replicate 7 1000, 13%nat, 0%nat, 13%nat, 13%nat).
Proof. vm_compute. reflexivity. Qed.

(** C1 at a failing input.  A call is set up, the connection fails and the
    immediate TURN fallback makes a new one; then the connection fails again,
    [n] times, each time as soon as it is made.  Whatever [n] is, every one of
    the [n] failures schedules a backoff attempt 1000 ms later, every attempt
    makes a connection, the only event ever emitted is the [reconnectCall] of
    the fallback, and at the end the counter is 0 again and nothing is
    scheduled: no terminal error comes.  The delays that the formula gives
    for attempts 2 to 5 are never used. *)
Theorem reconnection_never_exhausted (n : nat) :
  (∃ w, exec (keeps_failing n) boot_world = Some w
        ∧ events (state w) = [ev_reconnectCall]
        ∧ count_event reconnect_error (state w) = 0%nat
        ∧ backoff_delays (state w) = replicate n 1000
        ∧ connections (state w) = Z.of_nat <$> seq 1 (n + 2)
        ∧ reconnectAttempts (this (state w)) = 0
        ∧ isReconnecting (this (state w)) = false
        ∧ timers (rt (state w)) = [])
  ∧ backoff_delay <$> [2; 3; 4; 5] = [2000; 4000; 8000; 10000].
Proof.
  split; [|reflexivity].
  destruct (keeps_failing_retrying n) as (room & remote & past & Hexec & Hev & Hd & Hc).
  eexists. split; [exact Hexec|].
  unfold count_event, events, backoff_delays, connections. cbn.
  rewrite Hev. by repeat split.
Qed.

(** * Further properties of the service *)






Lemma processPendingCandidates_returns fuel s :
  res_ok anything (λ c _, c = Returned tt) (processPendingCandidates fuel s).
Proof.
  eapply res_ok_weaken; [apply (processPendingCandidates_ok anything); done|].
  by intros ? ? [? _].
Qed.








Lemma run_bind_inv {A B} (r : Res A) (f : A → Task B) env c s' : ∀ n,
  run env n (res_bind r f) = Some (c, s') →
  (∃ a s1 m, run env n r = Some (Returned a, s1) ∧ run env m (f a s1) = Some (c, s'))
  ∨ (∃ e, run env n r = Some (Thrown e, s') ∧ c = Thrown e).
Proof.
  induction r as [[a|e] s | s op k IH | ]; intros n; simpl; intros Hrun.
  - left. eauto.
  - right. simplify_eq. eauto.
  - by apply IH.
  - done.
Qed.


Lemma update_peer_same q f : update_peer (peer_id q) f q = f q.
Proof. unfold update_peer. by rewrite Z.eqb_refl. Qed.


(** X3. When the platform produces an offer and accepts it as local description,
    [createOffer] returns that offer, has made the two calls on the same
    connection in that order, and has emitted nothing. *)
Theorem createOffer_installs_offer env s q d :
  peer (this s) = Some q →
  env 0%nat = Sdp d → env 1%nat = Resolved →
  ∃ s', run env 0 (createOffer s) = Some (Returned d, s')
        ∧ this s'
          = set_peer (Some (set_signalingState (signaling_after_local (sdp_type d)) q))
              (this s)
        ∧ calls s'
          = calls s ++ [aw_createOffer (peer_id q); aw_setLocalDescription (peer_id q) d]
        ∧ events s' = events s
        ∧ timers (rt s') = timers (rt s).
Proof.
  intros Hq H0 H1. unfold createOffer. cbn. rewrite Hq. unfold try_catch. cbn.
  rewrite H0. cbn. rewrite Hq. cbn. rewrite H1. cbn.
  eexists. split; [done|]. cbn. rewrite Hq. cbn. rewrite update_peer_same.
  split; [done|]. unfold on_peer. trace_simpl. cbn. done.
Qed.

Lemma createOffer_installs_offer_witness :
  ∃ s', run (λ n, match n with
                  | O => Sdp {| sdp_type := sdp_offer; sdp := "v=0" |}
                  | _ => Resolved
                  end) 0 (createOffer connected_session)
        = Some (Returned {| sdp_type := sdp_offer; sdp := "v=0" |}, s')
        ∧ this s'
          = set_peer (Some (set_signalingState have_local_offer
                              (attach (fresh_peer 1 stun_config))))
              (this connected_session)
        ∧ calls s'
          = calls connected_session
            ++ [aw_createOffer 1;
                aw_setLocalDescription 1 {| sdp_type := sdp_offer; sdp := "v=0" |}]
        ∧ events s' = events connected_session
        ∧ timers (rt s') = timers (rt connected_session).
Proof.
  apply (createOffer_installs_offer _ connected_session
           (attach (fresh_peer 1 stun_config))); reflexivity.
Defined.




(** X5. When the platform accepts everything, [createAnswer] sets the remote
    offer, creates the answer and sets it as local description, in that
    order and on the same connection, and returns the answer. *)
Theorem createAnswer_installs_both env offer s q answer :
  peer (this s) = Some q →
  env 0%nat = Resolved → env 1%nat = Sdp answer → env 2%nat = Resolved →
  ∃ s', run env 0 (createAnswer offer s) = Some (Returned answer, s')
        ∧ this s'
          = set_peer
              (Some (set_signalingState (signaling_after_local (sdp_type answer))
                       (set_signalingState (signaling_after_remote (sdp_type offer))
                          (set_remoteDescription (Some offer) q))))
              (this s)
        ∧ calls s'
          = calls s ++ [aw_setRemoteDescription (peer_id q) offer;
                        aw_createAnswer (peer_id q);
                        aw_setLocalDescription (peer_id q) answer]
        ∧ events s' = events s
        ∧ timers (rt s') = timers (rt s).
Proof.
  intros Hq H0 H1 H2. unfold createAnswer. cbn. rewrite Hq. unfold try_catch. cbn.
  repeat (rewrite ?Hq, ?update_peer_same, ?H0, ?H1, ?H2; cbn).
  eexists. split; [done|].
  repeat (rewrite ?Hq, ?update_peer_same; cbn).
  unfold update_peer. cbn. rewrite Z.eqb_refl.
  split; [done|]. unfold on_peer. trace_simpl. cbn. done.
Qed.


Lemma same_platform_clear_all infos : ∀ r,
  same_platform r (foldl clear_tracking_rt r infos).
Proof.
  induction infos as [|i infos IH]; intros r; cbn; [done|].
  destruct (IH (clear_tracking_rt r i)) as (H1 & H2 & H3 & H4 & H5 & H6).
  unfold same_platform. rewrite H1, H2, H3, H4, H5, H6.
  unfold clear_tracking_rt. by repeat case_match.
Qed.

Lemma same_platform_cleanup s : same_platform (rt s) (rt (cleanup s)).
Proof.
  rewrite rt_cleanup.
  destruct (same_platform_clear_all (map_to_list (_streamTracking (this s))).*2 (rt s))
    as (? & ? & ? & ? & ? & ?).
  by destruct (peer (this s)).
Qed.

Lemma omap_trace_cleanup {B} (f : Z * Effect → option B) s :
  (∀ t id, f (t, ClearTimeout id) = None) →
  (∀ t q, f (t, ClosePeer q) = None) →
  omap f (trace (rt (cleanup s))) = omap f (trace (rt s)).
Proof.
  intros Hclear Hclose. rewrite rt_cleanup.
  set (infos := (map_to_list (_streamTracking (this s))).*2).
  assert (omap f (trace (foldl clear_tracking_rt (rt s) infos)) = omap f (trace (rt s)))
    as Hfold.
  { assert (∀ t info, Forall ((λ e, f e = None) ∘ pair t) (clear_effect info)) as Hinfo.
    { intros t info. unfold clear_effect.
      destruct (timeoutId info) as [n|]; [|by constructor].
      destruct (truthy_handle (Some n)); [|by constructor].
      constructor; [apply Hclear|constructor]. }
    rewrite trace_clear_all, omap_app.
    rewrite (omap_none f (map _ _)); [by rewrite app_nil_r|].
    apply Forall_fmap, Forall_bind, Forall_true. intros info. apply Hinfo. }
  destruct (peer (this s)); cbn; [|done].
  rewrite omap_app, Hfold. cbn. by rewrite Hclose, app_nil_r.
Qed.

Lemma connections_cleanup s : connections (cleanup s) = connections s.
Proof. by apply omap_trace_cleanup. Qed.

(** The two ways in which [initializeWithTurn] can end, and what each
    leaves behind. *)
Lemma initializeWithTurn_run env s c s' :
  run env 0 (initializeWithTurn s) = Some (c, s') →
  match c with
  | Returned _ =>
      ∃ status credentials,
        env 0%nat = Response true status ∧ env 1%nat = Json credentials
        ∧ valid_credentials credentials = true
        ∧ ctorThrows (rt s) = false
        ∧ this s'
          = set_peer (Some (attach (fresh_peer (nextPeerId (rt s))
                                      (turn_config credentials)))) (this s)
        ∧ events s' = events s
        ∧ calls s' = calls s ++ [aw_fetch; aw_json]
        ∧ same_timers (rt s) (rt s')
  | Thrown e =>
      this s' = this s
      ∧ events s' = events s ++ [turn_error e]
      ∧ connections s' = connections s
      ∧ same_timers (rt s) (rt s')
      ∧ (∀ status, env 0%nat = Response false status →
           e = "Failed to fetch TURN credentials: " +:+ status
           ∧ calls s' = calls s ++ [aw_fetch])
      ∧ (∀ e', env 0%nat = Rejected e' → e = e')
  end.
Proof.
  unfold initializeWithTurn, try_catch, createPeerConnection. cbn.
  destruct (env 0%nat) as [e0| |ok status|c0|d0] eqn:H0; cbn.
  all: try (intros [= <- <-]; unfold connections; trace_simpl; cbn;
            rewrite ?omap_app, ?app_nil_r; cbn; rewrite ?app_nil_r;
            repeat split; try done; intros; by simplify_eq).
  destruct ok; cbn.
  2:{ intros [= <- <-]. unfold connections. trace_simpl. cbn.
      rewrite ?omap_app, ?app_nil_r. cbn. rewrite ?app_nil_r.
      repeat split; try done; intros; by simplify_eq. }
  destruct (env 1%nat) as [e1| |ok1 status1|c1|d1] eqn:H1; cbn.
  all: try (intros [= <- <-]; unfold connections; trace_simpl; cbn;
            rewrite ?omap_app, ?app_nil_r; cbn; rewrite ?app_nil_r;
            repeat split; try done; intros; by simplify_eq).
  destruct (valid_credentials c1) eqn:Hvalid; cbn.
  2:{ intros [= <- <-]. unfold connections. trace_simpl. cbn.
      rewrite ?omap_app, ?app_nil_r. cbn. rewrite ?app_nil_r.
      repeat split; try done; intros; by simplify_eq. }
  destruct (ctorThrows (rt s)) eqn:Hctor; cbn.
  { intros [= <- <-]. unfold connections. trace_simpl. cbn.
    rewrite ?omap_app, ?app_nil_r. cbn. rewrite ?app_nil_r.
    repeat split; try done; intros; by simplify_eq. }
  intros [= <- <-]. exists status, c1.
  trace_simpl. cbn.
  repeat split; done.
Qed.

(** X2. [initializeWithTurn] makes a connection exactly when the credential
    endpoint answers with success, the body holds well-formed credentials
    and the platform can make the connection; the connection then uses those
    credentials only and has all its handlers.  In every other case no
    connection is made, no field of the service changes, exactly one
    ["turn"] error is emitted and the error is thrown on. *)
Theorem initializeWithTurn_outcome env s :
  ∃ c s',
    run env 0 (initializeWithTurn s) = Some (c, s')
    ∧ match c with
      | Returned _ =>
          ∃ status credentials,
            env 0%nat = Response true status ∧ env 1%nat = Json credentials
            ∧ valid_credentials credentials = true
            ∧ ctorThrows (rt s) = false
            ∧ this s'
              = set_peer (Some (attach (fresh_peer (nextPeerId (rt s))
                                          (turn_config credentials)))) (this s)
            ∧ events s' = events s
            ∧ calls s' = calls s ++ [aw_fetch; aw_json]
            ∧ same_timers (rt s) (rt s')
      | Thrown e =>
          this s' = this s
          ∧ events s' = events s ++ [turn_error e]
          ∧ connections s' = connections s
          ∧ same_timers (rt s) (rt s')
          ∧ (∀ status, env 0%nat = Response false status →
               e = "Failed to fetch TURN credentials: " +:+ status
               ∧ calls s' = calls s ++ [aw_fetch])
          ∧ (∀ e', env 0%nat = Rejected e' → e = e')
      end.
Proof.
  destruct (run_total (initializeWithTurn s) env 0) as [[c s'] Hrun].
  { unfold initializeWithTurn. exec_total. }
  exists c, s'. split; [done|]. by apply (initializeWithTurn_run env).
Qed.


Lemma run_rethrow {A} (r : Res A) env : ∀ n,
  run env n (res_catch r (λ e, throw e)) = run env n r.
Proof.
  induction r as [[a|e] s | s op k IH | ]; intros n; simpl; auto.
Qed.

Lemma initializeConnection_unfold s :
  initializeConnection s
  = if ctorThrows (rt s)
    then res_catch (initializeWithTurn s) (λ e, throw e)
    else Done (Returned tt) (setupPeerEvents (construct_peer stun_config s)).
Proof.
  unfold initializeConnection, initializeWithStun, createPeerConnection, try_catch.
  cbn. by destruct (ctorThrows (rt s)).
Qed.

(** What a run of [initializePeer] that has come to its end has done. *)
Lemma initializePeer_run env room s c s' :
  run env 0 (initializePeer room s) = Some (c, s') →
  if ctorThrows (rt s)
  then ∃ e, c = Thrown e
            ∧ this s' = set_roomId (Some room) (cleaned (this s))
            ∧ events s' = events s ++ [turn_error e]
            ∧ connections s' = connections s
  else c = Returned tt
       ∧ this s'
         = set_peer (Some (attach (fresh_peer (nextPeerId (rt s)) stun_config)))
             (set_roomId (Some room) (cleaned (this s)))
       ∧ events s' = events s
       ∧ calls s' = calls s
       ∧ connections s' = connections s ++ [nextPeerId (rt s)].
Proof.
  set (s1 := upd (set_isReconnecting false)
               (upd (set_reconnectAttempts 0)
                  (upd (set_roomId (Some room)) (cleanup s)))).
  change (initializePeer room s) with (initializeConnection s1).
  rewrite initializeConnection_unfold.
  destruct (same_platform_cleanup s) as (_ & Hpeer & _ & _ & _ & Hctor).
  assert (this s1 = set_roomId (Some room) (cleaned (this s))) as Hthis1.
  { unfold s1. cbn. rewrite this_cleanup. by destruct (this s). }
  assert (events s1 = events s) as Hev1 by (unfold s1; by trace_simpl).
  assert (calls s1 = calls s) as Hcalls1 by (unfold s1; by trace_simpl).
  assert (connections s1 = connections s) as Hconn1.
  { unfold s1, connections. cbn. apply connections_cleanup. }
  change (ctorThrows (rt s1)) with (ctorThrows (rt (cleanup s))). rewrite Hctor.
  destruct (ctorThrows (rt s)) eqn:Hthrows.
  - rewrite run_rethrow. intros Hrun.
    apply initializeWithTurn_run in Hrun. destruct c as [[]|e].
    + destruct Hrun as (? & ? & _ & _ & _ & Hno & _).
      change (ctorThrows (rt s1)) with (ctorThrows (rt (cleanup s))) in Hno. congruence.
    + destruct Hrun as (Hthis & Hev & Hconn & _).
      exists e. by rewrite Hthis, Hev, Hconn, Hthis1, Hev1, Hconn1.
  - cbn. intros [= <- <-]. split; [done|].
    split. { cbn. rewrite this_cleanup, Hpeer. by destruct (this s). }
    trace_simpl. rewrite Hev1, Hcalls1. repeat split; try done.
    unfold connections. cbn.
    change (trace (rt (cleanup s))) with (trace (rt s1)).
    rewrite omap_app. fold (connections s1). rewrite Hconn1. cbn.
    by rewrite Hpeer.
Qed.

(** X1. [initializePeer]: the previous session is torn down; when the platform
    can make connections, a STUN connection with all its handlers is made
    for the room and no credential is fetched; when it cannot, the relay is
    tried, fails the same way, and the call throws with no connection. *)
Theorem initializePeer_outcome env room s :
  ∃ c s',
    run env 0 (initializePeer room s) = Some (c, s')
    ∧ if ctorThrows (rt s)
      then ∃ e, c = Thrown e
                ∧ this s' = set_roomId (Some room) (cleaned (this s))
                ∧ events s' = events s ++ [turn_error e]
                ∧ connections s' = connections s
      else c = Returned tt
           ∧ this s'
             = set_peer (Some (attach (fresh_peer (nextPeerId (rt s)) stun_config)))
                 (set_roomId (Some room) (cleaned (this s)))
           ∧ events s' = events s
           ∧ calls s' = calls s
           ∧ connections s' = connections s ++ [nextPeerId (rt s)].
Proof.
  destruct (run_total (initializePeer room s) env 0) as [[c s'] Hrun].
  { unfold initializePeer. exec_total. }
  exists c, s'. split; [done|]. by apply (initializePeer_run env).
Qed.


Lemma accepted_kinds_cons t tracks :
  accepted_kinds (t :: tracks)
  = if track_accepted t then kind_name (track_kind t) :: accepted_kinds tracks
    else accepted_kinds tracks.
Proof.
  unfold accepted_kinds. destruct (track_accepted t) eqn:Hacc.
  - by rewrite filter_cons_True.
  - rewrite filter_cons_False; [done|]. by rewrite Hacc.
Qed.

Lemma add_tracks_spec tracks : ∀ s,
  let s' := foldl add_track s tracks in
  dom (senders (this s')) = dom (senders (this s)) ∪ list_to_set (accepted_kinds tracks)
  ∧ nextSenderId (rt s')
    = nextSenderId (rt s) + Z.of_nat (length (accepted_kinds tracks))
  ∧ (∀ k id, senders (this s') !! k = Some id →
       senders (this s) !! k = Some id
       ∨ nextSenderId (rt s) ≤ id < nextSenderId (rt s'))
  ∧ set_senders (senders (this s)) (this s') = this s
  ∧ events s' = events s
  ∧ removed s' = removed s
  ∧ timers (rt s') = timers (rt s).
Proof.
  induction tracks as [|t tracks IH]; intros s.
  { cbn. split; [set_solver|]. split; [lia|]. split; [by left|].
    split; [by destruct (this s)|done]. }
  rewrite accepted_kinds_cons. simpl foldl. cbv zeta.
  destruct (IH (add_track s t)) as (Hdom & Hnext & Hfresh & Hthis & Hev & Hrem & Hts).
  rewrite Hdom, Hnext, Hev, Hrem, Hts. unfold add_track in *.
  destruct (track_accepted t) eqn:Hacc; cbn in *.
  2:{ do 2 (split; [done|]). split; [|done].
      intros k id H. apply Hfresh in H. by rewrite Hnext in H. }
  rewrite dom_insert_L.
  split; [set_solver|]. split; [lia|]. split.
  { intros k id H. apply Hfresh in H as [H|H]; [|right; lia].
    apply lookup_insert_Some in H as [[<- <-]|[_ H]]; [right; lia|by left]. }
  split.
  { apply (f_equal (set_senders (senders (this s)))) in Hthis.
    etrans; [|etrans; [exact Hthis|]]; [done|by destruct (this s)]. }
  unfold events, removed. cbn. rewrite !omap_app. cbn. by rewrite !app_nil_r.
Qed.

Lemma remove_senders_spec ids : ∀ s,
  let s' := foldl (λ s sender, record (RemoveTrack sender) s) s ids in
  this s' = this s
  ∧ removed s' = removed s ++ ids
  ∧ events s' = events s
  ∧ nextSenderId (rt s') = nextSenderId (rt s)
  ∧ timers (rt s') = timers (rt s).
Proof.
  induction ids as [|id ids IH]; intros s.
  { cbn. by rewrite app_nil_r. }
  simpl foldl. cbv zeta.
  destruct (IH (record (RemoveTrack id) s)) as (H1 & H2 & H3 & H4 & H5).
  rewrite H1, H2, H3, H4, H5.
  unfold removed, events. cbn. rewrite !omap_app. cbn.
  by rewrite app_nil_r, <- app_assoc.
Qed.

(** What [addTracks] does to the senders, the platform and the trace. *)
Lemma addTracks_effect tracks s q :
  peer (this s) = Some q →
  let s' := addTracks (Some tracks) s in
  dom (senders (this s')) = list_to_set (accepted_kinds tracks)
  ∧ (∀ k id, senders (this s') !! k = Some id →
       nextSenderId (rt s) ≤ id < nextSenderId (rt s'))
  ∧ nextSenderId (rt s')
    = nextSenderId (rt s) + Z.of_nat (length (accepted_kinds tracks))
  ∧ removed s' = removed s ++ (map_to_list (senders (this s))).*2
  ∧ set_senders (senders (this s)) (this s') = this s
  ∧ events s' = events s
  ∧ timers (rt s') = timers (rt s).
Proof.
  intros Hq s'. subst s'. unfold addTracks. rewrite Hq.
  set (s1 := foldl _ s _).
  destruct (remove_senders_spec (map_to_list (senders (this s))).*2 s)
    as (Hthis1 & Hrem1 & Hev1 & Hnext1 & Hts1). fold s1 in Hthis1, Hrem1, Hev1, Hnext1, Hts1.
  destruct (add_tracks_spec tracks (upd (set_senders ∅) s1))
    as (Hdom & Hnext & Hfresh & Hthis & Hev & Hrem & Hts).
  cbn in Hdom, Hnext, Hfresh, Hthis, Hev, Hrem, Hts.
  rewrite Hnext1 in Hnext, Hfresh.
  rewrite Hdom, Hnext. rewrite dom_empty_L.
  split; [set_solver|]. split.
  { intros k id H. apply Hfresh in H as [H|H]; [by rewrite lookup_empty in H|].
    by rewrite Hnext in H. }
  split; [done|]. split; [by rewrite Hrem|].
  split.
  { apply (f_equal (set_senders (senders (this s)))) in Hthis.
    etrans; [|etrans; [exact Hthis|]]; [done|].
    cbn. rewrite Hthis1. by destruct (this s). }
  split; [by rewrite Hev|by rewrite Hts].
Qed.

(** X7. [addTracks] on a connection: the senders kept so far are taken off the
    connection, and the map then holds exactly one new sender for each kind
    of track that the connection accepted. *)
Theorem addTracks_replaces_senders tracks s q :
  peer (this s) = Some q →
  let s' := addTracks (Some tracks) s in
  dom (senders (this s')) = list_to_set (accepted_kinds tracks)
  ∧ (∀ k id, senders (this s') !! k = Some id →
       nextSenderId (rt s) ≤ id < nextSenderId (rt s'))
  ∧ nextSenderId (rt s')
    = nextSenderId (rt s) + Z.of_nat (length (accepted_kinds tracks))
  ∧ removed s' = removed s ++ (map_to_list (senders (this s))).*2
  ∧ set_senders (senders (this s)) (this s') = this s
  ∧ events s' = events s
  ∧ timers (rt s') = timers (rt s).
Proof. exact (addTracks_effect tracks s q). Qed.

(** X8. [switchMediaSource]: without a connection nothing happens; with one, the
    switch is announced exactly once, also when there is no new stream and
    no sender has changed. *)
Theorem switchMediaSource_announces newStream s :
  let s' := switchMediaSource newStream s in
  match peer (this s) with
  | None => s' = s
  | Some _ =>
      events s' = events s ++ [ev_media_source_switched]
      ∧ match newStream with
        | None => this s' = this s ∧ removed s' = removed s ∧ added s' = added s
        | Some tracks =>
            dom (senders (this s')) = list_to_set (accepted_kinds tracks)
            ∧ removed s' = removed s ++ (map_to_list (senders (this s))).*2
        end
  end.
Proof.
  intros s'. subst s'. unfold switchMediaSource.
  destruct (peer (this s)) as [q|] eqn:Hq; [|done].
  destruct newStream as [tracks|].
  - destruct (addTracks_effect tracks s q Hq)
      as (Hdom & _ & _ & Hrem & _ & Hev & _).
    rewrite events_record, Hev. split; [done|]. split; [done|].
    unfold removed in *. cbn. rewrite omap_app, Hrem. cbn. by rewrite app_nil_r.
  - unfold addTracks. rewrite Hq. rewrite events_record.
    split; [done|]. split; [done|]. unfold removed, added. cbn.
    rewrite !omap_app. cbn. by rewrite !app_nil_r.
Qed.



(** X9. The immediate fallback keeps the room and the remote peer that the
    session had when it failed: they are saved before [cleanup] and written
    back when the relay has answered, over whatever the fields hold by
    then.  The new connection has no senders of its own. *)
Theorem turn_fallback_restores_identity s :
  isReconnecting (this s) = false →
  reconnectAttempts (this s) = 0 →
  lastUsedConfig (this s) ≠ Some cfg_turn →
  ∃ k, handleConnectionFailure s
       = Suspend (record (Call aw_fetch)
                    (cleanup (upd increment_attempts (upd (set_isReconnecting true) s))))
           aw_fetch k
       ∧ ∀ status s1, ∃ k',
           k (Response true status) s1 = Suspend (record (Call aw_json) s1) aw_json k'
           ∧ ∀ c s2,
               valid_credentials c = true → ctorThrows (rt s2) = false →
               ∃ s3, k' (Json c) s2 = Done (Returned tt) s3
                     ∧ roomId (this s3) = roomId (this s)
                     ∧ remotePeerId (this s3) = remotePeerId (this s)
                     ∧ peer (this s3)
                       = Some (attach (fresh_peer (nextPeerId (rt s2)) (turn_config c)))
                     ∧ lastUsedConfig (this s3) = Some cfg_turn
                     ∧ isReconnecting (this s3) = false
                     ∧ reconnectAttempts (this s3) = reconnectAttempts (this s2)
                     ∧ senders (this s3) = senders (this s2)
                     ∧ events s3
                       = events s2
                         ++ (if truthy_string (remotePeerId (this s))
                                && truthy_string (roomId (this s))
                             then [ev_reconnectCall] else []).
Proof.
  intros Hrec Hatt Hcfg. unfold handleConnectionFailure, turn_fallback. cbn.
  rewrite Hrec. cbn. rewrite Hatt. cbn. rewrite bool_decide_eq_false_2 by done. cbn.
  eexists. split; [reflexivity|]. intros status s1. cbn.
  eexists. split; [reflexivity|]. intros c s2 Hvalid Hctor. cbn.
  rewrite Hvalid. cbn. rewrite Hctor. cbn.
  destruct (truthy_string (remotePeerId (this s)) && truthy_string (roomId (this s)));
    cbn; eexists; (split; [reflexivity|]); cbn; repeat split; try done;
    trace_simpl; by rewrite ?app_nil_r.
Qed.

Lemma turn_fallback_restores_identity_witness :
  ∃ k, handleConnectionFailure connected_session
       = Suspend (record (Call aw_fetch)
                    (cleanup (upd increment_attempts
                                (upd (set_isReconnecting true) connected_session))))
           aw_fetch k.
Proof.
  destruct (turn_fallback_restores_identity connected_session) as (k & Hk & _);
    [reflexivity|reflexivity|discriminate|].
  exists k. exact Hk.
Defined.

Lemma run_catch_inv {A} (r : Res A) (h : string → Task A) env c s' : ∀ n,
  run env n (res_catch r h) = Some (c, s') →
  (∃ a, run env n r = Some (Returned a, s') ∧ c = Returned a)
  ∨ (∃ e s1 m, run env n r = Some (Thrown e, s1) ∧ run env m (h e s1) = Some (c, s')).
Proof.
  induction r as [[a|e] s | s op k IH | ]; intros n; simpl; intros Hrun.
  - left. simplify_eq. eauto.
  - right. eauto.
  - by apply IH.
  - done.
Qed.

Lemma reconnect_callback_unfold s :
  reconnect_callback s
  = res_catch
      (res_bind
         (res_bind (initializeWithTurn (cleanup s))
            (λ _, assign (set_lastUsedConfig (Some cfg_turn))))
         (λ _, emit_reconnectCall >> assign (set_isReconnecting false)))
      (λ error, assign (set_isReconnecting false) >> setTimeout cb_retry 1000 >> ret tt).
Proof.
  unfold reconnect_callback, try_catch, bind, modify, gets. cbn.
  by rewrite this_cleanup.
Qed.

(** What a run of the backoff attempt that has come to its end has done. *)
Lemma reconnect_callback_run env s c s' :
  run env 0 (reconnect_callback s) = Some (c, s') →
  c = Returned tt
  ∧ roomId (this s') = None
  ∧ isReconnecting (this s') = false
  ∧ reconnectAttempts (this s') = 0
  ∧ match peer (this s') with
    | Some q =>
        (∃ credentials,
            q = attach (fresh_peer (nextPeerId (rt s)) (turn_config credentials)))
        ∧ lastUsedConfig (this s') = Some cfg_turn
        ∧ events s' = events s
        ∧ calls s' = calls s ++ [aw_fetch; aw_json]
    | None =>
        (∃ e, events s' = events s ++ [turn_error e])
        ∧ connections s' = connections s
        ∧ last (timers (rt s')) = Some (retry_timer s)
    end.
Proof.
  rewrite reconnect_callback_unfold. intros Hrun.
  destruct (same_platform_cleanup s) as (Hnt & Hnp & _ & _ & Hclock & _).
  apply run_catch_inv in Hrun as [([] & Hrun & ->)|(e & s1 & m & Hrun & Hh)].
  - apply run_bind_inv in Hrun as [([] & sB & m & Hrun & Hf2)|(e & _ & [=])].
    apply run_bind_inv in Hrun as [([] & sA & m' & Hrun & Hf1)|(e & _ & [=])].
    apply initializeWithTurn_run in Hrun
      as (status & cr & _ & _ & _ & _ & Hthis & Hev & Hcalls & _).
    cbn in Hf1. simplify_eq.
    unfold emit_reconnectCall, bind, gets, when in Hf2. cbn in Hf2.
    rewrite Hthis, this_cleanup in Hf2. cbn in Hf2. rewrite andb_false_r in Hf2.
    cbn in Hf2. simplify_eq. cbn. rewrite Hthis, this_cleanup. cbn.
    do 4 (split; [done|]). rewrite Hnp. split; [by eexists|]. split; [done|].
    trace_simpl. by rewrite ?Hev, ?Hcalls, ?events_cleanup, ?calls_cleanup.
  - cbn in Hh. simplify_eq.
    apply run_bind_inv in Hrun as [([] & sB & m' & Hrun & Hf2)|(e' & Hrun & [= <-])].
    { unfold emit_reconnectCall, bind, gets, when in Hf2. cbn in Hf2.
      destruct (_ && _); cbn in Hf2; simplify_eq. }
    apply run_bind_inv in Hrun as [([] & sA & m' & Hrun & Hf1)|(e' & Hrun & [= <-])].
    { cbn in Hf1. simplify_eq. }
    apply initializeWithTurn_run in Hrun
      as (Hthis & Hev & Hconn & (Hts & Hnext & Hclk) & _).
    cbn. rewrite Hthis, this_cleanup. cbn.
    do 4 (split; [done|]).
    split; [exists e; trace_simpl; by rewrite ?Hev, ?events_cleanup|].
    split.
    { unfold connections in *. cbn. rewrite omap_app. cbn.
      rewrite app_nil_r, Hconn. apply (connections_cleanup s). }
    rewrite last_snoc. unfold retry_timer. by rewrite Hnext, Hclk, Hnt, Hclock.
Qed.

(** X10. A backoff attempt, in whatever state its timer fires: it tears the
    session down, always asks the relay (after [cleanup] the counter is 0,
    which is even), never announces a [reconnectCall] (after [cleanup] there
    is no room), and when the relay fails it schedules a retry. *)
Theorem reconnect_callback_outcome env s :
  ∃ c s',
    run env 0 (reconnect_callback s) = Some (c, s')
    ∧ c = Returned tt
    ∧ roomId (this s') = None
    ∧ isReconnecting (this s') = false
    ∧ reconnectAttempts (this s') = 0
    ∧ match peer (this s') with
      | Some q =>
          (∃ credentials,
              q = attach (fresh_peer (nextPeerId (rt s)) (turn_config credentials)))
          ∧ lastUsedConfig (this s') = Some cfg_turn
          ∧ events s' = events s
          ∧ calls s' = calls s ++ [aw_fetch; aw_json]
      | None =>
          (∃ e, events s' = events s ++ [turn_error e])
          ∧ connections s' = connections s
          ∧ last (timers (rt s')) = Some (retry_timer s)
      end.
Proof.
  destruct (run_total (reconnect_callback s) env 0) as [[c s'] Hrun].
  { unfold reconnect_callback. exec_total. }
  exists c, s'. split; [done|]. by apply (reconnect_callback_run env).
Qed.


Lemma peer_addTracks stream s : peer (this (addTracks stream s)) = peer (this s).
Proof.
  unfold addTracks. destruct (peer (this s)) as [q|] eqn:Hq; [|done].
  destruct stream as [tracks|]; [|done].
  destruct (addTracks_effect tracks s q Hq) as (_ & _ & _ & _ & Hthis & _).
  unfold addTracks in Hthis. rewrite Hq in Hthis.
  by rewrite <- Hq, <- Hthis.
Qed.

Lemma peer_switchMediaSource stream s :
  peer (this (switchMediaSource stream s)) = peer (this s).
Proof.
  unfold switchMediaSource. destruct (peer (this s)) eqn:Hq; [|done].
  cbn. by rewrite peer_addTracks.
Qed.

Lemma peer_handle_icecandidate candidate s :
  peer (this (handle_icecandidate candidate s)) = peer (this s).
Proof. unfold handle_icecandidate. by repeat case_match. Qed.

Lemma wired_frame s s' : peer (this s') = peer (this s) → wired s → wired s'.
Proof. unfold wired. by intros ->. Qed.

Ltac peer_frame :=
  first [ apply peer_addTracks | apply peer_switchMediaSource
        | apply this_handleIncomingTrack_peer | apply this_stream_ready_peer
        | apply peer_handle_icecandidate ].

Ltac wired_direct :=
  unfold wired, on_peer in *; cbn in *; rewrite ?this_cleanup in *; cbn in *;
  try done;
  let q := fresh "q" in
  let Hq := fresh "Hq" in
  intros q Hq;
  repeat match goal with
         | H : _ <$> _ = Some _ |- _ => apply fmap_Some in H as (? & ? & ->)
         | H : ∀ q, peer (this ?s) = Some q → _, H' : peer (this ?s) = Some _ |- _ =>
             specialize (H _ H')
         end;
  simplify_eq;
  unfold update_peer, all_handlers in *; repeat case_match; cbn in *; done.

Ltac wired_tac :=
  first [ assumption
        | solve [eapply wired_frame; [peer_frame|assumption]]
        | solve [wired_direct] ].

Lemma processPendingCandidates_wired fuel s :
  wired s → res_ok wired (λ _, wired) (processPendingCandidates fuel s).
Proof.
  intros Hs. eapply res_ok_weaken.
  - apply processPendingCandidates_ok; [| | |exact Hs]; intros; wired_tac.
  - by intros ? ? [_ ?].
Qed.

Lemma handleConnectionFailure_wired s :
  wired s → res_ok wired (λ _, wired) (handleConnectionFailure s).
Proof. intros Hs. exec_task wired_tac. Qed.

Ltac wired_call :=
  first [ apply handleConnectionFailure_wired
        | apply processPendingCandidates_wired ]; wired_tac.

Lemma start_wired a s r :
  wired s → start a s = Some r → res_ok wired (λ _, wired) r.
Proof.
  intros Hs Hstart.
  destruct a; unfold start in Hstart;
    repeat (case_match; try discriminate); simplify_option_eq;
    repeat match goal with
           | H : (if ?b then _ else _) = Some _ |- _ =>
               destruct b eqn:?; try discriminate; simplify_eq
           end.
  all: unfold initializePeer, forget, createOffer, createAnswer,
      setRemoteDescription, on_socket_ice_candidate, notify, run_handler,
      run_callback, handle_iceconnectionstatechange,
      handle_connectionstatechange.
  all: exec_calls wired_call wired_tac.
Qed.

Lemma wired_initial : wired initial.
Proof. by intros q. Qed.

(** X12. In every reachable world the connection that the service holds has all
    its handlers installed: a connection is never current before
    [setupPeerEvents] has run on it, nor after [cleanup] has taken its
    handlers off. *)
Theorem current_connection_wired w q h :
  reachable w →
  peer (this (state w)) = Some q →
  installed h q = true.
Proof.
  intros Hw Hq.
  destruct (reachable_ok wired wired_initial start_wired w Hw) as [Hwired _].
  specialize (Hwired q Hq). unfold all_handlers in Hwired.
  repeat (apply andb_true_iff in Hwired as [Hwired ?]).
  by destruct h.
Qed.

Lemma current_connection_wired_witness :
  installed (h_track {| event_stream := Some "cam"; event_kind := video |})
    (attach (fresh_peer 1 stun_config)) = true.
Proof.
  apply (current_connection_wired
           (default boot_world (exec [call_initializePeer "lobby"] boot_world))).
  - exists [call_initializePeer "lobby"]. vm_compute. reflexivity.
  - vm_compute. reflexivity.
Defined.


Section timers_owned.
Context {ts : list Timer} {n : Z} {m : gmap string TrackingInfo} {i : option Z}.
Hypothesis H : timers_owned ts n m i.

Lemma owned_filter (P : Timer → Prop) `{!∀ t, Decision (P t)} :
  timers_owned (filter P ts) n m i.
Proof using H.
  destruct H. split; try done.
  - intros t [_ ?]%list_elem_of_filter. auto.
  - by apply NoDup_fmap_filter.
  - intros sid info t Hl Hid [_ ?]%list_elem_of_filter. eauto.
  - intros t sid [_ ?]%list_elem_of_filter. auto.
  - intros t Hi [_ ?]%list_elem_of_filter. auto.
  - intros t [_ ?]%list_elem_of_filter. auto.
Qed.

Lemma owned_add a due :
  other_timer a = true →
  timers_owned (ts ++ [ {| timer_id := n; timer_due := due; timer_action := a |} ])
    (n + 1) m i.
Proof using H.
  intros Ha. destruct H. split; try done.
  - lia.
  - intros t [Ht| ->%list_elem_of_singleton]%elem_of_app; [|cbn; lia].
    specialize (to_ids0 t Ht). lia.
  - rewrite fmap_app. apply NoDup_app. split; [done|]. split; [|apply NoDup_singleton].
    intros id (t & -> & Ht)%list_elem_of_fmap Heq%list_elem_of_singleton.
    cbn in Heq. specialize (to_ids0 t Ht). lia.
  - intros sid info id Hl Hid. specialize (to_handle0 sid info id Hl Hid). lia.
  - intros sid info t Hl Hid [?| ->%list_elem_of_singleton]%elem_of_app; [eauto|].
    cbn in Hid. specialize (to_handle0 sid info n Hl Hid). lia.
  - intros t sid [?| ->%list_elem_of_singleton]%elem_of_app; [auto|].
    cbn. intros ->. done.
  - intros id Hi. specialize (to_ice_handle0 id Hi). lia.
  - intros t Hi [?| ->%list_elem_of_singleton]%elem_of_app; [auto|].
    cbn in Hi. specialize (to_ice_handle0 n Hi). lia.
  - intros t [?| ->%list_elem_of_singleton]%elem_of_app; [auto|].
    cbn. intros ->. done.
Qed.

Lemma handles_elem info id sid :
  m !! sid = Some info → timeoutId info = Some id → id ∈ handles m.
Proof using H.
  intros Hl Hid. unfold handles. apply list_elem_of_bind. exists info. split.
  - rewrite (handle_of_Some _ _ Hid); [by left|].
    by destruct (to_handle _ _ _ _ H sid info id Hl Hid).
  - apply list_elem_of_fmap. exists (sid, info). split; [done|].
    by apply elem_of_map_to_list.
Qed.

Lemma handles_inv id :
  id ∈ handles m → ∃ sid info, m !! sid = Some info ∧ timeoutId info = Some id.
Proof.
  unfold handles.
  intros (info & Hid%handle_of_elem & ([sid info'] & -> & Hl%elem_of_map_to_list)
            %list_elem_of_fmap)%list_elem_of_bind.
  eauto.
Qed.

Lemma owned_cleanup :
  timers_owned (filter (λ t, timer_id t ∉ handles m) ts) n ∅ i.
Proof using H.
  pose proof (owned_filter (λ t, timer_id t ∉ handles m)) as [].
  split; try done.
  intros t sid Ht Hact. pose proof Ht as [Hnot Hin]%list_elem_of_filter.
  destruct (to_owned _ _ _ _ H t sid Hin Hact) as (info & Hl & Hid).
  destruct Hnot. by eapply handles_elem.
Qed.

(** The ICE-checking timeout is replaced. *)
Lemma owned_ice ts0 due :
  (∀ t, t ∈ ts0 → t ∈ ts ∧ i ≠ Some (timer_id t)) →
  NoDup (timer_id <$> ts0) →
  timers_owned
    (ts0 ++ [ {| timer_id := n; timer_due := due; timer_action := cb_iceTimeout |} ])
    (n + 1) m (Some n).
Proof using H.
  intros Hsub Hnodup. destruct H. split; try done.
  - lia.
  - intros t [Ht| ->%list_elem_of_singleton]%elem_of_app; [|cbn; lia].
    destruct (Hsub t Ht) as [Ht' _]. specialize (to_ids0 t Ht'). lia.
  - rewrite fmap_app. apply NoDup_app. split; [done|]. split; [|apply NoDup_singleton].
    intros id (t & -> & Ht)%list_elem_of_fmap Heq%list_elem_of_singleton.
    cbn in Heq. destruct (Hsub t Ht) as [Ht' _]. specialize (to_ids0 t Ht'). lia.
  - intros sid info id Hl Hid. specialize (to_handle0 sid info id Hl Hid). lia.
  - intros sid info t Hl Hid [Hin| ->%list_elem_of_singleton]%elem_of_app.
    + eapply to_handle_timer0; [done..|]. by apply Hsub.
    + cbn in Hid. specialize (to_handle0 sid info n Hl Hid). lia.
  - intros t sid [Hin| ->%list_elem_of_singleton]%elem_of_app; [|done].
    apply to_owned0, Hsub, Hin.
  - intros id [= <-]. lia.
  - intros t [= Heq] [Hin| ->%list_elem_of_singleton]%elem_of_app; [|done].
    destruct (Hsub t Hin) as [Ht' _]. specialize (to_ids0 t Ht'). lia.
  - intros t [Hin| ->%list_elem_of_singleton]%elem_of_app; [|done].
    intros Hact. destruct (Hsub t Hin) as [Ht' Hne].
    destruct Hne. by apply to_ice_owned0.
Qed.

End timers_owned.

Lemma disciplined_cleanup s : disciplined s → disciplined (cleanup s).
Proof.
  unfold disciplined. intros Hs.
  destruct (same_platform_cleanup s) as (-> & _).
  rewrite timers_cleanup, this_cleanup. cbn. by apply owned_cleanup.
Qed.

Lemma iceTimeout_handleIncomingTrack event s :
  iceTimeout (this (handleIncomingTrack event s)) = iceTimeout (this s).
Proof.
  unfold handleIncomingTrack. destruct (event_stream event); [|done].
  cbn. by rewrite this_clear_tracking_timer.
Qed.

Lemma disciplined_track event s :
  disciplined s → disciplined (handleIncomingTrack event s).
Proof.
  unfold disciplined. intros Hs. destruct event as [[sid|] kind]; [|done].
  rewrite iceTimeout_handleIncomingTrack.
  destruct (handleIncomingTrack_spec sid kind s) as (-> & -> & -> & _).
  rewrite handle_of_mark.
  set (info0 := default (new_tracking sid) (_streamTracking (this s) !! sid)).
  set (ts0 := filter (λ t, timer_id t ∉ handle_of info0) (timers (rt s))).
  pose proof (owned_filter Hs (λ t, timer_id t ∉ handle_of info0)) as Hf.
  fold ts0 in Hf.
  assert (stream info0 = sid) as Hstream0.
  { unfold info0. destruct (_streamTracking (this s) !! sid) eqn:E; [|done].
    by eapply (to_stream _ _ _ _ Hs). }
  assert (∀ t, t ∈ ts0 → timer_action t ≠ cb_streamReady sid) as Hgone.
  { intros t [Hnot Ht]%list_elem_of_filter Hact.
    destruct (to_owned _ _ _ _ Hs t sid Ht Hact) as (info & Hl & Hid).
    apply Hnot. unfold info0. rewrite Hl. cbn.
    rewrite (handle_of_Some _ _ Hid); [by left|].
    by destruct (to_handle _ _ _ _ Hs sid info _ Hl Hid). }
  destruct Hf. split; try done.
  - lia.
  - intros t [Ht| ->%list_elem_of_singleton]%elem_of_app; [|cbn; lia].
    specialize (to_ids0 t Ht). lia.
  - rewrite fmap_app. apply NoDup_app. split; [done|]. split; [|apply NoDup_singleton].
    intros id (t & -> & Ht)%list_elem_of_fmap Heq%list_elem_of_singleton.
    cbn in Heq. specialize (to_ids0 t Ht). lia.
  - intros sid' info [[<- <-]|[? Hl]]%lookup_insert_Some; [by destruct kind|eauto].
  - intros sid' info id [[<- <-]|[? Hl]]%lookup_insert_Some Hid.
    + cbn in Hid. simplify_eq. lia.
    + specialize (to_handle0 sid' info id Hl Hid). lia.
  - intros sid' info t [[<- <-]|[? Hl]]%lookup_insert_Some Hid
      [Ht| ->%list_elem_of_singleton]%elem_of_app.
    + cbn in Hid. simplify_eq. specialize (to_ids0 t Ht). lia.
    + done.
    + eauto.
    + cbn in Hid. specialize (to_handle0 sid' info _ Hl Hid). lia.
  - intros t sid' [Ht| ->%list_elem_of_singleton]%elem_of_app Hact.
    + destruct (to_owned0 t sid' Ht Hact) as (info & Hl & Hid).
      exists info. split; [|done]. rewrite lookup_insert_ne; [done|].
      intros <-. by eapply Hgone.
    + cbn in Hact. simplify_eq. eexists. split; [apply lookup_insert_eq|done].
  - intros id Hi. specialize (to_ice_handle0 id Hi). lia.
  - intros t Hi [Ht| ->%list_elem_of_singleton]%elem_of_app; [eauto|].
    cbn in Hi. specialize (to_ice_handle0 _ Hi). lia.
  - intros t [Ht| ->%list_elem_of_singleton]%elem_of_app; [eauto|done].
Qed.

Lemma disciplined_stream_ready sid s :
  disciplined s → disciplined (stream_ready sid s).
Proof.
  unfold disciplined, stream_ready. intros Hs.
  destruct (_streamTracking (this s) !! sid) as [info|] eqn:Hl; [|done].
  destruct (emitted info); [done|]. cbn.
  destruct Hs. split; try done.
  - intros sid' info' [[<- <-]|[? Hl']]%lookup_insert_Some; [cbn; eauto|eauto].
  - intros sid' info' id [[<- <-]|[? Hl']]%lookup_insert_Some Hid; cbn in Hid; eauto.
  - intros sid' info' t [[<- <-]|[? Hl']]%lookup_insert_Some Hid; cbn in Hid; eauto.
  - intros t sid' Ht Hact. destruct (to_owned0 t sid' Ht Hact) as (info' & Hl' & Hid).
    destruct (decide (sid' = sid)) as [->|Hne].
    + simplify_eq. eexists. split; [apply lookup_insert_eq|done].
    + exists info'. by rewrite lookup_insert_ne.
Qed.

Lemma disciplined_frame s s' : timer_view s' = timer_view s → disciplined s → disciplined s'.
Proof. unfold timer_view, disciplined. by intros [= -> -> -> ->]. Qed.

Lemma timer_view_foldl {A} (f : State → A → State) l :
  (∀ s x, timer_view (f s x) = timer_view s) →
  ∀ s, timer_view (foldl f s l) = timer_view s.
Proof.
  intros Hf. induction l as [|x l IH]; intros s; cbn; [done|]. by rewrite IH, Hf.
Qed.

Lemma timer_view_addTracks stream s : timer_view (addTracks stream s) = timer_view s.
Proof.
  unfold addTracks. destruct (peer (this s)); [|done]. destruct stream; [|done].
  rewrite timer_view_foldl.
  - change (timer_view (foldl (λ s sender, record (RemoveTrack sender) s) s
                          (map_to_list (senders (this s))).*2) = timer_view s).
    by apply timer_view_foldl.
  - intros s' t. unfold add_track. by destruct (track_accepted t).
Qed.

Lemma timer_view_switchMediaSource stream s :
  timer_view (switchMediaSource stream s) = timer_view s.
Proof.
  unfold switchMediaSource. destruct (peer (this s)); [|done].
  change (timer_view (addTracks stream s) = timer_view s). apply timer_view_addTracks.
Qed.

Lemma timer_view_handle_icecandidate candidate s :
  timer_view (handle_icecandidate candidate s) = timer_view s.
Proof. unfold handle_icecandidate. by repeat case_match. Qed.

Lemma falsy_handle ts n m id :
  timers_owned ts n m (Some id) → truthy_handle (Some id) = false → False.
Proof.
  intros Hs Hf. pose proof (to_ice_handle _ _ _ _ Hs id eq_refl).
  cbn in Hf. apply negb_false_iff, Z.eqb_eq in Hf. lia.
Qed.

Lemma nextTimerId_cleanup s : nextTimerId (rt (cleanup s)) = nextTimerId (rt s).
Proof. by destruct (same_platform_cleanup s) as (-> & _). Qed.

Lemma timers_cleanup_handles s :
  timers (rt (cleanup s))
  = filter (λ t, timer_id t ∉ handles (_streamTracking (this s))) (timers (rt s)).
Proof. apply timers_cleanup. Qed.

(** The timer table in the shapes that the methods give it. *)
Ltac owned_step :=
  first
    [ eassumption
    | apply owned_cleanup
    | apply owned_add; [|reflexivity]
    | apply owned_filter ].

Ltac disciplined_direct :=
  unfold disciplined in *; cbn in *;
  rewrite ?timers_cleanup_handles, ?nextTimerId_cleanup, ?this_cleanup in *; cbn in *;
  repeat owned_step.

Ltac disciplined_ice :=
  unfold disciplined, drop_timer in *; cbn in *;
  match goal with
  | Hs : timers_owned ?ts _ _ _ |- timers_owned (?ts0 ++ [_]) _ _ _ =>
      apply (owned_ice Hs ts0);
      [ let t := fresh "t" in
        let Ht := fresh "Ht" in
        intros t Ht;
        try (apply list_elem_of_filter in Ht as [? Ht]);
        split; [exact Ht|];
        pose proof (to_ids _ _ _ _ Hs t Ht);
        match goal with
        | Heq : iceTimeout _ = _ |- _ => rewrite Heq
        end;
        bool_facts; try done; intros [= ?]; subst; first [done|lia]
      | first [apply NoDup_fmap_filter|idtac]; exact (to_nodup _ _ _ _ Hs) ]
  end.

Ltac disciplined_tac :=
  first [ assumption
        | solve [eapply disciplined_frame;
                 [first [ apply timer_view_addTracks | apply timer_view_switchMediaSource
                        | apply timer_view_handle_icecandidate ]|assumption]]
        | solve [apply disciplined_track; assumption]
        | solve [apply disciplined_stream_ready; disciplined_direct]
        | solve [disciplined_direct]
        | solve [disciplined_ice] ].

Lemma handleConnectionFailure_disciplined s :
  disciplined s → res_ok disciplined (λ _, disciplined) (handleConnectionFailure s).
Proof.
  intros Hs. exec_task disciplined_tac.
Qed.

Lemma processPendingCandidates_disciplined fuel s :
  disciplined s → res_ok disciplined (λ _, disciplined) (processPendingCandidates fuel s).
Proof.
  intros Hs. eapply res_ok_weaken.
  - apply processPendingCandidates_ok; [| | |exact Hs]; intros; disciplined_tac.
  - by intros ? ? [_ ?].
Qed.

Ltac disciplined_call :=
  first [ apply handleConnectionFailure_disciplined
        | apply processPendingCandidates_disciplined ]; disciplined_tac.

Lemma start_disciplined a s r :
  disciplined s → start a s = Some r → res_ok disciplined (λ _, disciplined) r.
Proof.
  intros Hs Hstart.
  destruct a; unfold start in Hstart;
    repeat (case_match; try discriminate); simplify_option_eq;
    repeat match goal with
           | H : (if ?b then _ else _) = Some _ |- _ =>
               destruct b eqn:?; try discriminate; simplify_eq
           end.
  all: unfold initializePeer, forget, createOffer, createAnswer,
      setRemoteDescription, on_socket_ice_candidate, notify, run_handler,
      run_callback, handle_iceconnectionstatechange,
      handle_connectionstatechange.
  all: exec_calls disciplined_call disciplined_tac.
Qed.

Lemma disciplined_initial : disciplined initial.
Proof.
  split; cbn; try done; try (intros *; by rewrite lookup_empty);
    try (by intros ? ?%elem_of_nil); try (by intros ? ? ?%elem_of_nil);
    try (by intros ? ? ? ? ? ?%elem_of_nil); try constructor.
Qed.

Lemma reachable_disciplined w : reachable w → disciplined (state w).
Proof.
  intros Hw.
  by destruct (reachable_ok disciplined disciplined_initial start_disciplined w Hw).
Qed.

Lemma NoDup_fmap_elem {A B} (f : A → B) (l : list A) x y :
  NoDup (f <$> l) → x ∈ l → y ∈ l → f x = f y → x = y.
Proof.
  induction l as [|z l IH]; [by intros _ ?%elem_of_nil|].
  rewrite fmap_cons. intros [Hz Hl]%NoDup_cons [->|Hx]%elem_of_cons [->|Hy]%elem_of_cons Hf.
  - done.
  - destruct Hz. rewrite Hf. by apply list_elem_of_fmap_2.
  - destruct Hz. rewrite <- Hf. by apply list_elem_of_fmap_2.
  - by apply IH.
Qed.

Lemma filter_ext_elem {A} (P Q : A → Prop)
    `{!∀ x, Decision (P x), !∀ x, Decision (Q x)} (l : list A) :
  (∀ x, x ∈ l → P x ↔ Q x) → filter P l = filter Q l.
Proof.
  induction l as [|x l IH]; intros HPQ; [done|].
  rewrite !filter_cons, IH by (intros; apply HPQ; by right).
  destruct (decide (P x)) as [HP|HP], (decide (Q x)) as [HQ|HQ]; try done.
  - destruct HQ. apply HPQ; [by left|done].
  - destruct HP. apply HPQ; [by left|done].
Qed.

(** X13. The closure of a track-aggregation timer holds the tracking record of
    its stream; while the timer is pending, that record is the entry of the
    stream in [_streamTracking], and the timer is the one whose handle the
    record holds. *)
Theorem tracking_timers_owned w t sid :
  reachable w →
  t ∈ timers (rt (state w)) →
  timer_action t = cb_streamReady sid →
  ∃ info, _streamTracking (this (state w)) !! sid = Some info
          ∧ timeoutId info = Some (timer_id t)
          ∧ stream info = sid.
Proof.
  intros Hw%reachable_disciplined Ht Hact.
  destruct (to_owned _ _ _ _ Hw t sid Ht Hact) as (info & Hl & Hid).
  exists info. split; [done|]. split; [done|]. by eapply (to_stream _ _ _ _ Hw).
Qed.

(** X14. At most one ICE-checking timeout is pending at any time, and it is the
    one whose handle [iceTimeout] holds. *)
Theorem one_ice_timeout w t1 t2 :
  reachable w →
  t1 ∈ timers (rt (state w)) → timer_action t1 = cb_iceTimeout →
  t2 ∈ timers (rt (state w)) → timer_action t2 = cb_iceTimeout →
  t1 = t2 ∧ iceTimeout (this (state w)) = Some (timer_id t1).
Proof.
  intros Hw%reachable_disciplined Ht1 Ha1 Ht2 Ha2.
  pose proof (to_ice_owned _ _ _ _ Hw t1 Ht1 Ha1) as H1.
  pose proof (to_ice_owned _ _ _ _ Hw t2 Ht2 Ha2) as H2.
  split; [|done].
  eapply NoDup_fmap_elem; [apply (to_nodup _ _ _ _ Hw)|done..|congruence].
Qed.

(** X15. In every reachable world [cleanup] cancels the pending
    track-aggregation timers, all of them, and no other timer. *)
Theorem cleanup_cancels_stream_timers w :
  reachable w →
  timers (rt (cleanup (state w)))
  = filter (λ t, ¬ stream_timer t) (timers (rt (state w))).
Proof.
  intros Hw%reachable_disciplined. rewrite timers_cleanup_handles.
  apply filter_ext_elem. intros t Ht. split.
  - intros Hnot [sid Hact]. apply Hnot.
    destruct (to_owned _ _ _ _ Hw t sid Ht Hact) as (info & Hl & Hid).
    by eapply handles_elem.
  - intros Hnot (sid & info & Hl & Hid)%handles_inv. apply Hnot. exists sid.
    by eapply (to_handle_timer _ _ _ _ Hw).
Qed.



(** X16. The delay formula of peer.js:524 on the attempt numbers it can see: at
    least one second, growing with the attempt, doubling up to the fourth
    attempt and capped at ten seconds from the fifth on. *)
Theorem backoff_delay_bounds a b :
  1 ≤ a → a ≤ b →
  1000 ≤ backoff_delay a
  ∧ backoff_delay a ≤ backoff_delay b
  ∧ backoff_delay b ≤ 10000
  ∧ (a ≤ 4 → backoff_delay a = 1000 * 2 ^ (a - 1))
  ∧ (5 ≤ a → backoff_delay a = 10000).
Proof.
  intros Ha Hab. unfold backoff_delay.
  assert (∀ x, 1 ≤ x → 1 ≤ 2 ^ (x - 1)) as Hpos.
  { intros x Hx. change 1 with (2 ^ 0) at 1. apply Z.pow_le_mono_r; lia. }
  pose proof (Hpos a Ha). pose proof (Hpos b ltac:(lia)).
  assert (2 ^ (a - 1) ≤ 2 ^ (b - 1)) by (apply Z.pow_le_mono_r; lia).
  split; [lia|]. split; [lia|]. split; [lia|]. split.
  - intros H4. assert (2 ^ (a - 1) ≤ 2 ^ 3) by (apply Z.pow_le_mono_r; lia).
    change (2 ^ 3) with 8 in *. lia.
  - intros H5. assert (2 ^ 4 ≤ 2 ^ (a - 1)) by (apply Z.pow_le_mono_r; lia).
    change (2 ^ 4) with 16 in *. lia.
Qed.

Lemma backoff_delay_bounds_witness :
  1000 ≤ backoff_delay 3
  ∧ backoff_delay 3 ≤ backoff_delay 7
  ∧ backoff_delay 7 ≤ 10000
  ∧ (3 ≤ 4 → backoff_delay 3 = 1000 * 2 ^ (3 - 1))
  ∧ (5 ≤ 3 → backoff_delay 3 = 10000).
Proof. apply (backoff_delay_bounds 3 7); lia. Defined.



Lemma createAnswer_installs_both_witness :
  ∃ s', run (λ n, match n with
                  | 1%nat => Sdp {| sdp_type := sdp_answer; sdp := "v=0 a" |}
                  | _ => Resolved
                  end) 0
          (createAnswer {| sdp_type := sdp_offer; sdp := "v=0 o" |} connected_session)
        = Some (Returned {| sdp_type := sdp_answer; sdp := "v=0 a" |}, s')
        ∧ (signalingState <$> peer (this s')) = Some stable
        ∧ calls s'
          = [aw_setRemoteDescription 1 {| sdp_type := sdp_offer; sdp := "v=0 o" |};
             aw_createAnswer 1;
             aw_setLocalDescription 1 {| sdp_type := sdp_answer; sdp := "v=0 a" |}].
Proof.
  destruct (createAnswer_installs_both
              (λ n, match n with
                    | 1%nat => Sdp {| sdp_type := sdp_answer; sdp := "v=0 a" |}
                    | _ => Resolved
                    end)
              {| sdp_type := sdp_offer; sdp := "v=0 o" |}
              connected_session (attach (fresh_peer 1 stun_config))
              {| sdp_type := sdp_answer; sdp := "v=0 a" |}
              eq_refl eq_refl eq_refl eq_refl)
    as (s' & Hrun & Hthis & Hcalls & _).
  exists s'. split; [exact Hrun|]. split; [by rewrite Hthis|exact Hcalls].
Defined.


Lemma addTracks_replaces_senders_witness :
  dom (senders (this (addTracks (Some [ {| track_kind := audio; track_accepted := true |};
                                        {| track_kind := video; track_accepted := false |} ])
                        connected_session)))
  = list_to_set (accepted_kinds [ {| track_kind := audio; track_accepted := true |};
                                  {| track_kind := video; track_accepted := false |} ]).
Proof.
  exact (proj1 (addTracks_replaces_senders _ connected_session
                  (attach (fresh_peer 1 stun_config)) eq_refl)).
Defined.


Lemma checking_call_reachable : reachable checking_call.
Proof.
  exists [ call_initializePeer "lobby";
           peer_event (h_track {| event_stream := Some "cam"; event_kind := video |});
           peer_ice ice_checking; peer_ice ice_checking ].
  vm_compute. reflexivity.
Qed.

Lemma tracking_timers_owned_witness :
  ∃ info, _streamTracking (this (state checking_call)) !! "cam" = Some info
          ∧ timeoutId info = Some 1
          ∧ stream info = "cam".
Proof.
  apply (tracking_timers_owned checking_call
           {| timer_id := 1; timer_due := 1000; timer_action := cb_streamReady "cam" |}).
  - apply checking_call_reachable.
  - vm_compute. by left.
  - reflexivity.
Defined.

Lemma one_ice_timeout_witness :
  {| timer_id := 3; timer_due := 10000; timer_action := cb_iceTimeout |}
  = {| timer_id := 3; timer_due := 10000; timer_action := cb_iceTimeout |}
  ∧ iceTimeout (this (state checking_call)) = Some 3.
Proof.
  apply (one_ice_timeout checking_call).
  - apply checking_call_reachable.
  - vm_compute. right. by left.
  - reflexivity.
  - vm_compute. right. by left.
  - reflexivity.
Defined.

Lemma cleanup_cancels_stream_timers_witness :
  timers (rt (cleanup (state checking_call)))
  = filter (λ t, ¬ stream_timer t) (timers (rt (state checking_call))).
Proof. apply cleanup_cancels_stream_timers, checking_call_reachable. Defined.


(** ** The backoff delays that are used *)

Arguments backoff_delays : simpl never.

Lemma delays_record e s :
  backoff_delays (record e s)
  = backoff_delays s ++ match e with SetTimeout _ d cb_reconnect => [d] | _ => [] end.
Proof.
  unfold backoff_delays. cbn. rewrite omap_app.
  destruct e as [| |? ? []| | | | | |]; cbn; by rewrite ?app_nil_r.
Qed.

Lemma delays_upd f s : backoff_delays (upd f s) = backoff_delays s.
Proof. done. Qed.

Lemma delays_setTimeout a d s :
  backoff_delays (setTimeout_st a d s)
  = backoff_delays s ++ match a with cb_reconnect => [d] | _ => [] end.
Proof. unfold setTimeout_st. rewrite delays_record. by destruct a. Qed.

Lemma delays_clearTimeout id s :
  backoff_delays (clearTimeout_st id s) = backoff_delays s.
Proof. unfold clearTimeout_st. rewrite delays_record. by rewrite app_nil_r. Qed.

Lemma delays_construct_peer c s :
  backoff_delays (construct_peer c s) = backoff_delays s.
Proof.
  unfold construct_peer. repeat case_match; rewrite ?delays_upd, ?delays_record;
    by rewrite ?app_nil_r.
Qed.

Lemma delays_setupPeerEvents s : backoff_delays (setupPeerEvents s) = backoff_delays s.
Proof. unfold setupPeerEvents. by repeat case_match. Qed.

Lemma delays_settle op o s : backoff_delays (settle op o s) = backoff_delays s.
Proof. by destruct op. Qed.

Lemma delays_take_timer id s : backoff_delays (take_timer id s) = backoff_delays s.
Proof. done. Qed.

Lemma delays_cleanup s : backoff_delays (cleanup s) = backoff_delays s.
Proof. by apply omap_trace_cleanup. Qed.

Lemma delays_foldl {A} (f : State → A → State) l :
  (∀ s x, backoff_delays (f s x) = backoff_delays s) →
  ∀ s, backoff_delays (foldl f s l) = backoff_delays s.
Proof.
  intros Hf. induction l as [|x l IH]; intros s; cbn; [done|].
  by rewrite IH, Hf.
Qed.

Lemma delays_clear_tracking_timer s info :
  backoff_delays (clear_tracking_timer s info) = backoff_delays s.
Proof.
  unfold clear_tracking_timer. repeat case_match; try done.
  apply delays_clearTimeout.
Qed.

Lemma delays_addTracks stream s : backoff_delays (addTracks stream s) = backoff_delays s.
Proof.
  unfold addTracks. destruct (peer (this s)); [|done]. destruct stream; [|done].
  rewrite delays_foldl.
  - rewrite delays_upd. apply delays_foldl.
    intros s' x. by rewrite delays_record, app_nil_r.
  - intros s' t. unfold add_track. destruct (track_accepted t); [|done].
    cbn zeta. rewrite delays_upd, delays_record. by rewrite app_nil_r.
Qed.

Lemma delays_switchMediaSource stream s :
  backoff_delays (switchMediaSource stream s) = backoff_delays s.
Proof.
  unfold switchMediaSource. destruct (peer (this s)); [|done].
  by rewrite delays_record, delays_addTracks, app_nil_r.
Qed.

Lemma delays_handleIncomingTrack event s :
  backoff_delays (handleIncomingTrack event s) = backoff_delays s.
Proof.
  unfold handleIncomingTrack. destruct (event_stream event); [|done].
  cbn zeta. rewrite delays_upd, delays_setTimeout, delays_clear_tracking_timer.
  by rewrite app_nil_r.
Qed.

Lemma delays_stream_ready streamId s :
  backoff_delays (stream_ready streamId s) = backoff_delays s.
Proof.
  unfold stream_ready. repeat case_match; try done.
  by rewrite delays_record, delays_upd, app_nil_r.
Qed.

Lemma delays_handle_icecandidate candidate s :
  backoff_delays (handle_icecandidate candidate s) = backoff_delays s.
Proof.
  unfold handle_icecandidate. repeat case_match; try done.
  by rewrite delays_record, app_nil_r.
Qed.

Create Rewrite HintDb delays_db.
#[global] Hint Rewrite delays_record delays_upd delays_setTimeout
  delays_clearTimeout delays_construct_peer delays_setupPeerEvents
  delays_settle delays_cleanup delays_take_timer delays_addTracks
  delays_switchMediaSource delays_handleIncomingTrack delays_stream_ready
  delays_handle_icecandidate : delays_db.

Lemma paced_frame s s' :
  attempts s' = attempts s → backoff_delays s' = backoff_delays s →
  paced s → paced s'.
Proof.
  unfold paced. intros Ha -> [Hb Hd]. split; [|done].
  by apply (bounded_attempts s).
Qed.

Lemma backoff_delay_in_table a :
  1 ≤ a ≤ 5 → backoff_delay a ∈ [1000; 2000; 4000; 8000; 10000].
Proof.
  intros Ha.
  assert (a = 1 ∨ a = 2 ∨ a = 3 ∨ a = 4 ∨ a = 5) as Hcases by lia.
  clear Ha. destruct Hcases as [->|[->|[->|[->| ->]]]]; vm_compute; set_solver.
Qed.

Ltac paced_direct :=
  match goal with
  | H : paced _ |- paced _ =>
      let Hb := fresh "Hb" in
      let Hd := fresh "Hd" in
      destruct H as [Hb Hd]; split;
      [ bounded_tac
      | autorewrite with delays_db; rewrite ?app_nil_r;
        first [ exact Hd
              | apply Forall_app; split; [exact Hd|];
                apply Forall_singleton, backoff_delay_in_table;
                bounded_arith ] ]
  end.

Ltac paced_tac :=
  first [ assumption
        | solve [eapply paced_frame; [attempts_frame| |eassumption];
                 autorewrite with delays_db; reflexivity]
        | solve [paced_direct] ].

Lemma processPendingCandidates_paced fuel s :
  paced s → res_ok paced (λ _, paced) (processPendingCandidates fuel s).
Proof.
  intros Hs. eapply res_ok_weaken.
  - apply processPendingCandidates_ok; [| | |exact Hs]; intros; paced_tac.
  - by intros ? ? [_ ?].
Qed.

Lemma handleConnectionFailure_paced s :
  paced s → res_ok paced (λ _, paced) (handleConnectionFailure s).
Proof. intros Hs. exec_task paced_tac. Qed.

Ltac paced_call :=
  first [ apply handleConnectionFailure_paced
        | apply processPendingCandidates_paced ]; paced_tac.

Lemma start_paced a s r :
  paced s → start a s = Some r → res_ok paced (λ _, paced) r.
Proof.
  intros Hs Hstart.
  destruct a; unfold start in Hstart;
    repeat (case_match; try discriminate); simplify_option_eq;
    repeat match goal with
           | H : (if ?b then _ else _) = Some _ |- _ =>
               destruct b eqn:?; try discriminate; simplify_eq
           end.
  all: unfold initializePeer, forget, createOffer, createAnswer,
      setRemoteDescription, on_socket_ice_candidate, notify, run_handler,
      run_callback, handle_iceconnectionstatechange,
      handle_connectionstatechange.
  all: exec_calls paced_call paced_tac.
Qed.

Lemma paced_initial : paced initial.
Proof. split; [apply bounded_initial|constructor]. Qed.

(** X17. In every reachable world, every backoff attempt that was ever scheduled
    was given a delay of 1, 2, 4, 8 or 10 seconds: the counter that the
    formula reads is between 1 and 5 whenever a delay is computed. *)
Theorem backoff_delays_allowed w d :
  reachable w →
  d ∈ backoff_delays (state w) →
  d ∈ [1000; 2000; 4000; 8000; 10000].
Proof.
  intros Hw Hd.
  destruct (reachable_ok paced paced_initial start_paced w Hw) as [[_ Hall] _].
  by apply (proj1 (Forall_forall _ _) Hall).
Qed.

Lemma overlapping_backoffs_reachable : reachable overlapping_backoffs.
Proof.
  exists (overlapping_failures
            ++ [ settle_promise 0 (Rejected "offline");
                 settle_promise 0 (Rejected "offline") ]).
  vm_compute. reflexivity.
Qed.

Lemma backoff_delays_allowed_witness :
  backoff_delays (state overlapping_backoffs) = [1000; 2000]
  ∧ 2000 ∈ [1000; 2000; 4000; 8000; 10000].
Proof.
  split; [reflexivity|].
  apply (backoff_delays_allowed overlapping_backoffs 2000).
  - apply overlapping_backoffs_reachable.
  - vm_compute. apply list_elem_of_further, list_elem_of_here.
Defined.

(** ** Waiting for the stable state *)

Lemma wait_fires_S service n w :
  wait_fires service (S n) w = wait_fire service w ≫= wait_fires service n.
Proof. reflexivity. Qed.

Lemma wait_fires_snoc service n : ∀ w,
  wait_fires service (S n) w = wait_fires service n w ≫= wait_fire service.
Proof.
  induction n as [|n IH]; intros w.
  - rewrite wait_fires_S. change (wait_fires service 0 w) with (Some w).
    cbn [mbind option_bind]. by destruct (wait_fire service w).
  - rewrite (wait_fires_S _ (S n)), (wait_fires_S _ n).
    destruct (wait_fire service w) as [w'|]; [|done].
    cbn [mbind option_bind]. apply IH.
Qed.

Lemma waiting_eq c c' n n' ts ts' p :
  c = c' → n = n' → ts = ts' →
  {| wait_clock := c; wait_nextId := n; wait_timers := ts; wait_promise := p |}
  = {| wait_clock := c'; wait_nextId := n'; wait_timers := ts'; wait_promise := p |}.
Proof. by intros -> -> ->. Qed.

Lemma wait_timer_eq i i' d d' c :
  i = i' → d = d' →
  {| wt_id := i; wt_due := d; wt_closure := c |}
  = {| wt_id := i'; wt_due := d'; wt_closure := c |}.
Proof. by intros -> ->. Qed.

Ltac waiting_eq :=
  try apply (f_equal Some); apply waiting_eq; [lia|lia|];
  repeat first [ reflexivity
               | apply (f_equal2 cons); [apply wait_timer_eq; lia|] ].

(** One timer fires: which one, by the due times; what is left, by the
    handles. *)
Ltac wait_step :=
  cbn [mbind option_bind]; unfold wait_fire; cbn -[Z.of_nat];
  try match goal with
      | |- context [?a <? ?b] => destruct (Z.ltb_spec a b); try lia
      end;
  cbn -[Z.of_nat]; repeat (case_decide; try lia);
  cbn -[Z.of_nat]; unfold checkState; cbn -[Z.of_nat].

(** While the polls find the connection unsettled and the timeout has not
    come, the timeout and the next poll are pending. *)
Lemma wait_polling service timeout now h (m : nat) :
  let T := Z.max 0 (default 5000 timeout) in
  unsettled_until service now (S m) →
  m = O ∨ 100 * Z.of_nat m < T →
  wait_fires service m (wait_call service timeout now h)
  = Some {| wait_clock := now + 100 * Z.of_nat m;
            wait_nextId := h + 2 + Z.of_nat m;
            wait_timers :=
              [ {| wt_id := h; wt_due := now + T; wt_closure := wc_timeout |};
                {| wt_id := h + 1 + Z.of_nat m;
                   wt_due := now + 100 * (Z.of_nat m + 1);
                   wt_closure := wc_checkState h |} ];
            wait_promise := promise_pending |}.
Proof.
  intros T. induction m as [|m IH]; intros Hun Hm.
  - pose proof (Hun O ltac:(lia)) as H0. cbn in H0. rewrite Z.add_0_r in H0.
    unfold wait_call, waitForStableState, checkState. cbn. repeat (rewrite H0; cbn).
    unfold wait_setTimeout. cbn.
    subst T. waiting_eq.
  - rewrite wait_fires_snoc, IH; [|intros j Hj; apply Hun; lia|lia].
    destruct Hm as [|Hm]; [done|].
    pose proof (Hun (S m) ltac:(lia)) as HS.
    wait_step.
    replace (Z.max (now + 100 * Z.of_nat m) (now + 100 * (Z.of_nat m + 1)))
      with (now + 100 * Z.of_nat (S m)) by lia.
    rewrite HS. unfold wait_setTimeout. cbn -[Z.of_nat].
    subst T. waiting_eq.
Qed.

(** Once the timeout has fired, only the next poll is pending. *)
Lemma wait_timed_out service timeout now h (m : nat) :
  let T := Z.max 0 (default 5000 timeout) in
  unsettled_until service now (S m) →
  T ≤ 100 * (Z.of_nat m + 1) →
  wait_fires service (S m) (wait_call service timeout now h)
  = Some {| wait_clock := Z.max (now + T) (now + 100 * Z.of_nat m);
            wait_nextId := h + 2 + Z.of_nat m;
            wait_timers :=
              [ {| wt_id := h + 1 + Z.of_nat m;
                   wt_due := now + 100 * (Z.of_nat m + 1);
                   wt_closure := wc_checkState h |} ];
            wait_promise := promise_rejected timeout_error |}.
Proof.
  intros T. induction m as [|m IH]; intros Hun HT.
  - rewrite wait_fires_snoc, (wait_polling service timeout now h 0 Hun); [|by left].
    fold T. wait_step. subst T. waiting_eq.
  - destruct (Z.lt_ge_cases (100 * Z.of_nat (S m)) T) as [Hlt|Hge].
    + rewrite wait_fires_snoc, (wait_polling service timeout now h (S m) Hun);
        [|by right].
      fold T. wait_step. subst T. waiting_eq.
    + rewrite wait_fires_snoc, IH; [|intros j Hj; apply Hun; lia|lia].
      pose proof (Hun (S m) ltac:(lia)) as HS.
      wait_step.
      replace (Z.max (Z.max (now + T) (now + 100 * Z.of_nat m))
                 (now + 100 * (Z.of_nat m + 1)))
        with (now + 100 * Z.of_nat (S m)) by lia.
      rewrite HS. unfold wait_setTimeout. cbn -[Z.of_nat]. subst T. waiting_eq.
Qed.

(** X18. [waitForStableState] resolves at the first poll that finds the
    connection stable or gone, when that poll comes before the timeout
    (the polls are 100 ms apart and the first one is the call itself); it
    then leaves no timer behind. *)
Theorem waitForStableState_resolves service timeout now h (n : nat) :
  unsettled_until service now n →
  stable_or_gone (service (now + 100 * Z.of_nat n)) = true →
  n = O ∨ 100 * Z.of_nat n < Z.max 0 (default 5000 timeout) →
  wait_fires service n (wait_call service timeout now h)
  = Some {| wait_clock := now + 100 * Z.of_nat n;
            wait_nextId := if n is O then h else h + 1 + Z.of_nat n;
            wait_timers := [];
            wait_promise := promise_fulfilled |}.
Proof.
  intros Hun Hn HT. destruct n as [|m].
  - cbn in Hn. rewrite Z.add_0_r in Hn.
    unfold wait_call, waitForStableState. cbn. rewrite Hn. cbn.
    waiting_eq.
  - rewrite wait_fires_snoc, (wait_polling service timeout now h m Hun); [|lia].
    wait_step.
    replace (Z.max (now + 100 * Z.of_nat m) (now + 100 * (Z.of_nat m + 1)))
      with (now + 100 * Z.of_nat (S m)) by lia.
    rewrite Hn. cbn -[Z.of_nat]. repeat (case_decide; try lia).
    cbn -[Z.of_nat]. waiting_eq.
Qed.

(** X19. When the connection becomes stable only at a poll that is not before the
    timeout, the promise has been rejected by then and stays rejected; the
    polling stops at that poll. *)
Theorem waitForStableState_late service timeout now h (n : nat) :
  unsettled_until service now n →
  stable_or_gone (service (now + 100 * Z.of_nat n)) = true →
  n ≠ O →
  Z.max 0 (default 5000 timeout) ≤ 100 * Z.of_nat n →
  wait_fires service (S n) (wait_call service timeout now h)
  = Some {| wait_clock := now + 100 * Z.of_nat n;
            wait_nextId := h + 1 + Z.of_nat n;
            wait_timers := [];
            wait_promise := promise_rejected timeout_error |}.
Proof.
  intros Hun Hn Hpos HT. destruct n as [|m]; [done|].
  rewrite wait_fires_snoc, (wait_timed_out service timeout now h m Hun); [|lia].
  wait_step.
  replace (Z.max (Z.max (now + Z.max 0 (default 5000 timeout)) (now + 100 * Z.of_nat m))
             (now + 100 * (Z.of_nat m + 1)))
    with (now + 100 * Z.of_nat (S m)) by lia.
  rewrite Hn. cbn -[Z.of_nat]. unfold wait_clearTimeout. cbn -[Z.of_nat]. waiting_eq.
Qed.

(** X20. While the connection stays unsettled the polling never stops, timeout or
    not: after any number of timers has fired, a [checkState] is pending and
    due within 100 ms.  The promise is never fulfilled, and it is rejected
    once the timeout has passed. *)
Theorem polling_outlives_timeout service timeout now h (k : nat) :
  (∀ j : nat, stable_or_gone (service (now + 100 * Z.of_nat j)) = false) →
  ∃ w t,
    wait_fires service k (wait_call service timeout now h) = Some w
    ∧ wait_timers w
      = (if wait_promise w is promise_pending
         then [ {| wt_id := h; wt_due := now + Z.max 0 (default 5000 timeout);
                   wt_closure := wc_timeout |}; t ]
         else [t])
    ∧ wt_closure t = wc_checkState h
    ∧ wait_clock w ≤ wt_due t ≤ wait_clock w + 100
    ∧ wait_promise w ≠ promise_fulfilled
    ∧ (k ≠ O → Z.max 0 (default 5000 timeout) ≤ 100 * Z.of_nat k →
       wait_promise w = promise_rejected timeout_error).
Proof.
  intros Hun.
  assert (∀ n, unsettled_until service now n) as Hall by (intros n j _; apply Hun).
  destruct k as [|m].
  { eexists _, _. rewrite (wait_polling service timeout now h 0 (Hall _)); [|by left].
    split; [reflexivity|]. cbn. split; [reflexivity|]. cbn.
    split; [done|]. split; [lia|]. done. }
  destruct (Z.lt_ge_cases (100 * Z.of_nat (S m)) (Z.max 0 (default 5000 timeout)))
    as [Hlt|Hge].
  - eexists _, _.
    rewrite (wait_polling service timeout now h (S m) (Hall _)); [|by right].
    split; [reflexivity|]. cbn -[Z.of_nat]. split; [reflexivity|]. cbn -[Z.of_nat].
    split; [done|]. split; [lia|]. split; [done|]. lia.
  - eexists _, _.
    rewrite (wait_timed_out service timeout now h m (Hall _)); [|lia].
    split; [reflexivity|]. cbn -[Z.of_nat]. split; [reflexivity|]. cbn -[Z.of_nat].
    split; [done|]. split; [lia|]. done.
Qed.

Lemma waitForStableState_resolves_witness :
  wait_fires (stable_from 250) 3 (wait_call (stable_from 250) None 0 1)
  = Some {| wait_clock := 300; wait_nextId := 5; wait_timers := [];
            wait_promise := promise_fulfilled |}.
Proof.
  apply (waitForStableState_resolves (stable_from 250) None 0 1 3).
  - intros j Hj. destruct j as [|[|[|j]]]; [reflexivity..|lia].
  - reflexivity.
  - right. cbn. lia.
Defined.

Lemma waitForStableState_late_witness :
  wait_fires (stable_from 250) 4 (wait_call (stable_from 250) (Some 200) 0 1)
  = Some {| wait_clock := 300; wait_nextId := 5; wait_timers := [];
            wait_promise := promise_rejected timeout_error |}.
Proof.
  apply (waitForStableState_late (stable_from 250) (Some 200) 0 1 3).
  - intros j Hj. destruct j as [|[|[|j]]]; [reflexivity..|lia].
  - reflexivity.
  - discriminate.
  - cbn. lia.
Defined.

Lemma polling_outlives_timeout_witness :
  ∃ w t,
    wait_fires (λ _, this negotiating) 60 (wait_call (λ _, this negotiating) None 0 1) = Some w
    ∧ wait_timers w
      = (if wait_promise w is promise_pending
         then [ {| wt_id := 1; wt_due := 0 + Z.max 0 (default 5000 None);
                   wt_closure := wc_timeout |}; t ]
         else [t])
    ∧ wt_closure t = wc_checkState 1
    ∧ wait_clock w ≤ wt_due t ≤ wait_clock w + 100
    ∧ wait_promise w ≠ promise_fulfilled
    ∧ (60%nat ≠ O → Z.max 0 (default 5000 None) ≤ 100 * Z.of_nat 60 →
       wait_promise w = promise_rejected timeout_error).
Proof.
  apply (polling_outlives_timeout (λ _, this negotiating) None 0 1 60).
  intros j. reflexivity.
Defined.

(** ** A queue that is never drained *)

(** X21. [processPendingCandidates] with a candidate in the queue and no remote
    description on the current connection (or no connection) never comes to
    an end: [addIceCandidate] puts every candidate that the loop takes off
    the queue back at its end. *)
Theorem processPendingCandidates_spins fuel s :
  pendingCandidates (this s) ≠ [] →
  (∀ q, peer (this s) = Some q → remoteDescription q = None) →
  processPendingCandidates fuel s = Diverged.
Proof.
  revert s. induction fuel as [|fuel IH]; intros s Hpending Hremote.
  - unfold processPendingCandidates.
    by destruct (pendingCandidates (this s)).
  - change (processPendingCandidates (S fuel) s)
      with (match pendingCandidates (this s) with
            | [] => Done (Returned tt) s
            | candidate :: rest =>
                (assign (set_pendingCandidates rest) >>
                 addIceCandidate candidate >>
                 processPendingCandidates fuel) s
            end).
    destruct (pendingCandidates (this s)) as [|c rest] eqn:Hcs; [done|].
    unfold addIceCandidate, try_catch, bind, assign, modify, get. cbn.
    assert (∀ s', pendingCandidates (this s') = rest ++ [c] →
                  peer (this s') = peer (this s) →
                  processPendingCandidates fuel s' = Diverged) as Hnext.
    { intros s' Hcs' Hpeer. apply IH.
      - rewrite Hcs'. by destruct rest.
      - intros q Hq. apply Hremote. by rewrite <- Hpeer. }
    destruct (peer (this s)) as [q|] eqn:Hq; cbn.
    + rewrite (Hremote q eq_refl). cbn. apply Hnext; cbn; [done|by rewrite Hq].
    + apply Hnext; cbn; [done|by rewrite Hq].
Qed.

Lemma processPendingCandidates_spins_witness :
  pendingCandidates (this (state stale_answer)) = ["candidate:1"]
  ∧ awaited <$> inflight stale_answer
    = [aw_setRemoteDescription 1 {| sdp_type := sdp_answer; sdp := "v=0" |}]
  ∧ processPendingCandidates 8 (state stale_answer) = Diverged.
Proof.
  split; [reflexivity|]. split; [reflexivity|].
  apply processPendingCandidates_spins.
  - discriminate.
  - intros q. vm_compute. by intros [= <-].
Defined.

(** ** Setting a call up *)

Lemma initializePeer_stun room s :
  ctorThrows (rt s) = false →
  initializePeer room s
  = Done (Returned tt)
      (setupPeerEvents
         (construct_peer stun_config
            (upd (set_isReconnecting false)
               (upd (set_reconnectAttempts 0)
                  (upd (set_roomId (Some room)) (cleanup s)))))).
Proof.
  intros Hctor.
  set (s1 := upd (set_isReconnecting false)
               (upd (set_reconnectAttempts 0)
                  (upd (set_roomId (Some room)) (cleanup s)))).
  change (initializePeer room s) with (initializeConnection s1).
  rewrite initializeConnection_unfold.
  destruct (same_platform_cleanup s) as (_ & _ & _ & _ & _ & Hsame).
  change (ctorThrows (rt s1)) with (ctorThrows (rt (cleanup s))).
  by rewrite Hsame, Hctor.
Qed.

Lemma calls_foldl {A} (f : State → A → State) l :
  (∀ s x, calls (f s x) = calls s) →
  ∀ s, calls (foldl f s l) = calls s.
Proof.
  intros Hf. induction l as [|x l IH]; intros s; cbn; [done|].
  by rewrite IH, Hf.
Qed.

Lemma calls_addTracks stream s : calls (addTracks stream s) = calls s.
Proof.
  unfold addTracks. destruct (peer (this s)); [|done]. destruct stream; [|done].
  rewrite calls_foldl.
  - rewrite calls_upd. apply calls_foldl.
    intros s' x. by rewrite calls_record, app_nil_r.
  - intros s' t. unfold add_track. destruct (track_accepted t); [|done].
    cbn zeta. rewrite calls_upd, calls_record. by rewrite app_nil_r.
Qed.

(** X22. On a platform that accepts everything, the calls of the calling side
    made in a row ([initializePeer], [addTracks], [createOffer] and, with the
    answer, [setRemoteDescription]) end with one STUN connection that holds
    the answer as remote description, with a sender for each kind of track
    accepted, an empty candidate queue, exactly the three platform calls in
    their order, and no event. *)
Theorem call_setup_connects env room stream fuel answer offer s :
  ctorThrows (rt s) = false →
  env 0%nat = Sdp offer → env 1%nat = Resolved → env 2%nat = Resolved →
  sdp_type offer = sdp_offer →
  ∃ s',
    run env 0
      ((initializePeer room >>
        modify (addTracks (Some stream)) >>
        createOffer >>
        setRemoteDescription fuel answer) s)
    = Some (Returned tt, s')
    ∧ peer (this s')
      = Some (set_signalingState (signaling_after_remote (sdp_type answer))
                (set_remoteDescription (Some answer)
                   (set_signalingState have_local_offer
                      (attach (fresh_peer (nextPeerId (rt s)) stun_config)))))
    ∧ roomId (this s') = Some room
    ∧ dom (senders (this s')) = list_to_set (accepted_kinds stream)
    ∧ pendingCandidates (this s') = []
    ∧ isSettingRemoteDescription (this s') = false
    ∧ calls s'
      = calls s ++ [ aw_createOffer (nextPeerId (rt s));
                     aw_setLocalDescription (nextPeerId (rt s)) offer;
                     aw_setRemoteDescription (nextPeerId (rt s)) answer ]
    ∧ events s' = events s.
Proof.
  intros Hctor H0 H1 H2 Htype.
  unfold bind. rewrite (initializePeer_stun room s Hctor).
  set (s0 := upd (set_isReconnecting false)
               (upd (set_reconnectAttempts 0)
                  (upd (set_roomId (Some room)) (cleanup s)))).
  set (s1 := setupPeerEvents (construct_peer stun_config s0)).
  set (q := attach (fresh_peer (nextPeerId (rt s)) stun_config)).
  destruct (same_platform_cleanup s) as (_ & Hnp & _ & _ & _ & _).
  assert (this s1 = set_peer (Some q) (set_roomId (Some room) (cleaned (this s))))
    as Hthis1.
  { unfold s1, s0, q. cbn. rewrite this_cleanup, Hnp. by destruct (this s). }
  assert (calls s1 = calls s ∧ events s1 = events s) as [Hcalls1 Hev1].
  { unfold s1, s0. by trace_simpl. }
  clearbody s1. clear s0.
  cbn [res_bind]. unfold modify. cbn [res_bind].
  assert (peer (this s1) = Some q) as Hq1 by by rewrite Hthis1.
  destruct (addTracks_effect stream s1 q Hq1)
    as (Hdom & _ & _ & _ & Hthis2 & Hev2 & _).
  pose proof (peer_addTracks (Some stream) s1) as Hq2. rewrite Hq1 in Hq2.
  pose proof (calls_addTracks (Some stream) s1) as Hcalls2.
  set (s2 := addTracks (Some stream) s1) in *. clearbody s2.
  assert (roomId (this s2) = Some room ∧ pendingCandidates (this s2) = []
          ∧ isSettingRemoteDescription (this s2) = false) as (Hroom & Hpend & Hflag).
  { apply (f_equal roomId) in Hthis2 as Hr.
    apply (f_equal pendingCandidates) in Hthis2 as Hp.
    apply (f_equal isSettingRemoteDescription) in Hthis2 as Hf.
    cbn in Hr, Hp, Hf. rewrite Hthis1 in Hr, Hp, Hf. done. }
  unfold createOffer, try_catch, bind. cbn. rewrite Hq2. cbn.
  rewrite H0. cbn. rewrite Hq2. cbn. rewrite H1. cbn.
  rewrite Hq2, Hflag. cbn. unfold update_peer. cbn. rewrite Z.eqb_refl, Htype. cbn.
  unfold try_finally, try_catch, bind, await, assign, modify. cbn.
  rewrite bool_decide_eq_true_2 by set_solver. cbn.
  rewrite H2. cbn. rewrite processPendingCandidates_unfold. cbn. rewrite Hpend.
  cbn. eexists. split; [reflexivity|]. cbn. rewrite Hq2. cbn.
  unfold update_peer. cbn. rewrite ?Z.eqb_refl. cbn. rewrite ?Z.eqb_refl.
  split; [done|]. split; [done|]. split; [exact Hdom|]. split; [done|]. split; [done|].
  unfold on_peer. trace_simpl. cbn.
  by rewrite Hcalls2, Hcalls1, Hev2, Hev1.
Qed.

Lemma call_setup_connects_witness :
  ∃ s',
    run (λ n, match n with
              | O => Sdp {| sdp_type := sdp_offer; sdp := "v=0 offer" |}
              | _ => Resolved
              end) 0
      ((initializePeer "lobby" >>
        modify (addTracks (Some [ {| track_kind := audio; track_accepted := true |};
                                  {| track_kind := video; track_accepted := true |} ])) >>
        createOffer >>
        setRemoteDescription 0 {| sdp_type := sdp_answer; sdp := "v=0 answer" |})
         initial)
    = Some (Returned tt, s')
    ∧ signalingState <$> peer (this s') = Some stable
    ∧ dom (senders (this s')) = list_to_set ["audio"; "video"].
Proof.
  destruct (call_setup_connects
              (λ n, match n with
                    | O => Sdp {| sdp_type := sdp_offer; sdp := "v=0 offer" |}
                    | _ => Resolved
                    end)
              "lobby"
              [ {| track_kind := audio; track_accepted := true |};
                {| track_kind := video; track_accepted := true |} ] 0
              {| sdp_type := sdp_answer; sdp := "v=0 answer" |}
              {| sdp_type := sdp_offer; sdp := "v=0 offer" |} initial)
    as (s' & Hrun & Hpeer & _ & Hdom & _); [reflexivity..|].
  exists s'. split; [exact Hrun|]. split; [by rewrite Hpeer|exact Hdom].
Defined.
